(** * dockstep: cache index, project validation and the block engine

    A shallow embedding of the parts of dockstep that decide its caching
    and dependency behaviour:

    - [store.ComputeBlockHash] (store/store.go) with the SHA-256 digest it
      relies on,
    - [store.Cache] (store/cache.go): the hash -> digest index kept in
      [.dockstep/cache/index.json],
    - [config.Validate] (config/validate.go) with its DFS cycle check,
    - [engine.RunBlock] and [engine.resolveParentWithVisited]
      (engine/engine.go).

    Go strings are byte strings; they are modelled by [string], whose
    characters are bytes.  Go maps are [gmap]s.  The file system under
    [.dockstep/] is a record of finite maps, one per directory. *)

From Stdlib Require Import ZArith List Lia Ascii DecimalString.
From stdpp Require Import base option strings list gmap fin_maps.

Local Open Scope Z_scope.

(** ** SHA-256 (crypto/sha256), on bytes represented as [Z] in [0, 256) *)

Module SHA256.

Definition wrap32 (x : Z) : Z := Z.land x 0xffffffff.
Definition add32 (x y : Z) : Z := wrap32 (x + y).
Definition not32 (x : Z) : Z := Z.lxor x 0xffffffff.
Definition rotr (n x : Z) : Z :=
  Z.lor (Z.shiftr x n) (wrap32 (Z.shiftl x (32 - n))).

Definition Ch (x y z : Z) : Z := Z.lxor (Z.land x y) (Z.land (not32 x) z).
Definition Maj (x y z : Z) : Z :=
  Z.lxor (Z.lxor (Z.land x y) (Z.land x z)) (Z.land y z).
Definition Sigma0 (x : Z) : Z := Z.lxor (Z.lxor (rotr 2 x) (rotr 13 x)) (rotr 22 x).
Definition Sigma1 (x : Z) : Z := Z.lxor (Z.lxor (rotr 6 x) (rotr 11 x)) (rotr 25 x).
Definition sigma0 (x : Z) : Z := Z.lxor (Z.lxor (rotr 7 x) (rotr 18 x)) (Z.shiftr x 3).
Definition sigma1 (x : Z) : Z := Z.lxor (Z.lxor (rotr 17 x) (rotr 19 x)) (Z.shiftr x 10).

(** The round constants and the initial hash value are defined as in FIPS
    180-4: the first 32 bits of the fractional parts of the cube roots of
    the first 64 primes, and of the square roots of the first 8 primes. *)
Definition is_prime (n : Z) : bool :=
  forallb (fun d => negb (n mod Z.of_nat d =? 0)) (seq 2 (Z.to_nat n - 2)).

Definition primes : list Z :=
  Eval vm_compute in
    filter (fun n => is_prime n = true) (map Z.of_nat (seq 2 310)).

(** The largest [r] below [2 ^ k] above [r0] with [r ^ 3 <= n]. *)
Fixpoint cube_root_bits (k : nat) (n r0 : Z) : Z :=
  match k with
  | O => r0
  | S k' =>
      let r := r0 + 2 ^ Z.of_nat k' in
      if r * r * r <=? n then cube_root_bits k' n r else cube_root_bits k' n r0
  end.

Definition K : list Z :=
  Eval vm_compute in
    map (fun p => wrap32 (cube_root_bits 36 (p * 2 ^ 96) 0)) primes.

Definition H0 : list Z :=
  Eval vm_compute in
    map (fun p => wrap32 (Z.sqrt (p * 2 ^ 64))) (firstn 8 primes).

(** Big-endian packing of bytes into 32-bit words and back. *)
Fixpoint words (bs : list Z) : list Z :=
  match bs with
  | b0 :: b1 :: b2 :: b3 :: rest =>
      (Z.lor (Z.shiftl b0 24) (Z.lor (Z.shiftl b1 16) (Z.lor (Z.shiftl b2 8) b3)))
        :: words rest
  | _ => []
  end.

Definition word_bytes (w : Z) : list Z :=
  [ Z.land (Z.shiftr w 24) 0xff; Z.land (Z.shiftr w 16) 0xff;
    Z.land (Z.shiftr w 8) 0xff; Z.land w 0xff ].

(** Padding: a 0x80 byte, zeros up to 56 mod 64, the bit length on 8 bytes. *)
Definition pad (msg : list Z) : list Z :=
  let len := Z.of_nat (length msg) in
  let zeros := Z.to_nat ((55 - len) mod 64) in
  let bits := len * 8 in
  msg ++ [0x80] ++ repeat 0 zeros
      ++ word_bytes (Z.shiftr bits 32) ++ word_bytes (wrap32 bits).

(** The message schedule, most recent word first. *)
Fixpoint schedule (n : nat) (rev_w : list Z) : list Z :=
  match n with
  | O => rev_w
  | S n' =>
      let w := add32 (add32 (sigma1 (nth 1 rev_w 0)) (nth 6 rev_w 0))
                     (add32 (sigma0 (nth 14 rev_w 0)) (nth 15 rev_w 0)) in
      schedule n' (w :: rev_w)
  end.

Definition round (st : list Z) (kw : Z * Z) : list Z :=
  match st with
  | [a; b; c; d; e; f; g; h] =>
      let t1 := add32 (add32 (add32 h (Sigma1 e)) (add32 (Ch e f g) (fst kw))) (snd kw) in
      let t2 := add32 (Sigma0 a) (Maj a b c) in
      [add32 t1 t2; a; b; c; add32 d t1; e; f; g]
  | _ => st
  end.

Definition compress (h : list Z) (block : list Z) : list Z :=
  let w := rev (schedule 48 (rev block)) in
  let st := fold_left round (combine K w) h in
  map (fun p => add32 (fst p) (snd p)) (combine h st).

Fixpoint blocks (n : nat) (ws : list Z) : list (list Z) :=
  match n with
  | O => []
  | S n' =>
      match ws with
      | [] => []
      | _ => firstn 16 ws :: blocks n' (skipn 16 ws)
      end
  end.

Definition sum256 (msg : list Z) : list Z :=
  let ws := words (pad msg) in
  concat (map word_bytes (fold_left compress (blocks (length ws) ws) H0)).

End SHA256.

(** ** Byte strings and hexadecimal printing *)

Definition bytes_of_string (s : string) : list Z :=
  map (fun c => Z.of_N (Ascii.N_of_ascii c)) (String.list_ascii_of_string s).

Definition hex_digit (d : Z) : Ascii.ascii :=
  if d <? 10 then Ascii.ascii_of_N (Z.to_N (48 + d))
  else Ascii.ascii_of_N (Z.to_N (87 + d)).

(** [fmt.Sprintf("%x", bytes)]: two lower-case digits per byte. *)
Fixpoint hex (bs : list Z) : string :=
  match bs with
  | [] => EmptyString
  | b :: rest => String (hex_digit (Z.shiftr b 4)) (String (hex_digit (Z.land b 15)) (hex rest))
  end.

(** ** Data model (types/types.go) *)

Inductive BlockStatus :=
  | StatusPending | StatusCached | StatusRunning
  | StatusSuccess | StatusFailed | StatusSkipped.

Record Mount := { Source : string; Target : string; Mode : string }.

Record ExportConfig := {
  Artifacts : list string;
  Labels : gmap string string;
  Entrypoint : list string;
  Cmd : list string
}.

(** [types.Block].  The validator reads [Network], [Env] and [Mounts]; the
    engine and the hash read [FromBlockVersion] and [Instructions]. *)
Record Block := {
  ID : string;
  From : string;
  FromBlock : string;
  FromBlockVersion : string;
  Instructions : list string;
  Context : string;
  Network : string;
  Env : list string;
  Mounts : list Mount;
  Export : option ExportConfig
}.

Record Project := { Version : string; Name : string; Blocks : list Block }.

Record BlockState := {
  st_ID : string;
  st_Status : BlockStatus;
  st_Digest : string;
  st_Hash : string;
  st_Timestamp : Z;
  st_ExitCode : Z;
  st_Duration : Z;
  st_Error : string
}.

Record ImageRecord := {
  rec_Tag : string;
  rec_Digest : string;
  rec_Timestamp : Z;
  rec_Dockerfile : string
}.

Record RunOptions := { Force : bool; KeepContainer : bool }.

(** ** store.ComputeBlockHash *)

(** A [hash.Hash] in use: the bytes written to it so far. *)
Definition hasher := list Z.
Definition sha256_New : hasher := [].
Definition hash_Write (h : hasher) (s : string) : hasher := h ++ bytes_of_string s.
Definition hash_Sum (h : hasher) : list Z := SHA256.sum256 h.

(** The bytes [ComputeBlockHash] has written when it calls [Sum]. *)
Definition hash_input (block : Block) (parentDigest : string) : hasher :=
  let h := sha256_New in
  let h := hash_Write h parentDigest in
  let h := hash_Write h (ID block) in
  let h := hash_Write h (From block) in
  let h := hash_Write h (FromBlock block) in
  let h := hash_Write h (Context block) in
  fold_left hash_Write (Instructions block) h.

Definition ComputeBlockHash (block : Block) (parentDigest : string) : string :=
  hex (hash_Sum (hash_input block parentDigest)).

(** ** Errors and results *)

(** Go [error] values, one constructor per message the code builds;
    [%w] wrapping keeps the wrapped error as an argument. *)
Inductive error :=
  (* os and encoding/json *)
  | ErrNotExist (path : string)
  | ErrDecode (path : string)
  (* reported by the Docker client *)
  | ErrRuntime (msg : string)
  (* config.Validate *)
  | ErrVersionRequired
  | ErrNameRequired
  | ErrNoBlocks
  | ErrEmptyID
  | ErrDuplicateID (id : string)
  | ErrBlock (id : string) (err : error)
  | ErrNoFrom
  | ErrBothFrom
  | ErrFromBlockMissing (fromBlock : string)
  | ErrNetworkMode (mode : string)
  | ErrEnvFormat (env : string)
  | ErrMountFields
  | ErrCircularRefs
  (* engine *)
  | ErrBlockNotFound (id : string)
  | ErrResolveParent (err : error)
  | ErrPullImage (ref : string) (err : error)
  | ErrCircular (id : string)
  | ErrParentNotFound (id : string)
  | ErrLoadParentState (id : string) (err : error)
  | ErrResolveDeps (id : string) (err : error)
  | ErrExecuteParent (id : string) (err : error)
  | ErrReloadParentState (id : string) (err : error)
  | ErrStillNoDigest (id : string)
  | ErrNoParent
  | ErrStageContext (err : error)
  | ErrBuildImage (err : error)
  | ErrUpdateCache (err : error).

(** What a call produced: a value, a Go error, or (for the functions
    modelled with fuel) exhaustion of the fuel. *)
Inductive outcome (A : Type) :=
  | Ok (a : A)
  | Err (e : error)
  | OutOfFuel.
Arguments Ok {A} a.
Arguments Err {A} e.
Arguments OutOfFuel {A}.

Definition is_empty (s : string) : bool :=
  match s with EmptyString => true | String _ _ => false end.

Definition nl : string := String (Ascii.ascii_of_nat 10) EmptyString.

(** [err.Error()] *)
Fixpoint error_message (e : error) : string :=
  match e with
  | ErrNotExist path => "open " +:+ path +:+ ": no such file or directory"
  | ErrDecode path => "decode " +:+ path
  | ErrRuntime msg => msg
  | ErrVersionRequired => "version is required"
  | ErrNameRequired => "name is required"
  | ErrNoBlocks => "at least one block is required"
  | ErrEmptyID => "block ID cannot be empty"
  | ErrDuplicateID id => "duplicate block ID: " +:+ id
  | ErrBlock id err => "block " +:+ id +:+ ": " +:+ error_message err
  | ErrNoFrom => "either 'from' or 'from_block' must be specified"
  | ErrBothFrom => "cannot specify both 'from' and 'from_block'"
  | ErrFromBlockMissing fb => "from_block '" +:+ fb +:+ "' does not exist"
  | ErrNetworkMode m => "invalid network mode: " +:+ m
  | ErrEnvFormat env =>
      "invalid environment variable format: " +:+ env +:+ " (must be KEY=VALUE)"
  | ErrMountFields => "mount source and target are required"
  | ErrCircularRefs => "circular dependency detected in block references"
  | ErrBlockNotFound id => "block " +:+ id +:+ " not found"
  | ErrResolveParent err => "failed to resolve parent digest: " +:+ error_message err
  | ErrPullImage ref err => "failed to pull image " +:+ ref +:+ ": " +:+ error_message err
  | ErrCircular id =>
      "circular dependency detected: block " +:+ id +:+ " depends on itself"
  | ErrParentNotFound id => "parent block " +:+ id +:+ " not found in project"
  | ErrLoadParentState id err =>
      "failed to load state for parent block " +:+ id +:+ ": " +:+ error_message err
  | ErrResolveDeps id err =>
      "failed to resolve parent dependencies for " +:+ id +:+ ": " +:+ error_message err
  | ErrExecuteParent id err =>
      "failed to execute parent block " +:+ id +:+ ": " +:+ error_message err
  | ErrReloadParentState id err =>
      "failed to reload state for parent block " +:+ id +:+ ": " +:+ error_message err
  | ErrStillNoDigest id =>
      "parent block " +:+ id +:+ " still has no digest after execution"
  | ErrNoParent => "block has no parent specified"
  | ErrStageContext err => error_message err
  | ErrBuildImage err => "failed to build image: " +:+ error_message err
  | ErrUpdateCache err => "failed to update cache: " +:+ error_message err
  end.

(** The error at the bottom of a chain of [%w] wrappers. *)
Fixpoint root_cause (e : error) : error :=
  match e with
  | ErrBlock _ err | ErrResolveParent err | ErrPullImage _ err
  | ErrLoadParentState _ err | ErrResolveDeps _ err | ErrExecuteParent _ err
  | ErrReloadParentState _ err | ErrStageContext err | ErrBuildImage err
  | ErrUpdateCache err =>
      root_cause err
  | _ => e
  end.

(** ** The cache index (store/cache.go) *)

Record CacheEntry := { ce_Hash : string; ce_Digest : string }.

(** [.dockstep/cache/index.json] as [loadCache] sees it: absent, present
    but not decodable (for instance truncated), or a decoded index.  The
    file is only ever written by [saveCache]; reading back what
    [saveCache] wrote yields the same map. *)
Inductive CacheFile :=
  | FileMissing
  | FileGarbage
  | FileIndex (entries : gmap string CacheEntry).

Definition cachePath : string := ".dockstep/cache/index.json".

Definition loadCache (f : CacheFile) : outcome (gmap string CacheEntry) :=
  match f with
  | FileMissing => Ok ∅
  | FileGarbage => Err (ErrDecode cachePath)
  | FileIndex entries => Ok entries
  end.

Definition GetCachedDigest (f : CacheFile) (hash : string) : string * bool :=
  match loadCache f with
  | Ok entries =>
      match entries !! hash with
      | Some entry => (ce_Digest entry, true)
      | None => (EmptyString, false)
      end
  | _ => (EmptyString, false)
  end.

(** [saveCache] on a healthy file system: the directory is created and the
    file replaced. *)
Definition saveCache (entries : gmap string CacheEntry) : option error * CacheFile :=
  (None, FileIndex entries).

Definition SetCachedDigest (f : CacheFile) (hash digest : string)
  : option error * CacheFile :=
  let entries := match loadCache f with Ok entries => entries | _ => ∅ end in
  saveCache (<[hash := {| ce_Hash := hash; ce_Digest := digest |}]> entries).

(** [os.Remove]: fails when the path does not exist. *)
Definition ClearCache (f : CacheFile) : option error * CacheFile :=
  match f with
  | FileMissing => (Some (ErrNotExist cachePath), FileMissing)
  | _ => (None, FileMissing)
  end.

Definition GetCacheStats (f : CacheFile) : outcome nat :=
  match loadCache f with
  | Ok entries => Ok (size entries)
  | Err e => Err e
  | OutOfFuel => OutOfFuel
  end.


(** ** Project validation (config/validate.go) *)

(** A Go [map[string]bool] that is only ever read with [m[k]] and written
    with [m[k] = true], [m[k] = false] or [delete] is a finite set of
    strings: the keys bound to [true]. *)
Definition has (m : gset string) (k : string) : bool := bool_decide (k ∈ m).

Definition validNetworks : list string := ["default"; "none"; "host"]%string.

(** [strings.Contains(env, "=")] *)
Definition contains_equals (env : string) : bool :=
  existsb (Ascii.eqb "="%char) (String.list_ascii_of_string env).

Definition validateBlock (block : Block) (allBlockIDs : gset string) : option error :=
  if is_empty (From block) && is_empty (FromBlock block) then Some ErrNoFrom
  else if negb (is_empty (From block)) && negb (is_empty (FromBlock block)) then
    Some ErrBothFrom
  else if negb (is_empty (FromBlock block)) && negb (has allBlockIDs (FromBlock block)) then
    Some (ErrFromBlockMissing (FromBlock block))
  else if negb (is_empty (Network block))
          && negb (existsb (String.eqb (Network block)) validNetworks) then
    Some (ErrNetworkMode (Network block))
  else
    match List.find (fun env => negb (contains_equals env)) (Env block) with
    | Some env => Some (ErrEnvFormat env)
    | None =>
        if existsb (fun mount => is_empty (Source mount) || is_empty (Target mount))
                   (Mounts block)
        then Some ErrMountFields
        else None
    end.

(** The loop of [Validate] over [project.Blocks]; [blockIDs] holds the ids
    of the blocks already passed. *)
Fixpoint validateBlocks (blocks : list Block) (blockIDs : gset string) : option error :=
  match blocks with
  | [] => None
  | block :: rest =>
      if is_empty (ID block) then Some ErrEmptyID
      else if has blockIDs (ID block) then Some (ErrDuplicateID (ID block))
      else
        let blockIDs := {[ID block]} ∪ blockIDs in
        match validateBlock block blockIDs with
        | Some err => Some (ErrBlock (ID block) err)
        | None => validateBlocks rest blockIDs
        end
  end.

(** [deps]: blockID -> parentBlockID, later blocks overwriting earlier ones. *)
Definition buildDeps (blocks : list Block) : gmap string string :=
  fold_left (fun deps block =>
               if is_empty (FromBlock block) then deps
               else <[ID block := FromBlock block]> deps)
            blocks ∅.

(** [hasCycle] mutates [visited] and [recStack]; both are returned.  The
    recursion of the source visits a fresh node at each call, so it is
    bounded; [fuel] bounds it here. *)
Fixpoint hasCycle (fuel : nat) (blockID : string) (deps : gmap string string)
    (visited recStack : gset string) : option (bool * gset string * gset string) :=
  match fuel with
  | O => None
  | S fuel' =>
      let visited := {[blockID]} ∪ visited in
      let recStack := {[blockID]} ∪ recStack in
      match deps !! blockID with
      | Some parent =>
          if negb (has visited parent) then
            match hasCycle fuel' parent deps visited recStack with
            | None => None
            | Some (true, visited, recStack) => Some (true, visited, recStack)
            | Some (false, visited, recStack) =>
                Some (false, visited, recStack ∖ {[blockID]})
            end
          else if has recStack parent then Some (true, visited, recStack)
          else Some (false, visited, recStack ∖ {[blockID]})
      | None => Some (false, visited, recStack ∖ {[blockID]})
      end
  end.

(** The loop [for blockID := range deps] on the keys in the order [keys]. *)
Fixpoint checkKeys (fuel : nat) (keys : list string) (deps : gmap string string)
    (visited recStack : gset string) : outcome unit :=
  match keys with
  | [] => Ok ()
  | blockID :: rest =>
      if negb (has visited blockID) then
        match hasCycle fuel blockID deps visited recStack with
        | None => OutOfFuel
        | Some (true, _, _) => Err ErrCircularRefs
        | Some (false, visited, recStack) => checkKeys fuel rest deps visited recStack
        end
      else checkKeys fuel rest deps visited recStack
  end.

(** Go visits the keys of a map in an unspecified order: [keys] is the
    order taken, a permutation of the keys of [deps]. *)
Definition checkCircularDependencies (keys : list string) (blocks : list Block)
  : outcome unit :=
  let deps := buildDeps blocks in
  checkKeys (S (length blocks)) keys deps ∅ ∅.

Definition Validate (keys : list string) (project : Project) : outcome unit :=
  if is_empty (Version project) then Err ErrVersionRequired
  else if is_empty (Name project) then Err ErrNameRequired
  else if bool_decide (length (Blocks project) = 0%nat) then Err ErrNoBlocks
  else
    match validateBlocks (Blocks project) ∅ with
    | Some err => Err err
    | None => checkCircularDependencies keys (Blocks project)
    end.

(** The orders [range deps] can take for a project. *)
Definition key_order (project : Project) (keys : list string) : Prop :=
  keys ≡ₚ (map_to_list (buildDeps (Blocks project))).*1.


(** ** The state store (store/store.go) *)

(** A JSON file that exists: either it decodes or it does not. *)
Inductive file (A : Type) :=
  | Corrupt
  | Content (a : A).
Arguments Corrupt {A}.
Arguments Content {A} a.

(** The directories under [.dockstep/], each a finite map from the key in
    the file name to the file's content. *)
Record Store := {
  states : gmap string (file BlockState);
  logs : gmap string string;
  successLogs : gmap string string;
  images : gmap string string;
  history : gmap string (list (file ImageRecord));
  dockerfiles : gmap string string;
  cache : CacheFile
}.

Definition set_states (f : gmap string (file BlockState) -> gmap string (file BlockState))
    (s : Store) : Store :=
  {| states := f (states s); logs := logs s; successLogs := successLogs s;
     images := images s; history := history s; dockerfiles := dockerfiles s;
     cache := cache s |}.
Definition set_logs (f : gmap string string -> gmap string string) (s : Store) : Store :=
  {| states := states s; logs := f (logs s); successLogs := successLogs s;
     images := images s; history := history s; dockerfiles := dockerfiles s;
     cache := cache s |}.
Definition set_successLogs (f : gmap string string -> gmap string string) (s : Store)
  : Store :=
  {| states := states s; logs := logs s; successLogs := f (successLogs s);
     images := images s; history := history s; dockerfiles := dockerfiles s;
     cache := cache s |}.
Definition set_images (f : gmap string string -> gmap string string) (s : Store) : Store :=
  {| states := states s; logs := logs s; successLogs := successLogs s;
     images := f (images s); history := history s; dockerfiles := dockerfiles s;
     cache := cache s |}.
Definition set_history
    (f : gmap string (list (file ImageRecord)) -> gmap string (list (file ImageRecord)))
    (s : Store)
  : Store :=
  {| states := states s; logs := logs s; successLogs := successLogs s;
     images := images s; history := f (history s); dockerfiles := dockerfiles s;
     cache := cache s |}.
Definition set_dockerfiles (f : gmap string string -> gmap string string) (s : Store)
  : Store :=
  {| states := states s; logs := logs s; successLogs := successLogs s;
     images := images s; history := history s; dockerfiles := f (dockerfiles s);
     cache := cache s |}.
Definition set_cache (c : CacheFile) (s : Store) : Store :=
  {| states := states s; logs := logs s; successLogs := successLogs s;
     images := images s; history := history s; dockerfiles := dockerfiles s;
     cache := c |}.

Definition statePath (id : string) : string := ".dockstep/state/" +:+ id +:+ ".json".
Definition logPath (id : string) : string := ".dockstep/logs/" +:+ id +:+ ".log".

(** Writes succeed: the store is modelled on a healthy file system. *)
Definition SaveBlockState (id : string) (state : BlockState) (s : Store) : Store :=
  set_states (fun m => <[id := Content state]> m) s.

Definition LoadBlockState (id : string) (s : Store) : outcome BlockState :=
  match states s !! id with
  | None => Err (ErrNotExist (statePath id))
  | Some Corrupt => Err (ErrDecode (statePath id))
  | Some (Content state) => Ok state
  end.

(** [os.IsNotExist] *)
Definition IsNotExist (e : error) : bool :=
  match e with ErrNotExist _ => true | _ => false end.

Definition AppendLogs (id : string) (chunk : string) (s : Store) : Store :=
  set_logs (fun m => <[id := default EmptyString (m !! id) +:+ chunk]> m) s.

Definition ClearLogs (id : string) (s : Store) : Store :=
  set_logs (fun m => <[id := EmptyString]> m) s.

Definition LoadLogs (id : string) (s : Store) : outcome string :=
  match logs s !! id with
  | Some l => Ok l
  | None => Err (ErrNotExist (logPath id))
  end.

Definition SaveSuccessfulLogs (id : string) (l : string) (s : Store) : Store :=
  set_successLogs (fun m => <[id := l]> m) s.

Definition SaveImageDigest (id digest : string) (s : Store) : Store :=
  set_images (fun m => <[id := digest]> m) s.

(** Refuses an empty digest; the engine only warns about that. *)
Definition SaveDockerfileSnapshot (digest content : string) (s : Store) : Store :=
  if is_empty digest then s
  else set_dockerfiles (fun m => <[digest := content]> m) s.

(** A history file is a sequence of JSON records, one per line; a record
    either decodes or it does not.  [SaveImageHistory] appends one record
    at the end of the file. *)
Definition SaveImageHistory (id : string) (rec : ImageRecord) (s : Store) : Store :=
  set_history (fun m => <[id := default [] (m !! id) ++ [Content rec]]> m) s.

(** The loop of [LoadImageHistory]: decoding stops at the end of the file
    or at the first record that does not decode, and what was read up to
    there is returned. *)
Fixpoint decodeRecords (lines : list (file ImageRecord)) : list ImageRecord :=
  match lines with
  | Content rec :: rest => rec :: decodeRecords rest
  | Corrupt :: _ => []
  | [] => []
  end.

(** A record that does not decode ends the read without an error; only a
    file that cannot be opened is one. *)
Definition LoadImageHistory (id : string) (s : Store) : outcome (list ImageRecord) :=
  match history s !! id with
  | Some lines => Ok (decodeRecords lines)
  | None => Err (ErrNotExist (".dockstep/history/" +:+ id +:+ ".jsonl"))
  end.

(** ** The Container Runtime (docker/client.go) *)

(** The Docker daemon is an external collaborator: an abstract state [R]
    with the operations the engine uses.  Each returns the state after the
    call; an error is the message the client reports.  [rt_StageContext]
    stands for the preparation of the build directory ([os.MkdirTemp],
    writing the Dockerfile, [copyBuildContext]) from the engine's context
    path and the block's [context]; [rt_ImageBuild] returns the log chunks
    passed to the callback, in order, and the image id. *)
Class Runtime (R : Type) := {
  rt_Now : R -> Z;
  rt_ImagePull : string -> R -> option string * R;
  rt_ImageInspect : string -> R -> (string + string) * R;
  rt_StageContext : string -> string -> string -> R -> option string * R;
  rt_ImageBuild : string -> string -> R -> list string * (string + string) * R
}.

(** The runtime operations a run invoked, oldest first. *)
Inductive RuntimeCall :=
  | CallPull (ref : string)
  | CallInspect (ref : string)
  | CallBuild (tag : string).

Record Engine := { project : Project; contextPath : string }.

(** ** sanitizeForDockerTag (on ASCII block ids) *)

Definition lower (c : ascii) : ascii :=
  let n := nat_of_ascii c in
  if (65 <=? n)%nat && (n <=? 90)%nat then ascii_of_nat (n + 32) else c.

Definition tag_char (c : ascii) : bool :=
  let n := nat_of_ascii c in
  ((97 <=? n)%nat && (n <=? 122)%nat) || ((48 <=? n)%nat && (n <=? 57)%nat)
  || Ascii.eqb c "."%char || Ascii.eqb c "_"%char || Ascii.eqb c "-"%char.

Definition alnum_char (c : ascii) : bool :=
  let n := nat_of_ascii c in
  ((97 <=? n)%nat && (n <=? 122)%nat) || ((48 <=? n)%nat && (n <=? 57)%nat).

Fixpoint collapse_hyphens (l : list ascii) : list ascii :=
  match l with
  | c :: (d :: _) as rest =>
      if Ascii.eqb c "-"%char && Ascii.eqb d "-"%char then collapse_hyphens rest
      else c :: collapse_hyphens rest
  | _ => l
  end.

Fixpoint drop_hyphens (l : list ascii) : list ascii :=
  match l with
  | c :: rest => if Ascii.eqb c "-"%char then drop_hyphens rest else l
  | [] => []
  end.

Definition sanitizeForDockerTag (blockID : string) : string :=
  let chars := map (fun c => if tag_char (lower c) then lower c else "-"%char)
                   (String.list_ascii_of_string blockID) in
  let chars := collapse_hyphens chars in
  let chars := rev (drop_hyphens (rev (drop_hyphens chars))) in
  match chars with
  | [] => "block"%string
  | c :: _ =>
      if alnum_char c then String.string_of_list_ascii chars
      else ("block-" +:+ String.string_of_list_ascii chars)%string
  end.

Definition decimal (z : Z) : string := NilZero.string_of_int (Z.to_int z).


(** ** The engine (engine/engine.go) *)

Section Engine.
Context {R : Type} `{!Runtime R}.

(** What a run can change: the store and the runtime.  Two records are
    kept with them, oldest entry first: the runtime operations invoked and
    the [SetCachedDigest] calls made. *)
Record World := {
  store : Store;
  docker : R;
  calls : list RuntimeCall;
  cacheSets : list (string * string)
}.

Definition on_store (f : Store -> Store) (w : World) : World :=
  {| store := f (store w); docker := docker w; calls := calls w;
     cacheSets := cacheSets w |}.

(** [e.cache.SetCachedDigest] *)
Definition setCached (hash digest : string) (w : World) : option error * World :=
  let '(err, f) := SetCachedDigest (cache (store w)) hash digest in
  (err, {| store := set_cache f (store w); docker := docker w; calls := calls w;
           cacheSets := cacheSets w ++ [(hash, digest)] |}).

(** [time.Now()] *)
Definition now (w : World) : Z := rt_Now (docker w).

Definition PullImage (ref : string) (w : World) : option error * World :=
  let '(r, d) := rt_ImagePull ref (docker w) in
  (match r with Some msg => Some (ErrRuntime msg) | None => None end,
   {| store := store w; docker := d; calls := calls w ++ [CallPull ref];
      cacheSets := cacheSets w |}).

Definition InspectImage (ref : string) (w : World) : outcome string * World :=
  let '(r, d) := rt_ImageInspect ref (docker w) in
  (match r with inl digest => Ok digest | inr msg => Err (ErrRuntime msg) end,
   {| store := store w; docker := d; calls := calls w ++ [CallInspect ref];
      cacheSets := cacheSets w |}).

(** The log callback appends each chunk to the store as it arrives. *)
Definition buildImageWithLogs (dockerfileContent tag blockID : string) (w : World)
  : outcome string * World :=
  let '(chunks, r, d) := rt_ImageBuild tag dockerfileContent (docker w) in
  let s := fold_left (fun s chunk => AppendLogs blockID chunk s) chunks (store w) in
  (match r with inl digest => Ok digest | inr msg => Err (ErrRuntime msg) end,
   {| store := s; docker := d; calls := calls w ++ [CallBuild tag];
      cacheSets := cacheSets w |}).

Definition generateDockerfile (block : Block) (parentImageRef : string) : string :=
  let lines := [("FROM " +:+ parentImageRef)%string; EmptyString] in
  let lines := fold_left (fun lines instruction => lines ++ [instruction])
                         (Instructions block) lines in
  String.concat nl lines.

Definition buildBlock (e : Engine) (block : Block) (parentImageRef : string) (w : World)
  : outcome string * World :=
  let dockerfileContent := generateDockerfile block parentImageRef in
  let '(staged, d) :=
    rt_StageContext (contextPath e) (Context block) dockerfileContent (docker w) in
  let w := {| store := store w; docker := d; calls := calls w;
              cacheSets := cacheSets w |} in
  match staged with
  | Some msg => (Err (ErrStageContext (ErrRuntime msg)), w)
  | None =>
      let sanitizedID := sanitizeForDockerTag (ID block) in
      let tag := ("dockstep-" +:+ sanitizedID +:+ "-" +:+ decimal (now w))%string in
      match buildImageWithLogs dockerfileContent tag (ID block) w with
      | (Ok digest, w) =>
          let w := on_store (SaveImageDigest (ID block) digest) w in
          let w := on_store (SaveDockerfileSnapshot digest dockerfileContent) w in
          let w := on_store (SaveImageHistory (ID block)
                     {| rec_Tag := tag; rec_Digest := digest;
                        rec_Timestamp := now w; rec_Dockerfile := dockerfileContent |}) w in
          (Ok digest, w)
      | (Err err, w) => (Err (ErrBuildImage err), w)
      | (OutOfFuel, w) => (OutOfFuel, w)
      end
  end.

Definition findBlock (e : Engine) (blockID : string) : option Block :=
  List.find (fun b => String.eqb (ID b) blockID) (Blocks (project e)).

(** [RunBlock] from the computation of the hash on: the cache check, the
    build and the final bookkeeping. *)
Definition runResolved (e : Engine) (blockID : string) (block : Block)
    (opts : RunOptions) (parentImageRef parentDigest : string) (w : World)
  : outcome unit * World :=
  let hash := ComputeBlockHash block parentDigest in
  let hit :=
    if Force opts then None
    else match GetCachedDigest (cache (store w)) hash with
         | (cachedDigest, true) => Some cachedDigest
         | (_, false) => None
         end in
  match hit with
  | Some cachedDigest =>
      let state := {| st_ID := blockID; st_Status := StatusCached;
                      st_Digest := cachedDigest; st_Hash := hash;
                      st_Timestamp := now w; st_ExitCode := 0; st_Duration := 0;
                      st_Error := EmptyString |} in
      (Ok (), on_store (SaveBlockState blockID state) w)
  | None =>
      let timestamp := now w in
      let state := {| st_ID := blockID; st_Status := StatusRunning;
                      st_Digest := EmptyString; st_Hash := hash;
                      st_Timestamp := timestamp; st_ExitCode := 0; st_Duration := 0;
                      st_Error := EmptyString |} in
      let w := on_store (SaveBlockState blockID state) w in
      let w := on_store (ClearLogs blockID) w in
      let startTime := now w in
      match buildBlock e block parentImageRef w with
      | (Err err, w) =>
          let state := {| st_ID := blockID; st_Status := StatusFailed;
                          st_Digest := EmptyString; st_Hash := hash;
                          st_Timestamp := timestamp; st_ExitCode := 1;
                          st_Duration := now w - startTime;
                          st_Error := error_message err |} in
          (Ok (), on_store (SaveBlockState blockID state) w)
      | (Ok digest, w) =>
          let state := {| st_ID := blockID; st_Status := StatusSuccess;
                          st_Digest := digest; st_Hash := hash;
                          st_Timestamp := timestamp; st_ExitCode := 0;
                          st_Duration := now w - startTime;
                          st_Error := EmptyString |} in
          let w := match LoadLogs blockID (store w) with
                   | Ok successfulLogs =>
                       if is_empty successfulLogs then w
                       else on_store (SaveSuccessfulLogs blockID successfulLogs) w
                   | _ => w
                   end in
          let w := on_store (SaveBlockState blockID state) w in
          match setCached hash digest w with
          | (Some err, w) => (Err (ErrUpdateCache err), w)
          | (None, w) => (Ok (), w)
          end
      | (OutOfFuel, w) => (OutOfFuel, w)
      end
  end.

(** The image reference that goes with a parent block's digest: the parent
    block's own [from], or the digest itself. *)
Definition parentReference (e : Engine) (block : Block) (digest : string)
  : outcome (string * string) :=
  match findBlock e (FromBlock block) with
  | None => Err (ErrParentNotFound (FromBlock block))
  | Some parentBlock =>
      if negb (is_empty (From parentBlock)) then Ok (From parentBlock, digest)
      else Ok (digest, digest)
  end.

Definition resolveImage (block : Block) (w : World) : outcome (string * string) * World :=
  match PullImage (From block) w with
  | (Some err, w) => (Err (ErrPullImage (From block) err), w)
  | (None, w) =>
      match InspectImage (From block) w with
      | (Ok digest, w) => (Ok (From block, digest), w)
      | (Err err, w) => (Err err, w)
      | (OutOfFuel, w) => (OutOfFuel, w)
      end
  end.

(** [LoadBlockState] of the parent as the resolver reads it: a missing
    state file counts as a state without digest. *)
Definition loadParentState (block : Block) (w : World) : outcome BlockState :=
  match LoadBlockState (FromBlock block) (store w) with
  | Err err =>
      if IsNotExist err then
        Ok {| st_ID := FromBlock block; st_Status := StatusPending;
              st_Digest := EmptyString; st_Hash := EmptyString; st_Timestamp := 0;
              st_ExitCode := 0; st_Duration := 0; st_Error := EmptyString |}
      else Err (ErrLoadParentState (FromBlock block) err)
  | r => r
  end.

Definition unforced : RunOptions := {| Force := false; KeepContainer := false |}.

(** [RunBlock] and [resolveParentWithVisited] call each other; [fuel]
    bounds the depth of the calls.  [visited] is the map shared by a
    resolution: it is returned as the call leaves it, the deferred
    [delete] included.  A nested [RunBlock] starts from a fresh map. *)
Fixpoint RunBlock (fuel : nat) (e : Engine) (blockID : string) (opts : RunOptions)
    (w : World) {struct fuel} : outcome unit * World :=
  match fuel with
  | O => (OutOfFuel, w)
  | S fuel' =>
      match findBlock e blockID with
      | None => (Err (ErrBlockNotFound blockID), w)
      | Some block =>
          match resolveParentWithVisited fuel' e block ∅ w with
          | (Ok (parentImageRef, parentDigest), _, w) =>
              runResolved e blockID block opts parentImageRef parentDigest w
          | (Err err, _, w) => (Err (ErrResolveParent err), w)
          | (OutOfFuel, _, w) => (OutOfFuel, w)
          end
      end
  end
with resolveParentWithVisited (fuel : nat) (e : Engine) (block : Block)
    (visited : gset string) (w : World) {struct fuel}
  : outcome (string * string) * gset string * World :=
  match fuel with
  | O => (OutOfFuel, visited, w)
  | S fuel' =>
      if negb (is_empty (From block)) then
        let '(r, w) := resolveImage block w in (r, visited, w)
      else if negb (is_empty (FromBlock block)) then
        if has visited (ID block) then (Err (ErrCircular (ID block)), visited, w)
        else
          let visited := {[ID block]} ∪ visited in
          let '(r, visited, w) :=
            if negb (is_empty (FromBlockVersion block)) then
              (parentReference e block (FromBlockVersion block), visited, w)
            else
              match loadParentState block w with
              | Ok state =>
                  if is_empty (st_Digest state) then
                    match findBlock e (FromBlock block) with
                    | None => (Err (ErrParentNotFound (FromBlock block)), visited, w)
                    | Some parentBlock =>
                        match resolveParentWithVisited fuel' e parentBlock visited w with
                        | (Ok _, visited, w) =>
                            match RunBlock fuel' e (FromBlock block) unforced w with
                            | (Ok _, w) =>
                                match LoadBlockState (FromBlock block) (store w) with
                                | Ok state =>
                                    if is_empty (st_Digest state) then
                                      (Err (ErrStillNoDigest (FromBlock block)), visited, w)
                                    else
                                      (parentReference e block (st_Digest state), visited, w)
                                | Err err =>
                                    (Err (ErrReloadParentState (FromBlock block) err),
                                     visited, w)
                                | OutOfFuel => (OutOfFuel, visited, w)
                                end
                            | (Err err, w) =>
                                (Err (ErrExecuteParent (FromBlock block) err), visited, w)
                            | (OutOfFuel, w) => (OutOfFuel, visited, w)
                            end
                        | (Err err, visited, w) =>
                            (Err (ErrResolveDeps (FromBlock block) err), visited, w)
                        | (OutOfFuel, visited, w) => (OutOfFuel, visited, w)
                        end
                    end
                  else (parentReference e block (st_Digest state), visited, w)
              | Err err => (Err err, visited, w)
              | OutOfFuel => (OutOfFuel, visited, w)
              end in
          (r, visited ∖ {[ID block]}, w)
      else (Err ErrNoParent, visited, w)
  end.

Definition resolveParent (fuel : nat) (e : Engine) (block : Block) (w : World)
  : outcome (string * string) * World :=
  let '(r, _, w) := resolveParentWithVisited fuel e block ∅ w in (r, w).

(** Fuel that is always enough for a run on the project of [e]. *)
Definition enough (e : Engine) : nat := length (Blocks (project e)) + 3.

End Engine.


(** ** A scripted runtime, for the examples *)

(** Pulls succeed, an image [ref] has digest [sha256:ref], the build
    directory is always staged, and builds take their results from a
    script: [inl id] is a successful build producing image [id], [inr msg]
    a failed one; an exhausted script fails every build.  The clock ticks
    once per build. *)
Record Scripted := { clock : Z; builds : list (string + string) }.

#[export] Instance Scripted_Runtime : Runtime Scripted := {
  rt_Now r := clock r;
  rt_ImagePull _ r := (None, r);
  rt_ImageInspect ref r := (inl ("sha256:" +:+ ref)%string, r);
  rt_StageContext _ _ _ r := (None, r);
  rt_ImageBuild _ _ r :=
    match builds r with
    | result :: rest =>
        (["Step 1/1"%string], result, {| clock := clock r + 1; builds := rest |})
    | [] => ([], inr "build failed: no image was created"%string,
             {| clock := clock r + 1; builds := [] |})
    end
}.

Definition emptyStore : Store :=
  {| states := ∅; logs := ∅; successLogs := ∅; images := ∅; history := ∅;
     dockerfiles := ∅; cache := FileMissing |}.

Definition freshWorld (script : list (string + string)) : World :=
  {| store := emptyStore; docker := {| clock := 1700000000; builds := script |};
     calls := []; cacheSets := [] |}.

Definition imageBlock (id from : string) (instructions : list string) : Block :=
  {| ID := id; From := from; FromBlock := EmptyString; FromBlockVersion := EmptyString;
     Instructions := instructions; Context := EmptyString; Network := EmptyString;
     Env := []; Mounts := []; Export := None |}.

Definition childBlock (id fromBlock version : string) (instructions : list string)
  : Block :=
  {| ID := id; From := EmptyString; FromBlock := fromBlock; FromBlockVersion := version;
     Instructions := instructions; Context := EmptyString; Network := EmptyString;
     Env := []; Mounts := []; Export := None |}.

(** The project of the end-to-end scenario: [base] on [alpine:latest] and
    [app] on [base]. *)
Definition demoProject : Project :=
  {| Version := "1.0"; Name := "demo";
     Blocks := [ imageBlock "base" "alpine:latest" ["RUN echo hi"%string];
                 childBlock "app" "base" EmptyString ["RUN echo bye"%string] ] |}.

Definition demoEngine : Engine := {| project := demoProject; contextPath := "/work" |}.


(** ** Inputs of the examples for the cache hash *)

(** The same block once on the image [base] and once on the block [base]. *)
Definition onImageBase : Block := imageBlock "app" "base" ["RUN make"%string].
Definition onBlockBase : Block := childBlock "app" "base" EmptyString ["RUN make"%string].

(** The same text cut into two instructions at different places. *)
Definition cutEarly : Block :=
  imageBlock "app" "alpine" ["RUN echo "; "ab"]%string.
Definition cutLate : Block :=
  imageBlock "app" "alpine" ["RUN echo a"; "b"]%string.

(** One instruction replaced by another. *)
Definition echoHi : Block :=
  imageBlock "app" "alpine" ["RUN apk add make"; "RUN echo hi"]%string.
Definition echoBye : Block :=
  imageBlock "app" "alpine" ["RUN apk add make"; "RUN echo bye"]%string.


(** ** The invariant of a project, as the specification states it *)

(** [a] names [b] as its parent block. *)
Definition from_block_edge (project : Project) (a b : Block) : Prop :=
  a ∈ Blocks project /\ b ∈ Blocks project
  /\ FromBlock a <> EmptyString /\ FromBlock a = ID b.

(** The [from_block] edges contain a cycle. *)
Definition cyclic (project : Project) : Prop :=
  exists a, tc (from_block_edge project) a a.

(** Exactly one of [from] and [from_block] is set. *)
Definition exactly_one_parent (b : Block) : Prop :=
  (From b <> EmptyString /\ FromBlock b = EmptyString)
  \/ (From b = EmptyString /\ FromBlock b <> EmptyString).

Definition well_formed (project : Project) : Prop :=
  Version project <> EmptyString
  /\ Name project <> EmptyString
  /\ Blocks project <> []
  /\ (forall b, b ∈ Blocks project -> ID b <> EmptyString)
  /\ NoDup (ID <$> Blocks project)
  /\ (forall b, b ∈ Blocks project -> exactly_one_parent b)
  /\ (forall b, b ∈ Blocks project -> FromBlock b <> EmptyString ->
        exists p, p ∈ Blocks project /\ ID p = FromBlock b)
  /\ ~ cyclic project.

(** What [validateBlock] asks of the fields the invariant does not
    mention. *)
Definition runtime_fields_valid (b : Block) : Prop :=
  (Network b = EmptyString \/ In (Network b) validNetworks)
  /\ (forall env, In env (Env b) -> contains_equals env = true)
  /\ (forall mount, In mount (Mounts b) ->
        Source mount <> EmptyString /\ Target mount <> EmptyString).

(** Every parent block is listed no later than the blocks built on it. *)
Definition parents_first (project : Project) : Prop :=
  forall i b, Blocks project !! i = Some b -> FromBlock b <> EmptyString ->
    exists j p, (j <= i)%nat /\ Blocks project !! j = Some p /\ ID p = FromBlock b.

(** Position of the first block with a given id. *)
Fixpoint index_of (id : string) (blocks : list Block) : nat :=
  match blocks with
  | [] => O
  | b :: rest => if String.eqb (ID b) id then O else S (index_of id rest)
  end.

(** Inputs of the examples for validation. *)
Definition bridgeProject : Project :=
  {| Version := "1.0"; Name := "demo";
     Blocks := [ {| ID := "base"; From := "alpine:latest"; FromBlock := EmptyString;
                    FromBlockVersion := EmptyString;
                    Instructions := ["RUN echo hi"%string];
                    Context := EmptyString; Network := "bridge"; Env := [];
                    Mounts := []; Export := None |} ] |}.

Definition childFirstProject : Project :=
  {| Version := "1.0"; Name := "demo";
     Blocks := [ childBlock "app" "base" EmptyString ["RUN echo bye"%string];
                 imageBlock "base" "alpine:latest" ["RUN echo hi"%string] ] |}.

Definition cycleA : Block := childBlock "a" "b" EmptyString ["RUN echo a"%string].
Definition cycleB : Block := childBlock "b" "a" EmptyString ["RUN echo b"%string].

Definition cycleProject : Project :=
  {| Version := "1.0"; Name := "test"; Blocks := [cycleA; cycleB] |}.

Definition selfProject : Project :=
  {| Version := "1.0"; Name := "test";
     Blocks := [ childBlock "a" "a" EmptyString ["RUN echo a"%string] ] |}.


(** The ids of a list of blocks, as a set. *)
Definition ids (blocks : list Block) : gset string := list_to_set (ID <$> blocks).


(** ** Notions used to state the behaviour of the engine *)

Section EngineNotions.
Context {R : Type} `{!Runtime R}.

(** The parent of [block] needs no execution in [w]: it is an image, a
    pinned version, or a block whose stored state has a digest. *)
Definition settled (block : Block) (w : @World R) : Prop :=
  From block <> EmptyString
  \/ FromBlock block = EmptyString
  \/ FromBlockVersion block <> EmptyString
  \/ forall state, loadParentState block w = Ok state -> st_Digest state <> EmptyString.

(** [block] is built on an unpinned parent block that exists in the
    project and has no stored digest in [w]. *)
Definition awaits_parent (e : Engine) (w : @World R) (block : Block) : Prop :=
  From block = EmptyString /\ FromBlock block <> EmptyString
  /\ FromBlockVersion block = EmptyString
  /\ (exists state, loadParentState block w = Ok state
                    /\ st_Digest state = EmptyString)
  /\ exists parent, findBlock e (FromBlock block) = Some parent.

(** [p] is the block the engine finds for the [from_block] of [b]. *)
Definition parent_of (e : Engine) (b p : Block) : Prop :=
  findBlock e (FromBlock b) = Some p.


(** The status recorded for a block. *)
Definition status_of (blockID : string) (w : @World R) : option BlockStatus :=
  match LoadBlockState blockID (store w) with
  | Ok state => Some (st_Status state)
  | _ => None
  end.

(** The part of the resolver that follows the marking of the block. *)
Definition resolveMarked (e : Engine) (fuel : nat) (block : Block) (visited : gset string) (w : @World R)
  : outcome (string * string) * gset string * World :=
  if negb (is_empty (FromBlockVersion block)) then
    (parentReference e block (FromBlockVersion block), visited, w)
  else
    match loadParentState block w with
    | Ok state =>
        if is_empty (st_Digest state) then
          match findBlock e (FromBlock block) with
          | None => (Err (ErrParentNotFound (FromBlock block)), visited, w)
          | Some parentBlock =>
              match resolveParentWithVisited fuel e parentBlock visited w with
              | (Ok _, visited, w) =>
                  match RunBlock fuel e (FromBlock block) unforced w with
                  | (Ok _, w) =>
                      match LoadBlockState (FromBlock block) (store w) with
                      | Ok state =>
                          if is_empty (st_Digest state) then
                            (Err (ErrStillNoDigest (FromBlock block)), visited, w)
                          else (parentReference e block (st_Digest state), visited, w)
                      | Err err =>
                          (Err (ErrReloadParentState (FromBlock block) err), visited, w)
                      | OutOfFuel => (OutOfFuel, visited, w)
                      end
                  | (Err err, w) =>
                      (Err (ErrExecuteParent (FromBlock block) err), visited, w)
                  | (OutOfFuel, w) => (OutOfFuel, visited, w)
                  end
              | (Err err, visited, w) =>
                  (Err (ErrResolveDeps (FromBlock block) err), visited, w)
              | (OutOfFuel, visited, w) => (OutOfFuel, visited, w)
              end
          end
        else (parentReference e block (st_Digest state), visited, w)
    | Err err => (Err err, visited, w)
    | OutOfFuel => (OutOfFuel, visited, w)
    end.

End EngineNotions.


(** Inputs of the examples for cycles met at run time. *)
Definition pinnedCycleProject : Project :=
  {| Version := "1.0"; Name := "test";
     Blocks := [ childBlock "a" "b" "sha256:v1" ["RUN echo a"%string];
                 childBlock "b" "a" EmptyString ["RUN echo b"%string] ] |}.

Definition builtState (id digest : string) : BlockState :=
  {| st_ID := id; st_Status := StatusSuccess; st_Digest := digest;
     st_Hash := EmptyString; st_Timestamp := 1690000000; st_ExitCode := 0;
     st_Duration := 1; st_Error := EmptyString |}.

(** A world in which block [id] was built before, with digest [digest]. *)
Definition builtWorld (id digest : string) (script : list (string + string))
  : @World Scripted :=
  on_store (SaveBlockState id (builtState id digest)) (freshWorld script).

Definition engineOf (p : Project) : Engine := {| project := p; contextPath := "/work" |}.


(** Inputs of the examples for version pinning: [base] was built twice,
    its state holds the digest of the second build, and [app] is pinned to
    the first. *)
Definition pinnedApp : Block :=
  childBlock "app" "base" "sha256:first" ["RUN echo bye"%string].

Definition pinnedProject : Project :=
  {| Version := "1.0"; Name := "demo";
     Blocks := [ imageBlock "base" "alpine:latest" ["RUN echo hi"%string]; pinnedApp ] |}.

Definition baseRecord (tag digest : string) (time : Z) : ImageRecord :=
  {| rec_Tag := tag; rec_Digest := digest; rec_Timestamp := time;
     rec_Dockerfile := EmptyString |}.

Definition rebuiltWorld : @World Scripted :=
  on_store (set_history (fun m =>
              <["base" := [ Content (baseRecord "dockstep-base-1" "sha256:first" 1);
                            Content (baseRecord "dockstep-base-2" "sha256:second" 2) ]]>
                m))
           (builtWorld "base" "sha256:second" []).


(** The blocks of [demoProject]. *)
Definition demoBase : Block := imageBlock "base" "alpine:latest" ["RUN echo hi"%string].
Definition demoApp : Block := childBlock "app" "base" EmptyString ["RUN echo bye"%string].


(** The demo project after a first, successful build of [base]; the
    script of the runtime is then exhausted, so a further build fails. *)
Definition builtOnce : @World Scripted :=
  (RunBlock 5 demoEngine "base" unforced (freshWorld [inl "sha256:b1"%string])).2.

Definition forced : RunOptions := {| Force := true; KeepContainer := false |}.


(** The state [RunBlock] saves on a cache hit. *)
Definition cachedState (blockID hash digest : string) (time : Z) : BlockState :=
  {| st_ID := blockID; st_Status := StatusCached; st_Digest := digest;
     st_Hash := hash; st_Timestamp := time; st_ExitCode := 0; st_Duration := 0;
     st_Error := EmptyString |}.


(** The resolution of [base] in the two worlds of the examples. *)
Definition hitResolved : outcome (string * string) * gset string * @World Scripted :=
  resolveParentWithVisited 4 demoEngine demoBase ∅ builtOnce.

Definition missResolved : outcome (string * string) * gset string * @World Scripted :=
  resolveParentWithVisited 4 demoEngine demoBase ∅ (freshWorld []).


(** ** Further operations of the store (store/store.go) *)

Definition SaveLogs (id : string) (l : string) (s : Store) : Store :=
  set_logs (fun m => <[id := l]> m) s.

Definition LoadSuccessfulLogs (id : string) (s : Store) : outcome string :=
  match successLogs s !! id with
  | Some l => Ok l
  | None => Err (ErrNotExist (".dockstep/logs/" +:+ id +:+ ".success.log"))
  end.

Definition LoadImageDigest (id : string) (s : Store) : outcome string :=
  match images s !! id with
  | Some digest => Ok digest
  | None => Err (ErrNotExist (".dockstep/images/" +:+ id +:+ ".digest"))
  end.

(** [SaveDockerfileSnapshot] with its result: [None] is the error it
    returns for an empty digest, without writing. *)
Definition saveSnapshot (digest content : string) (s : Store) : option Store :=
  if is_empty digest then None
  else Some (set_dockerfiles (fun m => <[digest := content]> m) s).

(** [LoadDockerfileSnapshot]: [None] is an error, for an empty digest or a
    snapshot that does not exist. *)
Definition LoadDockerfileSnapshot (digest : string) (s : Store) : option string :=
  if is_empty digest then None else dockerfiles s !! digest.

(** [Cleanup] removes the state, the log and the image digest of the block
    and of each descendant; errors of [os.Remove] are ignored. *)
Definition removeBlockFiles (s : Store) (id : string) : Store :=
  set_images (fun m => delete id m)
    (set_logs (fun m => delete id m) (set_states (fun m => delete id m) s)).

Definition Cleanup (blockID : string) (descendants : list string) (s : Store) : Store :=
  let allBlocks := [blockID] ++ descendants in
  fold_left removeBlockFiles allBlocks s.

(** [GetBlockStates] loads every state file of the directory listing
    [names] (the ids of the [.json] files), and fails on the first one it
    cannot load, naming it. *)
Fixpoint loadStates (names : list string) (s : Store) (states : gmap string BlockState)
  : (string * error) + gmap string BlockState :=
  match names with
  | [] => inr states
  | id :: rest =>
      match LoadBlockState id s with
      | Ok state => loadStates rest s (<[id := state]> states)
      | Err err => inl (id, err)
      | OutOfFuel => inl (id, ErrDecode (statePath id))
      end
  end.

Definition GetBlockStates (names : list string) (s : Store)
  : (string * error) + gmap string BlockState :=
  loadStates names s ∅.

(** The listings [os.ReadDir] can give for the state directory: the ids
    of the state files, each once. *)
Definition state_listing (s : Store) (names : list string) : Prop :=
  NoDup names /\ forall id, id ∈ names <-> is_Some (states s !! id).


(** Inputs of the examples for the store. *)
Definition sampleState : BlockState := builtState "test-block" "sha256:abc123".

Definition storeWithLogs : Store :=
  SaveSuccessfulLogs "base" "ok"
    (SaveImageHistory "base" (baseRecord "dockstep-base-1" "sha256:first" 1)
       (SaveImageDigest "base" "sha256:first"
          (SaveLogs "base" "hello" (SaveBlockState "base" sampleState emptyStore)))).


(** ** RunUp (engine/engine.go) *)

Record UpOptions := { up_Force : bool; up_FromBlock : string; ContinueOnError : bool }.

(** What [RunUp] returns: [nil], the error "block ... failed" wrapping the
    error of a [RunBlock], or exhaustion of the fuel. *)
Inductive up_result :=
  | UpDone
  | UpBlockFailed (id : string) (err : error)
  | UpOutOfFuel.

Section RunUp.
Context {R : Type} `{!Runtime R}.

(** The index the loop starts from: that of the first block called
    [FromBlock], or 0 when no start block is given or none has that id. *)
Definition startIndex (e : Engine) (opts : UpOptions) : nat :=
  if negb (is_empty (up_FromBlock opts)) then
    match list_find (fun block => ID block = up_FromBlock opts) (Blocks (project e)) with
    | Some (i, _) => i
    | None => O
    end
  else O.

(** The loop over the blocks from the start index on. *)
Fixpoint runBlocks (fuel : nat) (e : Engine) (opts : UpOptions) (blocks : list Block)
    (w : @World R) : up_result * @World R :=
  match blocks with
  | [] => (UpDone, w)
  | block :: rest =>
      let runOpts := {| Force := up_Force opts; KeepContainer := false |} in
      match RunBlock fuel e (ID block) runOpts w with
      | (Ok _, w) => runBlocks fuel e opts rest w
      | (Err err, w) =>
          if negb (ContinueOnError opts) then (UpBlockFailed (ID block) err, w)
          else runBlocks fuel e opts rest w
      | (OutOfFuel, w) => (UpOutOfFuel, w)
      end
  end.

Definition RunUp (fuel : nat) (e : Engine) (opts : UpOptions) (w : @World R)
  : up_result * @World R :=
  runBlocks fuel e opts (drop (startIndex e opts) (Blocks (project e))) w.

End RunUp.

(** Inputs of the examples for [RunUp]. *)
Definition upAll (continue : bool) : UpOptions :=
  {| up_Force := false; up_FromBlock := EmptyString; ContinueOnError := continue |}.

Definition upFrom (fromBlock : string) : UpOptions :=
  {| up_Force := false; up_FromBlock := fromBlock; ContinueOnError := false |}.

(** The resolution of [base] before its first build, and a project in
    which [app] is pinned and can be built without [base]. *)
Definition firstResolved : outcome (string * string) * gset string * @World Scripted :=
  resolveParentWithVisited 4 demoEngine demoBase ∅ (freshWorld [inl "sha256:b1"%string]).

Definition pinnedBuilt : @World Scripted :=
  (RunBlock 5 (engineOf pinnedProject) "app" unforced
     (freshWorld [inl "sha256:app1"%string])).2.



(** The states the examples expect after a first successful build. *)
Definition baseBuiltState : BlockState :=
  {| st_ID := "base"; st_Status := StatusSuccess; st_Digest := "sha256:b1";
     st_Hash := ComputeBlockHash demoBase "sha256:alpine:latest";
     st_Timestamp := 1700000000; st_ExitCode := 0; st_Duration := 1;
     st_Error := EmptyString |}.

Definition pinnedAppState : BlockState :=
  {| st_ID := "app"; st_Status := StatusSuccess; st_Digest := "sha256:app1";
     st_Hash := ComputeBlockHash pinnedApp "sha256:first";
     st_Timestamp := 1700000000; st_ExitCode := 0; st_Duration := 1;
     st_Error := EmptyString |}.



(** ** Docker image tags *)

(** The block ids on which [sanitizeForDockerTag] is modelled: ASCII
    only, where [strings.ToLower] and the regular expressions of the source
    work byte by byte. *)
Definition ascii_only (s : string) : Prop :=
  Forall (fun c => (nat_of_ascii c < 128)%nat) (String.list_ascii_of_string s).

Fixpoint no_double_hyphen (l : list ascii) : bool :=
  match l with
  | c :: (d :: _) as rest =>
      negb (Ascii.eqb c "-"%char && Ascii.eqb d "-"%char) && no_double_hyphen rest
  | _ => true
  end.

(** What the comments of [sanitizeForDockerTag] ask of a tag: characters
    of [a-z0-9._-] only, a letter or digit first; and what its steps
    establish besides: no two hyphens in a row, no hyphen at the end. *)
Definition valid_tag (s : string) : Prop :=
  let l := String.list_ascii_of_string s in
  (exists c rest, l = c :: rest /\ alnum_char c = true)
  /\ Forall (fun c => tag_char c = true) l
  /\ no_double_hyphen l = true
  /\ last l <> Some "-"%char.



(** Trimming the hyphens at the end. *)
Definition trim_end (l : list ascii) : list ascii := rev (drop_hyphens (rev l)).

(** The characters left after replacing, collapsing and trimming. *)
Definition tag_body (blockID : string) : list ascii :=
  trim_end (drop_hyphens (collapse_hyphens
    (map (fun c => if tag_char (lower c) then lower c else "-"%char)
         (String.list_ascii_of_string blockID)))).


(** ** The parent map as a graph *)

(** The edges of the map [checkCircularDependencies] builds: [a] has the
    parent [p]. *)
Definition depends_on (deps : gmap string string) (a p : string) : Prop :=
  deps !! a = Some p.

(** Some id is reached from itself along the edges. *)
Definition circular (deps : gmap string string) : Prop :=
  exists id, tc (depends_on deps) id id.

(** Following the parents from [id] leads into a cycle. *)
Definition reaches_cycle (deps : gmap string string) (id : string) : Prop :=
  exists c, rtc (depends_on deps) id c /\ tc (depends_on deps) c c.



(** The characters [fmt.Sprintf("%x", ...)] prints. *)
Definition hex_chars : list ascii := String.list_ascii_of_string "0123456789abcdef".



(** ** Image export (export/image.go) *)

Record ImageExportOptions := { exp_Tag : string; exp_Push : bool }.

(** The operations of the Docker client that [TagImage] uses, on an
    abstract state as for [Runtime]; an error is the message reported. *)
Class Registry (G : Type) := {
  rt_ImageTag : string -> string -> G -> option string * G;
  rt_ImagePush : string -> G -> option string * G
}.

Inductive ExportCall :=
  | CallTag (source target : string)
  | CallPush (ref : string).

Inductive export_error :=
  | ErrLoadImageDigest (blockID : string) (err : error)
  | ErrNoImageDigest (blockID : string)
  | ErrTagImage (msg : string)
  | ErrPushImage (msg : string).

Section ImageExport.
Context {G : Type} `{!Registry G}.

(** [TagImage]; the operations invoked are returned with the result,
    oldest first. *)
Definition TagImage (s : Store) (blockID : string) (opts : ImageExportOptions) (g : G)
  : option export_error * G * list ExportCall :=
  match LoadImageDigest blockID s with
  | Ok digest =>
      if is_empty digest then (Some (ErrNoImageDigest blockID), g, [])
      else
        match rt_ImageTag digest (exp_Tag opts) g with
        | (Some msg, g) => (Some (ErrTagImage msg), g, [CallTag digest (exp_Tag opts)])
        | (None, g) =>
            if exp_Push opts then
              match rt_ImagePush (exp_Tag opts) g with
              | (Some msg, g) =>
                  (Some (ErrPushImage msg), g,
                   [CallTag digest (exp_Tag opts); CallPush (exp_Tag opts)])
              | (None, g) =>
                  (None, g, [CallTag digest (exp_Tag opts); CallPush (exp_Tag opts)])
              end
            else (None, g, [CallTag digest (exp_Tag opts)])
        end
  | Err err => (Some (ErrLoadImageDigest blockID err), g, [])
  | OutOfFuel =>
      (Some (ErrLoadImageDigest blockID
               (ErrNotExist (".dockstep/images/" +:+ blockID +:+ ".digest"))), g, [])
  end.

End ImageExport.

(** A registry that accepts every tag and every push, and records them. *)
Record Hub := { tagged : list (string * string); pushed : list string }.

#[export] Instance Hub_Registry : Registry Hub := {
  rt_ImageTag source target g :=
    (None, {| tagged := tagged g ++ [(source, target)]; pushed := pushed g |});
  rt_ImagePush ref g :=
    (None, {| tagged := tagged g; pushed := pushed g ++ [ref] |})
}.

Definition emptyHub : Hub := {| tagged := []; pushed := [] |}.

Definition releaseOptions : ImageExportOptions :=
  {| exp_Tag := "registry.example/base:1.0"; exp_Push := true |}.







(** A block built on a block that the project does not have. *)
Definition orphanBlock : Block := childBlock "app" "ghost" EmptyString ["RUN make"%string].

Definition orphanProject : Project :=
  {| Version := "1.0"; Name := "demo"; Blocks := [orphanBlock] |}.



(** ** Damaged history files *)

(** Every record of the file decodes. *)
Definition intact (lines : list (file ImageRecord)) : Prop :=
  Forall (fun line => line <> Corrupt) lines.

(** A store whose history of [base] holds a record that does not decode,
    after a first one that does. *)
Definition damagedStore : Store :=
  set_history (fun m =>
     <["base" := [Content (baseRecord "dockstep-base-1" "sha256:first" 1); Corrupt]]> m)
    emptyStore.



(** ** A longer scenario on the demo project *)

(** [base] and [app] are built, then [base] is rebuilt by force and gets
    a new digest; after that the script of the runtime is exhausted, so
    the next build fails. *)
Definition bothBuilt : @World Scripted :=
  (RunBlock 5 demoEngine "app" unforced
     (RunBlock 5 demoEngine "base" unforced
        (freshWorld [inl "sha256:b1"; inl "sha256:a1"; inl "sha256:b2"]%string)).2).2.


(** The resolutions of the parents in these worlds. *)
Definition rebuildResolved : outcome (string * string) * gset string * @World Scripted :=
  resolveParentWithVisited 4 demoEngine demoBase ∅ bothBuilt.


(** The state of [base] after the forced rebuild. *)
Definition baseRebuiltState : BlockState :=
  {| st_ID := "base"; st_Status := StatusSuccess; st_Digest := "sha256:b2";
     st_Hash := ComputeBlockHash demoBase "sha256:alpine:latest";
     st_Timestamp := 1700000002; st_ExitCode := 0; st_Duration := 1;
     st_Error := EmptyString |}.

(** A first run of [app] on a runtime that builds [base] and then fails
    to build [app]. *)
Definition parentThenFailure : @World Scripted :=
  freshWorld [inl "sha256:b1"; inr "boom"]%string.



(* ================================================================== *)
(** * Theorems *)

Example sha256_empty :
  hex (SHA256.sum256 (bytes_of_string EmptyString))
  = "e3b0c44298fc1c149afbf4c8996fb92427ae41e4649b934ca495991b7852b855"%string.
Proof. vm_compute. reflexivity. Qed.

Example sha256_abc :
  hex (SHA256.sum256 (bytes_of_string "abc"))
  = "ba7816bf8f01cfea414140de5dae2223b00361a396177a9cb410ff61f20015ad"%string.
Proof. vm_compute. reflexivity. Qed.

Example sha256_two_blocks :
  hex (SHA256.sum256 (bytes_of_string
    "aaaaaaaaaaaaaaaaaaaaaaaaaaaaaaaaaaaaaaaaaaaaaaaaaaaaaaaaaaaaaaaaaaaaaa"))
  = "6bd5e5034855a11241f0dee8fc72850ffd9955b28347a86428b5fa19119f6ad0"%string.
Proof. vm_compute. reflexivity. Qed.

(** ** The cache hash *)

Section Hashing.

Lemma bytes_of_string_inj s1 s2 :
  bytes_of_string s1 = bytes_of_string s2 -> s1 = s2.
Proof.
  unfold bytes_of_string. intros Heq.
  rewrite <- (String.string_of_list_ascii_of_string s1),
          <- (String.string_of_list_ascii_of_string s2).
  f_equal. revert Heq.
  generalize (String.list_ascii_of_string s1) (String.list_ascii_of_string s2).
  induction l as [|a l IH]; intros [|b l'] Heq; simpl in *;
    try discriminate; auto.
  injection Heq as Hab Hl. f_equal; auto.
  apply N2Z.inj in Hab.
  rewrite <- (ascii_N_embedding a), <- (ascii_N_embedding b). congruence.
Qed.

Lemma fold_hash_Write l h :
  fold_left hash_Write l h = h ++ concat (map bytes_of_string l).
Proof.
  revert h. induction l as [|s l IH]; intros h; simpl.
  - by rewrite app_nil_r.
  - rewrite IH. unfold hash_Write. by rewrite <- app_assoc.
Qed.

(** The hashed bytes are the plain concatenation of the inputs. *)
Lemma hash_input_concat block D :
  hash_input block D
  = bytes_of_string D ++ bytes_of_string (ID block) ++ bytes_of_string (From block)
    ++ bytes_of_string (FromBlock block) ++ bytes_of_string (Context block)
    ++ concat (map bytes_of_string (Instructions block)).
Proof.
  unfold hash_input, sha256_New. rewrite fold_hash_Write. unfold hash_Write.
  simpl. by rewrite <- !app_assoc.
Qed.

Lemma hex_digit_inj a b :
  0 <= a < 16 -> 0 <= b < 16 -> hex_digit a = hex_digit b -> a = b.
Proof.
  intros Ha Hb.
  assert (Hcases : forall d, 0 <= d < 16 ->
            d = 0 \/ d = 1 \/ d = 2 \/ d = 3 \/ d = 4 \/ d = 5 \/ d = 6 \/ d = 7 \/
            d = 8 \/ d = 9 \/ d = 10 \/ d = 11 \/ d = 12 \/ d = 13 \/ d = 14 \/ d = 15)
    by (intros; lia).
  destruct (Hcases a Ha) as [->|[->|[->|[->|[->|[->|[->|[->|[->|[->|[->|[->|[->|[->|[->| ->]]]]]]]]]]]]]]];
  destruct (Hcases b Hb) as [->|[->|[->|[->|[->|[->|[->|[->|[->|[->|[->|[->|[->|[->|[->| ->]]]]]]]]]]]]]]];
  vm_compute; intros Heq; first [reflexivity | discriminate Heq].
Qed.

Lemma byte_nibbles b : 0 <= b < 256 ->
  0 <= Z.shiftr b 4 < 16 /\ 0 <= Z.land b 15 < 16
  /\ b = 16 * Z.shiftr b 4 + Z.land b 15.
Proof.
  intros Hb. rewrite Z.shiftr_div_pow2 by lia.
  change 15 with (Z.ones 4). rewrite Z.land_ones by lia.
  change (2 ^ 4) with 16.
  pose proof (Z.div_mod b 16 ltac:(lia)).
  pose proof (Z.mod_pos_bound b 16 ltac:(lia)).
  assert (0 <= b / 16 < 16).
  { split; [apply Z.div_pos; lia | apply Z.div_lt_upper_bound; lia]. }
  lia.
Qed.

Definition is_bytes (l : list Z) : Prop := Forall (fun b => 0 <= b < 256) l.

Lemma hex_inj l1 l2 : is_bytes l1 -> is_bytes l2 -> hex l1 = hex l2 -> l1 = l2.
Proof.
  intros H1. revert l2.
  induction H1 as [|a l1 Ha H1 IH]; intros l2 H2 Heq;
    destruct H2 as [|b l2 Hb H2]; simpl in Heq; try discriminate; auto.
  injection Heq as Hhi Hlo Hrest.
  destruct (byte_nibbles a Ha) as (? & ? & Hsplit_a).
  destruct (byte_nibbles b Hb) as (? & ? & Hsplit_b).
  apply hex_digit_inj in Hhi; [|done..].
  apply hex_digit_inj in Hlo; [|done..].
  f_equal; [lia | by apply IH].
Qed.

Lemma word_bytes_is_bytes w : is_bytes (SHA256.word_bytes w).
Proof.
  assert (Hland : forall x, 0 <= Z.land x 255 < 256).
  { intros x. change 255 with (Z.ones 8). rewrite Z.land_ones by lia.
    apply Z.mod_pos_bound. lia. }
  unfold SHA256.word_bytes, is_bytes. repeat constructor; apply Hland.
Qed.

Lemma sum256_is_bytes msg : is_bytes (SHA256.sum256 msg).
Proof.
  unfold SHA256.sum256, is_bytes.
  generalize (fold_left SHA256.compress
    (SHA256.blocks (length (SHA256.words (SHA256.pad msg)))
       (SHA256.words (SHA256.pad msg))) SHA256.H0).
  induction l as [|w l IH]; [constructor|].
  change (concat (map SHA256.word_bytes (w :: l)))
    with (SHA256.word_bytes w ++ concat (map SHA256.word_bytes l)).
  apply Forall_app. split; [apply word_bytes_is_bytes | exact IH].
Qed.

End Hashing.

(** Two blocks that differ in exactly one hashed component. *)
Inductive single_change (b1 b2 : Block) : Prop :=
  | change_from :
      From b1 <> From b2 -> ID b1 = ID b2 -> FromBlock b1 = FromBlock b2 ->
      Context b1 = Context b2 -> Instructions b1 = Instructions b2 ->
      single_change b1 b2
  | change_from_block :
      FromBlock b1 <> FromBlock b2 -> ID b1 = ID b2 -> From b1 = From b2 ->
      Context b1 = Context b2 -> Instructions b1 = Instructions b2 ->
      single_change b1 b2
  | change_context :
      Context b1 <> Context b2 -> ID b1 = ID b2 -> From b1 = From b2 ->
      FromBlock b1 = FromBlock b2 -> Instructions b1 = Instructions b2 ->
      single_change b1 b2
  | change_instruction pre i1 i2 post :
      i1 <> i2 -> Instructions b1 = pre ++ i1 :: post ->
      Instructions b2 = pre ++ i2 :: post ->
      ID b1 = ID b2 -> From b1 = From b2 -> FromBlock b1 = FromBlock b2 ->
      Context b1 = Context b2 ->
      single_change b1 b2.

Lemma single_change_hash_input b1 b2 D :
  single_change b1 b2 -> hash_input b1 D <> hash_input b2 D.
Proof.
  intros Hchange Heq. rewrite !hash_input_concat in Heq.
  destruct Hchange as [Hne Hid Hfb Hctx Hins | Hne Hid Hfrom Hctx Hins
                      | Hne Hid Hfrom Hfb Hins
                      | pre i1 i2 post Hne Hi1 Hi2 Hid Hfrom Hfb Hctx].
  - rewrite Hid, Hfb, Hctx, Hins in Heq.
    do 2 apply app_inv_head in Heq. apply app_inv_tail in Heq.
    by apply bytes_of_string_inj in Heq.
  - rewrite Hid, Hfrom, Hctx, Hins in Heq.
    do 3 apply app_inv_head in Heq. apply app_inv_tail in Heq.
    by apply bytes_of_string_inj in Heq.
  - rewrite Hid, Hfrom, Hfb, Hins in Heq.
    do 4 apply app_inv_head in Heq. apply app_inv_tail in Heq.
    by apply bytes_of_string_inj in Heq.
  - rewrite Hid, Hfrom, Hfb, Hctx, Hi1, Hi2 in Heq.
    do 5 apply app_inv_head in Heq.
    rewrite !map_app, !concat_app in Heq. simpl in Heq.
    apply app_inv_head in Heq. apply app_inv_tail in Heq.
    by apply bytes_of_string_inj in Heq.
Qed.

(** C1.  [ComputeBlockHash] writes its inputs to the hash one after the
    other, without separators or lengths, so two blocks that differ in
    their declared parent only (the image [base] against the parent block
    [base]; same id, context path and instructions, same parent digest)
    feed the same bytes to SHA-256 and get the same cache hash: where the
    claim, and the test of the function ("Hash should be different for
    different inputs"), ask for different hashes, the code returns equal
    ones. *)
Lemma ComputeBlockHash_collides :
  (ID onImageBase = ID onBlockBase
   /\ Context onImageBase = Context onBlockBase
   /\ Instructions onImageBase = Instructions onBlockBase)
  /\ From onImageBase <> From onBlockBase
  /\ FromBlock onImageBase <> FromBlock onBlockBase
  /\ hash_input onImageBase "sha256:p" = hash_input onBlockBase "sha256:p"
  /\ ComputeBlockHash onImageBase "sha256:p" = ComputeBlockHash onBlockBase "sha256:p".
Proof.
  assert (Hparent : hash_input onImageBase "sha256:p" = hash_input onBlockBase "sha256:p")
    by (vm_compute; reflexivity).
  unfold ComputeBlockHash. rewrite Hparent.
  split; [by repeat split|]. repeat split; discriminate.
Qed.

(** The same happens to instruction lists that hold the same text cut at
    different places (here both instructions differ). *)
Example ComputeBlockHash_cut_collides :
  Instructions cutEarly <> Instructions cutLate
  /\ ComputeBlockHash cutEarly "sha256:p" = ComputeBlockHash cutLate "sha256:p".
Proof.
  assert (Hcut : hash_input cutEarly "sha256:p" = hash_input cutLate "sha256:p")
    by (vm_compute; reflexivity).
  unfold ComputeBlockHash. rewrite Hcut. split; [discriminate | reflexivity].
Qed.

(** Where the missing separators do no harm: the hash is a function of
    the parent digest, the id, [from], [from_block], the context path and
    the instructions, and replacing the value of exactly one of [from],
    [from_block], the context path or one instruction changes the bytes
    hashed. *)
Lemma ComputeBlockHash_inputs (b1 b2 : Block) (D : string) :
  (ID b1 = ID b2 -> From b1 = From b2 -> FromBlock b1 = FromBlock b2 ->
   Context b1 = Context b2 -> Instructions b1 = Instructions b2 ->
   ComputeBlockHash b1 D = ComputeBlockHash b2 D)
  /\ (single_change b1 b2 ->
      hash_input b1 D <> hash_input b2 D
      /\ (ComputeBlockHash b1 D = ComputeBlockHash b2 D ->
          SHA256.sum256 (hash_input b1 D) = SHA256.sum256 (hash_input b2 D))).
Proof.
  split.
  - intros Hid Hfrom Hfb Hctx Hins. unfold ComputeBlockHash.
    rewrite !hash_input_concat. by rewrite Hid, Hfrom, Hfb, Hctx, Hins.
  - intros Hchange. split; [by apply single_change_hash_input|].
    unfold ComputeBlockHash, hash_Sum. intros Heq.
    apply hex_inj in Heq; [done | apply sum256_is_bytes..].
Qed.

(** One instruction replaced by another, as in the test of the function:
    the bytes hashed differ. *)
Example ComputeBlockHash_replaced_instruction :
  single_change echoHi echoBye
  /\ hash_input echoHi "sha256:p" <> hash_input echoBye "sha256:p".
Proof.
  assert (Hchange : single_change echoHi echoBye).
  { apply (change_instruction echoHi echoBye ["RUN apk add make"%string]
             "RUN echo hi"%string "RUN echo bye"%string []);
      first [reflexivity | discriminate]. }
  split; [exact Hchange|].
  exact (proj1 (proj2 (ComputeBlockHash_inputs echoHi echoBye "sha256:p") Hchange)).
Qed.

(** ** The cache index *)

Lemma loadCache_saved entries : loadCache (FileIndex entries) = Ok entries.
Proof. reflexivity. Qed.

Lemma GetCachedDigest_index entries hash :
  GetCachedDigest (FileIndex entries) hash
  = match entries !! hash with
    | Some entry => (ce_Digest entry, true)
    | None => (EmptyString, false)
    end.
Proof. reflexivity. Qed.

(** Reading an index that cannot be loaded as the empty index changes no
    lookup. *)
Lemma GetCachedDigest_entries f hash :
  GetCachedDigest f hash
  = GetCachedDigest
      (FileIndex match loadCache f with Ok entries => entries | _ => ∅ end) hash.
Proof. destruct f; reflexivity. Qed.

Lemma SetCachedDigest_get f hash digest :
  GetCachedDigest (SetCachedDigest f hash digest).2 hash = (digest, true).
Proof.
  unfold SetCachedDigest, saveCache. simpl.
  rewrite GetCachedDigest_index, lookup_insert_eq. reflexivity.
Qed.

Lemma SetCachedDigest_get_ne f hash digest hash' :
  hash' <> hash ->
  GetCachedDigest (SetCachedDigest f hash digest).2 hash' = GetCachedDigest f hash'.
Proof.
  intros Hne. rewrite (GetCachedDigest_entries f hash').
  unfold SetCachedDigest, saveCache. simpl.
  rewrite !GetCachedDigest_index, lookup_insert_ne by done. reflexivity.
Qed.

(** C9.  After [SetCachedDigest h d] (which reports no error),
    [GetCachedDigest h] returns [(d, true)], and the lookup of any other
    hash is what it was before: a set overwrites its own key only. *)
Theorem SetCachedDigest_last_writer_wins (f : CacheFile) (h d h' : string)
    (Hother : h' <> h) :
  let '(err, f') := SetCachedDigest f h d in
  err = None
  /\ GetCachedDigest f' h = (d, true)
  /\ GetCachedDigest f' h' = GetCachedDigest f h'.
Proof.
  destruct (SetCachedDigest f h d) as [err f'] eqn:Hset.
  pose proof (SetCachedDigest_get f h d) as Hget.
  pose proof (SetCachedDigest_get_ne f h d h' Hother) as Hne.
  rewrite Hset in Hget, Hne. simpl in Hget, Hne.
  split; [|by split].
  unfold SetCachedDigest, saveCache in Hset. by injection Hset as <- _.
Qed.

Lemma SetCachedDigest_last_writer_wins_witness :
  let f := (SetCachedDigest FileMissing "hash2" "digest2").2 in
  let f' := (SetCachedDigest f "hash1" "digest1").2 in
  "hash2"%string <> "hash1"%string
  /\ GetCachedDigest f' "hash1" = ("digest1"%string, true)
  /\ GetCachedDigest f' "hash2" = ("digest2"%string, true).
Proof.
  assert (Hne : "hash2"%string <> "hash1"%string) by discriminate.
  pose proof (SetCachedDigest_last_writer_wins
                (SetCachedDigest FileMissing "hash2" "digest2").2
                "hash1" "digest1" "hash2" Hne) as Hset.
  simpl in Hset. destruct Hset as (_ & Hown & Hother).
  split; [exact Hne|]. split; [exact Hown|].
  simpl. rewrite Hother. vm_compute. reflexivity.
Defined.

(** C10.  [ClearCache] on a store whose index file does not exist returns
    an error: on a cache that was never written, and on any cache when it
    is cleared a second time. *)
Theorem ClearCache_not_idempotent :
  (ClearCache FileMissing).1 = Some (ErrNotExist cachePath)
  /\ (ClearCache (cache emptyStore)).1 <> None
  /\ forall f : CacheFile, (ClearCache (ClearCache f).2).1 <> None.
Proof.
  split; [reflexivity|]. split; [discriminate|].
  intros f. destruct f; discriminate.
Qed.

(** ** Project validation *)

Section Validation.

Lemma is_empty_true s : is_empty s = true <-> s = EmptyString.
Proof. destruct s; simpl; split; congruence. Qed.

Lemma is_empty_false s : is_empty s = false <-> s <> EmptyString.
Proof. destruct s; simpl; split; congruence. Qed.

Lemma has_true (m : gset string) k : has m k = true <-> k ∈ m.
Proof. unfold has. apply bool_decide_eq_true. Qed.

Lemma has_false (m : gset string) k : has m k = false <-> k ∉ m.
Proof. unfold has. apply bool_decide_eq_false. Qed.

Lemma network_valid_spec n :
  existsb (String.eqb n) validNetworks = true <-> In n validNetworks.
Proof.
  rewrite existsb_exists. split.
  - intros (x & Hin & Heq). apply String.eqb_eq in Heq. by subst.
  - intros Hin. exists n. split; [done | apply String.eqb_refl].
Qed.

Lemma env_find_none envs :
  List.find (fun env => negb (contains_equals env)) envs = None
  <-> forall env, In env envs -> contains_equals env = true.
Proof.
  split.
  - intros Hnone env Hin.
    pose proof (find_none _ _ Hnone env Hin) as Hneg. simpl in Hneg.
    by destruct (contains_equals env).
  - intros Hall. induction envs as [|env envs IH]; simpl; [done|].
    rewrite (Hall env) by (by left). simpl. apply IH.
    intros env' Hin. apply Hall. by right.
Qed.

Lemma mounts_ok_spec mounts :
  existsb (fun mount => is_empty (Source mount) || is_empty (Target mount)) mounts = false
  <-> forall mount, In mount mounts ->
        Source mount <> EmptyString /\ Target mount <> EmptyString.
Proof.
  induction mounts as [|m mounts IH]; simpl.
  - split; [intros _ ? [] | done].
  - rewrite orb_false_iff, orb_false_iff, IH, !is_empty_false. split.
    + intros [[Hs Ht] Hrest] mount [<-|Hin]; [done | by apply Hrest].
    + intros Hall. split; [apply Hall; by left|].
      intros mount Hin. apply Hall. by right.
Qed.

(** What [validateBlock] accepts. *)
Lemma validateBlock_None block allBlockIDs :
  validateBlock block allBlockIDs = None
  <-> exactly_one_parent block
      /\ (FromBlock block <> EmptyString -> FromBlock block ∈ allBlockIDs)
      /\ runtime_fields_valid block.
Proof.
  unfold validateBlock, exactly_one_parent, runtime_fields_valid.
  rewrite <- network_valid_spec, <- env_find_none, <- mounts_ok_spec.
  destruct (is_empty (From block)) eqn:Hfrom;
    destruct (is_empty (FromBlock block)) eqn:Hfb;
    destruct (has allBlockIDs (FromBlock block)) eqn:Hin;
    destruct (is_empty (Network block)) eqn:Hnet;
    destruct (existsb (String.eqb (Network block)) validNetworks) eqn:Hvalid;
    destruct (List.find _ (Env block)) eqn:Henv;
    destruct (existsb _ (Mounts block)) eqn:Hmounts; simpl;
    repeat match goal with
    | H : is_empty _ = true |- _ => apply is_empty_true in H
    | H : is_empty _ = false |- _ => apply is_empty_false in H
    | H : has _ _ = true |- _ => apply has_true in H
    | H : has _ _ = false |- _ => apply has_false in H
    end;
    split; intros; intuition congruence.
Qed.

End Validation.

Section ValidationLoop.

Lemma ids_cons b blocks : ids (b :: blocks) = {[ID b]} ∪ ids blocks.
Proof. reflexivity. Qed.

Lemma elem_of_ids id blocks : id ∈ ids blocks <-> exists b, b ∈ blocks /\ ID b = id.
Proof.
  unfold ids. rewrite elem_of_list_to_set, list_elem_of_fmap. naive_solver.
Qed.

(** The loop of [Validate] passes exactly when each block has a fresh,
    non-empty id and is accepted by [validateBlock] against the ids seen
    up to and including its own. *)
Lemma validateBlocks_None blocks seen :
  validateBlocks blocks seen = None
  <-> forall i b, blocks !! i = Some b ->
        ID b <> EmptyString
        /\ (ID b ∉ seen ∪ ids (take i blocks))
        /\ validateBlock b ({[ID b]} ∪ ids (take i blocks) ∪ seen) = None.
Proof.
  revert seen. induction blocks as [|b0 rest IH]; intros seen; simpl.
  - split; [intros _ i b Hi; by rewrite lookup_nil in Hi | done].
  - destruct (is_empty (ID b0)) eqn:Hid.
    { split; [done|]. intros Hall. destruct (Hall O b0 eq_refl) as (Hne & _).
      apply is_empty_true in Hid. done. }
    apply is_empty_false in Hid.
    destruct (has seen (ID b0)) eqn:Hseen.
    { split; [done|]. intros Hall. destruct (Hall O b0 eq_refl) as (_ & Hfresh & _).
      apply has_true in Hseen. set_solver. }
    apply has_false in Hseen.
    destruct (validateBlock b0 ({[ID b0]} ∪ seen)) eqn:Hblock.
    { split; [done|]. intros Hall. destruct (Hall O b0 eq_refl) as (_ & _ & Hok).
      simpl in Hok. replace ({[ID b0]} ∪ ids [] ∪ seen) with ({[ID b0]} ∪ seen) in Hok
        by (unfold ids; set_solver).
      congruence. }
    rewrite IH. split.
    + intros Hall [|i] b Hi; simpl in Hi.
      * injection Hi as <-. simpl.
        replace ({[ID b0]} ∪ ids [] ∪ seen) with ({[ID b0]} ∪ seen)
          by (unfold ids; set_solver).
        repeat split; [done | unfold ids; set_solver | done].
      * destruct (Hall i b Hi) as (Hne & Hfresh & Hok). simpl.
        rewrite ids_cons.
        replace ({[ID b]} ∪ ({[ID b0]} ∪ ids (take i rest)) ∪ seen)
          with ({[ID b]} ∪ ids (take i rest) ∪ ({[ID b0]} ∪ seen)) by set_solver.
        repeat split; [done | set_solver | done].
    + intros Hall i b Hi.
      destruct (Hall (S i) b Hi) as (Hne & Hfresh & Hok). simpl in Hfresh, Hok.
      rewrite ids_cons in Hfresh, Hok.
      replace ({[ID b]} ∪ ({[ID b0]} ∪ ids (take i rest)) ∪ seen)
        with ({[ID b]} ∪ ids (take i rest) ∪ ({[ID b0]} ∪ seen)) in Hok by set_solver.
      repeat split; [done | set_solver | done].
Qed.

(** Ids that pass the loop are pairwise distinct. *)
Lemma validateBlocks_NoDup blocks seen :
  validateBlocks blocks seen = None -> NoDup (ID <$> blocks).
Proof.
  rewrite validateBlocks_None. intros Hall.
  apply NoDup_alt. intros i j id Hi Hj.
  rewrite list_lookup_fmap in Hi, Hj.
  destruct (blocks !! i) as [a|] eqn:Ha; [|done].
  destruct (blocks !! j) as [b|] eqn:Hb; [|done].
  simpl in Hi, Hj. injection Hi as Hi. injection Hj as Hj.
  assert (Hlt : forall i j a b, blocks !! i = Some a -> blocks !! j = Some b ->
                  ID a = ID b -> ~ (i < j)%nat).
  { intros i' j' a' b' Ha' Hb' Heq Hlt.
    destruct (Hall j' b' Hb') as (_ & Hfresh & _). apply Hfresh.
    apply elem_of_union_r, elem_of_ids. exists a'. split; [|done].
    apply list_elem_of_lookup. exists i'. rewrite lookup_take_lt; done. }
  destruct (Nat.lt_trichotomy i j) as [Hij|[Hij|Hij]]; [|done|].
  - exfalso. eapply (Hlt i j); eauto. congruence.
  - exfalso. eapply (Hlt j i); eauto. congruence.
Qed.

End ValidationLoop.

(** ** The dependency map and the cycle check *)

Section CycleCheck.

Lemma fold_deps_fresh blocks (deps : gmap string string) id :
  id ∉ ids blocks ->
  fold_left (fun deps block =>
               if is_empty (FromBlock block) then deps
               else <[ID block := FromBlock block]> deps) blocks deps !! id
  = deps !! id.
Proof.
  revert deps. induction blocks as [|b rest IH]; intros deps Hfresh; simpl; [done|].
  rewrite ids_cons in Hfresh. rewrite IH by set_solver.
  destruct (is_empty (FromBlock b)); [done|].
  apply lookup_insert_ne. set_solver.
Qed.

Lemma fold_deps_lookup blocks (deps : gmap string string) id parent :
  fold_left (fun deps block =>
               if is_empty (FromBlock block) then deps
               else <[ID block := FromBlock block]> deps) blocks deps !! id
  = Some parent ->
  deps !! id = Some parent
  \/ exists b, b ∈ blocks /\ ID b = id /\ FromBlock b = parent
               /\ parent <> EmptyString.
Proof.
  revert deps. induction blocks as [|b rest IH]; intros deps Hlook; simpl in Hlook;
    [by left|].
  apply IH in Hlook as [Hlook | (b' & Hin & ? & ? & ?)].
  - destruct (is_empty (FromBlock b)) eqn:Hfb; [by left|].
    apply is_empty_false in Hfb.
    destruct (decide (ID b = id)) as [<-|Hne].
    + rewrite lookup_insert_eq in Hlook. injection Hlook as <-.
      right. exists b. repeat split; [left | done].
    + rewrite lookup_insert_ne in Hlook by done. by left.
  - right. exists b'. repeat split; [by right | done..].
Qed.

(** An entry of [deps] comes from a block with a [from_block]. *)
Lemma buildDeps_Some blocks id parent :
  buildDeps blocks !! id = Some parent ->
  exists b, b ∈ blocks /\ ID b = id /\ FromBlock b = parent /\ parent <> EmptyString.
Proof.
  intros Hlook. apply fold_deps_lookup in Hlook as [Hlook|Hlook]; [|done].
  by rewrite lookup_empty in Hlook.
Qed.

(** With distinct ids, every block with a [from_block] has its entry. *)
Lemma buildDeps_lookup blocks b :
  NoDup (ID <$> blocks) -> b ∈ blocks -> FromBlock b <> EmptyString ->
  buildDeps blocks !! ID b = Some (FromBlock b).
Proof.
  unfold buildDeps. generalize (∅ : gmap string string).
  induction blocks as [|b0 rest IH]; intros deps Hnodup Hin Hfb.
  - by apply elem_of_nil in Hin.
  - rewrite fmap_cons in Hnodup. apply NoDup_cons in Hnodup as [Hfresh Hnodup].
    simpl. apply elem_of_cons in Hin as [->|Hin].
    + rewrite fold_deps_fresh.
      * apply is_empty_false in Hfb. rewrite Hfb. apply lookup_insert_eq.
      * intros Hdup. apply Hfresh. unfold ids in Hdup.
        by apply elem_of_list_to_set in Hdup.
    + by apply IH.
Qed.

Lemma buildDeps_size blocks : (size (dom (buildDeps blocks)) <= length blocks)%nat.
Proof.
  unfold buildDeps.
  assert (Hgen : forall deps : gmap string string,
            (size (dom (fold_left (fun deps block =>
               if is_empty (FromBlock block) then deps
               else <[ID block := FromBlock block]> deps) blocks deps))
             <= size (dom deps) + length blocks)%nat).
  { induction blocks as [|b rest IH]; intros deps; simpl; [lia|].
    etrans; [apply IH|].
    destruct (is_empty (FromBlock b)); [lia|].
    rewrite dom_insert_L.
    pose proof (size_union_alt {[ID b]} (dom deps)) as Hunion.
    assert (size (dom deps ∖ {[ID b]}) <= size (dom deps))%nat
      by (apply subseteq_size; set_solver).
    rewrite size_singleton in Hunion. lia. }
  specialize (Hgen ∅). rewrite dom_empty_L, size_empty in Hgen. exact Hgen.
Qed.

End CycleCheck.

Section DepthFirst.

Variable deps : gmap string string.

(** Each nested call of [hasCycle] marks a key of [deps] that was not
    visited before, so the unvisited keys bound the depth. *)
Lemma hasCycle_fuel fuel blockID visited recStack :
  blockID ∉ visited ->
  (size (dom deps ∖ visited) < fuel)%nat ->
  is_Some (hasCycle fuel blockID deps visited recStack).
Proof.
  revert blockID visited recStack.
  induction fuel as [|fuel IH]; intros blockID visited recStack Hfresh Hsize; [lia|].
  simpl. destruct (deps !! blockID) as [parent|] eqn:Hparent; [|eauto].
  destruct (has ({[blockID]} ∪ visited) parent) eqn:Hvisited; simpl.
  { destruct (has ({[blockID]} ∪ recStack) parent); eauto. }
  apply has_false in Hvisited.
  destruct (IH parent ({[blockID]} ∪ visited) ({[blockID]} ∪ recStack) Hvisited)
    as [[[[] v] r] Hcall].
  - assert (Hsplit : dom deps ∖ visited
                     = {[blockID]} ∪ dom deps ∖ ({[blockID]} ∪ visited)).
    { apply set_eq. intros k. rewrite elem_of_union, !elem_of_difference,
        elem_of_union, elem_of_singleton.
      assert (blockID ∈ dom deps) by (apply elem_of_dom; eauto).
      destruct (decide (k = blockID)); naive_solver. }
    rewrite Hsplit, size_union, size_singleton in Hsize by set_solver. lia.
  - rewrite Hcall. eauto.
  - rewrite Hcall. eauto.
Qed.

(** A block that names itself is reported as soon as it is entered. *)
Lemma hasCycle_self fuel blockID visited recStack :
  deps !! blockID = Some blockID ->
  hasCycle (S fuel) blockID deps visited recStack
  = Some (true, {[blockID]} ∪ visited, {[blockID]} ∪ recStack).
Proof.
  intros Hself. simpl. rewrite Hself.
  assert (Hv : has ({[blockID]} ∪ visited) blockID = true)
    by (apply has_true; set_solver).
  assert (Hr : has ({[blockID]} ∪ recStack) blockID = true)
    by (apply has_true; set_solver).
  by rewrite Hv, Hr.
Qed.

(** ... and it is not marked by a call that reports no cycle. *)
Lemma hasCycle_skips_self fuel self blockID visited recStack visited' recStack' :
  deps !! self = Some self -> self ∉ visited ->
  hasCycle fuel blockID deps visited recStack = Some (false, visited', recStack') ->
  self ∉ visited'.
Proof.
  intros Hself. revert blockID visited recStack visited' recStack'.
  induction fuel as [|fuel IH]; intros blockID visited recStack visited' recStack'
    Hfresh Hcall; [done|].
  destruct (decide (blockID = self)) as [->|Hne].
  { rewrite hasCycle_self in Hcall by done. congruence. }
  simpl in Hcall.
  assert (Hfresh' : self ∉ {[blockID]} ∪ visited) by set_solver.
  destruct (deps !! blockID) as [parent|]; [|by injection Hcall as <- _].
  destruct (has ({[blockID]} ∪ visited) parent); simpl in Hcall.
  - destruct (has ({[blockID]} ∪ recStack) parent); [done|].
    by injection Hcall as <- _.
  - destruct (hasCycle fuel parent deps _ _) as [[[[] v] r]|] eqn:Hrec; try done.
    injection Hcall as <- _. eapply IH; eauto.
Qed.

(** With a rank that decreases along [deps], no cycle is reported and the
    recursion stack is left as it was found. *)
Lemma hasCycle_ranked (rank : string -> nat) fuel blockID visited recStack found
    visited' recStack' :
  (forall a p, deps !! a = Some p -> (rank p < rank a)%nat) ->
  (forall r, r ∈ recStack -> (rank blockID < rank r)%nat) ->
  hasCycle fuel blockID deps visited recStack = Some (found, visited', recStack') ->
  found = false /\ recStack' ⊆ recStack.
Proof.
  intros Hrank. revert blockID visited recStack found visited' recStack'.
  induction fuel as [|fuel IH]; intros blockID visited recStack found visited'
    recStack' Hstack Hcall; [done|].
  simpl in Hcall.
  destruct (deps !! blockID) as [parent|] eqn:Hparent;
    [|injection Hcall as <- _ <-; split; [done | set_solver]].
  pose proof (Hrank _ _ Hparent) as Hlt.
  assert (Hstack' : forall r, r ∈ {[blockID]} ∪ recStack -> (rank parent < rank r)%nat).
  { intros r [->%elem_of_singleton|Hr]%elem_of_union; [done|].
    specialize (Hstack r Hr). lia. }
  destruct (has ({[blockID]} ∪ visited) parent); simpl in Hcall.
  - destruct (has ({[blockID]} ∪ recStack) parent) eqn:Hon.
    + apply has_true in Hon. specialize (Hstack' parent Hon). lia.
    + injection Hcall as <- _ <-. split; [done | set_solver].
  - destruct (hasCycle fuel parent deps _ _) as [[[b v] r]|] eqn:Hrec; [|done].
    apply IH in Hrec as [-> Hsub]; [|done].
    injection Hcall as <- _ <-. split; [done | set_solver].
Qed.

Lemma checkKeys_fuel fuel keys visited recStack :
  (size (dom deps) < fuel)%nat ->
  checkKeys fuel keys deps visited recStack <> OutOfFuel.
Proof.
  intros Hsize. revert visited recStack.
  induction keys as [|k keys IH]; intros visited recStack; simpl; [done|].
  destruct (has visited k) eqn:Hk; simpl; [apply IH|].
  apply has_false in Hk.
  destruct (hasCycle_fuel fuel k visited recStack Hk) as [[[[] v] r] Hcall].
  - assert (size (dom deps ∖ visited) <= size (dom deps))%nat
      by (apply subseteq_size; set_solver).
    lia.
  - by rewrite Hcall.
  - rewrite Hcall. apply IH.
Qed.

Lemma checkKeys_errors fuel keys visited recStack err :
  checkKeys fuel keys deps visited recStack = Err err -> err = ErrCircularRefs.
Proof.
  revert visited recStack.
  induction keys as [|k keys IH]; intros visited recStack; simpl; [done|].
  destruct (has visited k); simpl; [apply IH|].
  destruct (hasCycle fuel k deps visited recStack) as [[[[] v] r]|]; [|apply IH|done].
  by intros [= <-].
Qed.

Lemma checkKeys_self fuel keys visited recStack self :
  deps !! self = Some self -> self ∈ keys -> self ∉ visited ->
  checkKeys fuel keys deps visited recStack <> Ok ().
Proof.
  intros Hself. revert visited recStack.
  induction keys as [|k keys IH]; intros visited recStack Hin Hfresh; simpl.
  { by apply elem_of_nil in Hin. }
  destruct (has visited k) eqn:Hk; simpl.
  - apply has_true in Hk. apply IH; [|done].
    apply elem_of_cons in Hin as [->|Hin]; done.
  - destruct (hasCycle fuel k deps visited recStack) as [[[[] v] r]|] eqn:Hcall;
      [done| |done].
    apply elem_of_cons in Hin as [->|Hin].
    + destruct fuel as [|fuel]; [done|].
      rewrite hasCycle_self in Hcall by done. congruence.
    + apply IH; [done|]. eapply hasCycle_skips_self; eauto.
Qed.

Lemma checkKeys_ranked (rank : string -> nat) fuel keys visited err :
  (forall a p, deps !! a = Some p -> (rank p < rank a)%nat) ->
  checkKeys fuel keys deps visited ∅ <> Err err.
Proof.
  intros Hrank. revert visited.
  induction keys as [|k keys IH]; intros visited; simpl; [done|].
  destruct (has visited k); simpl; [apply IH|].
  destruct (hasCycle fuel k deps visited ∅) as [[[found v] r]|] eqn:Hcall; [|done].
  eapply hasCycle_ranked in Hcall as [-> Hsub]; [|done|set_solver].
  assert (r = ∅) as -> by set_solver. apply IH.
Qed.

End DepthFirst.

Section ValidateProject.

Lemma Validate_terminates keys project : Validate keys project <> OutOfFuel.
Proof.
  unfold Validate, checkCircularDependencies.
  repeat case_match; try done.
  apply checkKeys_fuel. pose proof (buildDeps_size (Blocks project)). lia.
Qed.

Lemma index_of_lookup blocks i b :
  NoDup (ID <$> blocks) -> blocks !! i = Some b -> index_of (ID b) blocks = i.
Proof.
  revert i. induction blocks as [|b0 rest IH]; intros i Hnodup Hi; [done|].
  rewrite fmap_cons in Hnodup. apply NoDup_cons in Hnodup as [Hfresh Hnodup].
  destruct i as [|i]; simpl in *.
  - injection Hi as ->. by rewrite String.eqb_refl.
  - destruct (String.eqb (ID b0) (ID b)) eqn:Heq.
    + apply String.eqb_eq in Heq. exfalso. apply Hfresh. rewrite Heq.
      apply list_elem_of_fmap. exists b. split; [done|].
      apply list_elem_of_lookup. eauto.
    + f_equal. by apply IH.
Qed.

Lemma lookup_same_id blocks i j a b :
  NoDup (ID <$> blocks) -> blocks !! i = Some a -> blocks !! j = Some b ->
  ID a = ID b -> i = j /\ a = b.
Proof.
  intros Hnodup Hi Hj Heq.
  assert (i = j) as ->.
  { apply (NoDup_lookup (ID <$> blocks) i j (ID a)); [exact Hnodup | |];
      rewrite list_lookup_fmap; [rewrite Hi | rewrite Hj]; simpl; congruence. }
  split; [done | congruence].
Qed.

(** A project that passes the loop lists every parent block no later than
    the blocks built on it. *)
Lemma validateBlocks_parents_first project :
  validateBlocks (Blocks project) ∅ = None -> parents_first project.
Proof.
  intros Hloop i a Hi Hfb.
  destruct (proj1 (validateBlocks_None _ _) Hloop i a Hi) as (_ & _ & Hblock).
  apply validateBlock_None in Hblock as (_ & Href & _).
  specialize (Href Hfb).
  apply elem_of_union in Href as [Href|Href]; [|set_solver].
  apply elem_of_union in Href as [Href|Href].
  - apply elem_of_singleton in Href. exists i, a. split; [lia|]. split; done.
  - apply elem_of_ids in Href as (p & Hp & Hid).
    apply list_elem_of_lookup in Hp as [j Hj].
    apply lookup_take_Some in Hj as [Hj Hlt].
    exists j, p. split; [lia|]. split; done.
Qed.

(** Along a [from_block] edge of such a project the position does not
    increase. *)
Lemma edge_position project a b i j :
  NoDup (ID <$> Blocks project) -> parents_first project ->
  from_block_edge project a b ->
  Blocks project !! i = Some a -> Blocks project !! j = Some b -> (j <= i)%nat.
Proof.
  intros Hnodup Hfirst (_ & _ & Hfb & Hid) Hi Hj.
  destruct (Hfirst i a Hi Hfb) as (j' & p & Hle & Hj' & Hp).
  destruct (lookup_same_id _ j' j p b Hnodup Hj' Hj) as [-> _]; [congruence | done].
Qed.

Lemma path_position project a b :
  NoDup (ID <$> Blocks project) -> parents_first project ->
  tc (from_block_edge project) a b ->
  forall i j, Blocks project !! i = Some a -> Blocks project !! j = Some b ->
              (j <= i)%nat.
Proof.
  intros Hnodup Hfirst Hpath.
  induction Hpath as [a b Hedge | a c b Hedge Hpath IH]; intros i j Hi Hj.
  - eapply edge_position; eauto.
  - assert (Hc : c ∈ Blocks project) by apply Hedge.
    apply list_elem_of_lookup in Hc as [k Hk].
    pose proof (edge_position project a c i k Hnodup Hfirst Hedge Hi Hk).
    pose proof (IH k j Hk Hj). lia.
Qed.

(** So a cycle can only be a block that names itself. *)
Lemma cycle_is_self project :
  NoDup (ID <$> Blocks project) -> parents_first project -> cyclic project ->
  exists a, a ∈ Blocks project /\ FromBlock a = ID a /\ FromBlock a <> EmptyString.
Proof.
  intros Hnodup Hfirst [a Hcycle].
  assert (Hself : from_block_edge project a a).
  { inversion Hcycle as [? ? Hedge | ? c ? Hedge Hpath]; subst; [done|].
    assert (Ha : a ∈ Blocks project) by apply Hedge.
    assert (Hc : c ∈ Blocks project) by apply Hedge.
    apply list_elem_of_lookup in Ha as [i Hi].
    apply list_elem_of_lookup in Hc as [k Hk].
    pose proof (edge_position project a c i k Hnodup Hfirst Hedge Hi Hk).
    pose proof (path_position project c a Hnodup Hfirst Hpath k i Hk Hi).
    assert (k = i) as -> by lia.
    assert (c = a) as -> by congruence. done. }
  exists a. destruct Hself as (Hin & _ & Hfb & Hid). done.
Qed.

Lemma key_order_elem project keys id parent :
  key_order project keys ->
  buildDeps (Blocks project) !! id = Some parent -> id ∈ keys.
Proof.
  unfold key_order. intros -> Hlook.
  apply list_elem_of_fmap. exists (id, parent). split; [done|].
  by apply elem_of_map_to_list.
Qed.

(** Validation rejects every project whose [from_block] edges contain a
    cycle, whatever order the keys of [deps] are visited in. *)
Lemma Validate_rejects_cycles project keys :
  key_order project keys -> cyclic project ->
  exists err, Validate keys project = Err err.
Proof.
  intros Horder Hcyclic. unfold Validate.
  destruct (is_empty (Version project)); [eauto|].
  destruct (is_empty (Name project)); [eauto|].
  case_bool_decide; [eauto|].
  destruct (validateBlocks (Blocks project) ∅) as [err|] eqn:Hloop; [eauto|].
  pose proof (validateBlocks_NoDup _ _ Hloop) as Hnodup.
  pose proof (validateBlocks_parents_first _ Hloop) as Hfirst.
  destruct (cycle_is_self project Hnodup Hfirst Hcyclic) as (a & Hin & Hself & Hfb).
  pose proof (buildDeps_lookup _ a Hnodup Hin Hfb) as Hdeps.
  rewrite Hself in Hdeps.
  unfold checkCircularDependencies.
  destruct (checkKeys _ keys _ ∅ ∅) as [[]|err|] eqn:Hcheck; [|eauto|].
  - exfalso. eapply checkKeys_self; [exact Hdeps | | | exact Hcheck]; [|set_solver].
    eapply key_order_elem; eauto.
  - exfalso. eapply checkKeys_fuel; [|exact Hcheck].
    pose proof (buildDeps_size (Blocks project)). lia.
Qed.

End ValidateProject.

Section ValidateInvariant.

(** Sufficient for acceptance: the stated invariant, the fields
    [validateBlock] also checks, and parents listed first. *)
Lemma Validate_accepts project keys :
  well_formed project ->
  (forall b, b ∈ Blocks project -> runtime_fields_valid b) ->
  parents_first project ->
  Validate keys project = Ok ().
Proof.
  intros (Hversion & Hname & Hblocks & Hids & Hnodup & Hone & _ & Hacyclic)
    Hfields Hfirst.
  unfold Validate.
  apply is_empty_false in Hversion, Hname. rewrite Hversion, Hname.
  case_bool_decide as Hlen; [by destruct (Blocks project)|].
  assert (Hloop : validateBlocks (Blocks project) ∅ = None).
  { apply validateBlocks_None. intros i b Hi.
    assert (Hin : b ∈ Blocks project) by (apply list_elem_of_lookup; eauto).
    split; [by apply Hids|]. split.
    - intros [Hemp|Hdup]%elem_of_union; [set_solver|].
      apply elem_of_ids in Hdup as (b' & Hb' & Hid).
      apply list_elem_of_lookup in Hb' as [j Hj].
      apply lookup_take_Some in Hj as [Hj Hlt].
      destruct (lookup_same_id _ j i b' b Hnodup Hj Hi Hid). lia.
    - apply validateBlock_None. split; [by apply Hone|]. split; [|by apply Hfields].
      intros Hfb. destruct (Hfirst i b Hi Hfb) as (j & p & Hle & Hj & Hp).
      destruct (decide (j = i)) as [->|Hne].
      + assert (p = b) as -> by congruence. set_solver.
      + apply elem_of_union_l, elem_of_union_r, elem_of_ids.
        exists p. split; [|done].
        apply list_elem_of_lookup. exists j. rewrite lookup_take_lt; [done | lia]. }
  rewrite Hloop. unfold checkCircularDependencies.
  destruct (checkKeys _ keys _ ∅ ∅) as [[]|err|] eqn:Hcheck; [done| |].
  - exfalso. revert Hcheck.
    apply (checkKeys_ranked _ (fun id => index_of id (Blocks project))).
    intros a parent Hdeps.
    apply buildDeps_Some in Hdeps as (b & Hin & <- & <- & Hfb).
    apply list_elem_of_lookup in Hin as [i Hi].
    destruct (Hfirst i b Hi Hfb) as (j & p & Hle & Hj & Hp).
    rewrite <- Hp, (index_of_lookup _ j p Hnodup Hj), (index_of_lookup _ i b Hnodup Hi).
    destruct (decide (j = i)) as [->|Hne]; [|lia].
    exfalso. apply Hacyclic. exists b. apply tc_once.
    assert (p = b) as -> by congruence.
    assert (b ∈ Blocks project) by (apply list_elem_of_lookup; eauto).
    repeat split; done.
  - exfalso. eapply checkKeys_fuel; [|exact Hcheck].
    pose proof (buildDeps_size (Blocks project)). lia.
Qed.

(** Necessary for acceptance: the stated invariant. *)
Lemma Validate_Ok_well_formed project keys :
  key_order project keys -> Validate keys project = Ok () -> well_formed project.
Proof.
  intros Horder Hok.
  assert (Hacyclic : ~ cyclic project).
  { intros Hcyclic.
    destruct (Validate_rejects_cycles project keys Horder Hcyclic) as [err Herr].
    congruence. }
  unfold Validate in Hok.
  destruct (is_empty (Version project)) eqn:Hversion; [done|].
  destruct (is_empty (Name project)) eqn:Hname; [done|].
  case_bool_decide as Hlen; [done|].
  destruct (validateBlocks (Blocks project) ∅) as [err|] eqn:Hloop; [done|].
  pose proof (validateBlocks_NoDup _ _ Hloop) as Hnodup.
  pose proof (validateBlocks_parents_first _ Hloop) as Hfirst.
  pose proof (proj1 (validateBlocks_None _ _) Hloop) as Hall.
  apply is_empty_false in Hversion, Hname.
  repeat split; try done.
  - intros Hnil. by rewrite Hnil in Hlen.
  - intros b [i Hi]%list_elem_of_lookup. by destruct (Hall i b Hi).
  - intros b [i Hi]%list_elem_of_lookup.
    destruct (Hall i b Hi) as (_ & _ & Hblock).
    by apply validateBlock_None in Hblock as (? & _).
  - intros b [i Hi]%list_elem_of_lookup Hfb.
    destruct (Hfirst i b Hi Hfb) as (j & p & _ & Hj & Hp).
    exists p. split; [|done]. apply list_elem_of_lookup. eauto.
Qed.

End ValidateInvariant.

(** A project whose blocks set no [from_block] has no cycle. *)
Lemma no_from_block_acyclic project :
  (forall b, b ∈ Blocks project -> FromBlock b = EmptyString) -> ~ cyclic project.
Proof.
  intros Hnone [a Hcycle].
  assert (Hedge : exists c, from_block_edge project a c)
    by (inversion Hcycle; eauto).
  destruct Hedge as (c & Hin & _ & Hfb & _). by apply Hfb, Hnone.
Qed.

Lemma bridgeProject_well_formed : well_formed bridgeProject.
Proof.
  repeat split; try discriminate.
  - intros b ->%list_elem_of_singleton. discriminate.
  - simpl. apply NoDup_singleton.
  - intros b ->%list_elem_of_singleton. left. split; [discriminate | reflexivity].
  - intros b ->%list_elem_of_singleton Hfb. done.
  - apply no_from_block_acyclic. by intros b ->%list_elem_of_singleton.
Qed.

(** C6 (as stated) fails: a project can satisfy the whole stated invariant
    and still be rejected, here for a network mode that [validateBlock]
    does not know. *)
Lemma Validate_rejects_well_formed :
  well_formed bridgeProject
  /\ key_order bridgeProject []
  /\ Validate [] bridgeProject = Err (ErrBlock "base" (ErrNetworkMode "bridge")).
Proof.
  split; [exact bridgeProject_well_formed|]. split; [|reflexivity].
  unfold key_order. vm_compute. reflexivity.
Qed.

(** A parent listed after its child is rejected as well, although it
    exists in the project. *)
Example Validate_rejects_child_first :
  Validate ["app"%string] childFirstProject
  = Err (ErrBlock "app" (ErrFromBlockMissing "base")).
Proof. reflexivity. Qed.

(** C6 (amended).  [Validate] returns success for every project that
    satisfies the stated invariant (non-empty version, name and block list,
    unique non-empty ids, exactly one of [from] and [from_block] per block,
    every [from_block] naming a block of the project, no cycle), whose
    blocks also have a known network mode, [KEY=VALUE] environment entries
    and mounts with source and target, and in which parents are listed no
    later than their children; and [Validate] returns an error whenever the
    stated invariant is violated. *)
Theorem Validate_invariant (project : Project) (keys : list string)
    (Horder : key_order project keys) :
  (well_formed project ->
   (forall b, b ∈ Blocks project -> runtime_fields_valid b) ->
   parents_first project ->
   Validate keys project = Ok ())
  /\ (~ well_formed project -> exists err, Validate keys project = Err err).
Proof.
  split; [apply Validate_accepts|].
  intros Hbad. destruct (Validate keys project) as [[]|err|] eqn:Hrun; [|eauto|].
  - exfalso. apply Hbad. by eapply Validate_Ok_well_formed.
  - exfalso. by eapply Validate_terminates.
Qed.

Lemma demoProject_well_formed : well_formed demoProject.
Proof.
  repeat split; try discriminate.
  - intros b Hb. repeat (apply elem_of_cons in Hb as [->|Hb]; [discriminate|]).
    by apply elem_of_nil in Hb.
  - simpl. apply NoDup_cons. split; [|apply NoDup_singleton].
    intros Hin%list_elem_of_singleton. discriminate.
  - intros b Hb. apply elem_of_cons in Hb as [->|Hb];
      [left; split; [discriminate | reflexivity]|].
    apply list_elem_of_singleton in Hb as ->. right. split; [reflexivity | discriminate].
  - intros b Hb Hfb. apply elem_of_cons in Hb as [->|Hb]; [done|].
    apply list_elem_of_singleton in Hb as ->.
    eexists. split; [apply list_elem_of_here | reflexivity].
  - intros [a Hcycle].
    assert (Hpos : forall x y, tc (from_block_edge demoProject) x y ->
                     ID x = "app"%string /\ ID y = "base"%string).
    { intros x y Hpath. induction Hpath as [x y Hedge | x y z Hedge Hpath IH].
      - destruct Hedge as (Hx & Hy & Hfb & Hid).
        apply elem_of_cons in Hx as [->|Hx]; [done|].
        apply list_elem_of_singleton in Hx as ->. split; [done | by rewrite <- Hid].
      - destruct Hedge as (Hx & Hy & Hfb & Hid). destruct IH as [Happ _].
        apply elem_of_cons in Hx as [->|Hx]; [done|].
        apply list_elem_of_singleton in Hx as ->. simpl in Hid. congruence. }
    destruct (Hpos a a Hcycle). congruence.
Qed.

Lemma Validate_invariant_witness :
  key_order demoProject ["app"%string]
  /\ Validate ["app"%string] demoProject = Ok ()
  /\ key_order cycleProject ["a"; "b"]%string
  /\ exists err, Validate ["a"; "b"]%string cycleProject = Err err.
Proof.
  assert (Horder : key_order demoProject ["app"%string])
    by (unfold key_order; vm_compute; reflexivity).
  assert (Horder' : key_order cycleProject ["a"; "b"]%string)
    by (unfold key_order; vm_compute; reflexivity).
  destruct (Validate_invariant demoProject ["app"%string] Horder) as [Haccept _].
  destruct (Validate_invariant cycleProject ["a"; "b"]%string Horder') as [_ Hreject].
  split; [exact Horder|]. split; [|split; [exact Horder'|]].
  - apply Haccept.
    + exact demoProject_well_formed.
    + intros b Hb. repeat split.
      * left. repeat (apply elem_of_cons in Hb as [->|Hb]; [reflexivity|]).
        by apply elem_of_nil in Hb.
      * repeat (apply elem_of_cons in Hb as [->|Hb]; [intros ? []|]).
        by apply elem_of_nil in Hb.
      * repeat (apply elem_of_cons in Hb as [->|Hb]; [exfalso; done|]).
        by apply elem_of_nil in Hb.
      * repeat (apply elem_of_cons in Hb as [->|Hb]; [exfalso; done|]).
        by apply elem_of_nil in Hb.
    + intros [|[|i]] b Hi Hfb; simpl in Hi; try done.
      * injection Hi as <-. done.
      * injection Hi as <-. exists O, (imageBlock "base" "alpine:latest"
                                        ["RUN echo hi"%string]).
        split; [lia|]. split; reflexivity.
  - apply Hreject. intros (_ & _ & _ & _ & _ & _ & _ & Hacyclic). apply Hacyclic.
    exists (childBlock "a" "b" EmptyString ["RUN echo a"%string]).
    eapply tc_l; [|apply tc_once].
    + split; [apply list_elem_of_here|].
      split; [apply list_elem_of_further, list_elem_of_here|].
      split; [discriminate | reflexivity].
    + split; [apply list_elem_of_further, list_elem_of_here|].
      split; [apply list_elem_of_here|].
      split; [discriminate | reflexivity].
Defined.

(** ** The engine *)

Section EngineSteps.
Context {R : Type} `{!Runtime R} (e : Engine).

Lemma RunBlock_S fuel blockID opts (w : @World R) :
  RunBlock (S fuel) e blockID opts w
  = match findBlock e blockID with
    | None => (Err (ErrBlockNotFound blockID), w)
    | Some block =>
        match resolveParentWithVisited fuel e block ∅ w with
        | (Ok (parentImageRef, parentDigest), _, w) =>
            runResolved e blockID block opts parentImageRef parentDigest w
        | (Err err, _, w) => (Err (ErrResolveParent err), w)
        | (OutOfFuel, _, w) => (OutOfFuel, w)
        end
    end.
Proof. reflexivity. Qed.

Lemma resolve_S fuel block visited (w : @World R) :
  resolveParentWithVisited (S fuel) e block visited w
  = if negb (is_empty (From block)) then
      let '(r, w) := resolveImage block w in (r, visited, w)
    else if negb (is_empty (FromBlock block)) then
      if has visited (ID block) then (Err (ErrCircular (ID block)), visited, w)
      else
        let '(r, visited', w) := resolveMarked e fuel block ({[ID block]} ∪ visited) w in
        (r, visited' ∖ {[ID block]}, w)
    else (Err ErrNoParent, visited, w).
Proof. reflexivity. Qed.

End EngineSteps.

Section EngineFacts.
Context {R : Type} `{!Runtime R} (e : Engine).
Implicit Types (w : @World R) (block : Block) (visited : gset string).

Lemma resolveImage_returns block w : (resolveImage block w).1 <> OutOfFuel.
Proof.
  unfold resolveImage, PullImage, InspectImage.
  destruct (rt_ImagePull _ _) as [[msg|] d]; simpl; [done|].
  destruct (rt_ImageInspect _ _) as [[digest|msg] d']; done.
Qed.

Lemma resolveImage_store block w : store (resolveImage block w).2 = store w.
Proof.
  unfold resolveImage, PullImage, InspectImage.
  destruct (rt_ImagePull _ _) as [[msg|] d]; simpl; [done|].
  destruct (rt_ImageInspect _ _) as [[digest|msg] d']; done.
Qed.

Lemma parentReference_returns block digest :
  parentReference e block digest <> OutOfFuel.
Proof. unfold parentReference. repeat case_match; done. Qed.

Lemma parentReference_digest block digest ref digest' :
  parentReference e block digest = Ok (ref, digest') -> digest' = digest.
Proof. unfold parentReference. repeat case_match; congruence. Qed.

Lemma LoadBlockState_returns id (s : Store) : LoadBlockState id s <> OutOfFuel.
Proof. unfold LoadBlockState. repeat case_match; done. Qed.

Lemma loadParentState_returns block w : loadParentState block w <> OutOfFuel.
Proof.
  unfold loadParentState.
  pose proof (LoadBlockState_returns (FromBlock block) (store w)).
  repeat case_match; done.
Qed.

(** A state the resolver loads successfully from the file is the state the
    store holds. *)
Lemma loadParentState_loaded block w state :
  LoadBlockState (FromBlock block) (store w) = Ok state ->
  loadParentState block w = Ok state.
Proof. unfold loadParentState. by intros ->. Qed.

Lemma buildImageWithLogs_returns dockerfile tag id w :
  (buildImageWithLogs dockerfile tag id w).1 <> OutOfFuel.
Proof.
  unfold buildImageWithLogs. destruct (rt_ImageBuild _ _ _) as [[chunks [d|msg]] r]; done.
Qed.

Lemma buildBlock_returns block ref w : (buildBlock e block ref w).1 <> OutOfFuel.
Proof.
  unfold buildBlock. destruct (rt_StageContext _ _ _ _) as [[msg|] d]; [done|].
  pose proof (buildImageWithLogs_returns (generateDockerfile block ref)
    ("dockstep-" +:+ sanitizeForDockerTag (ID block) +:+ "-"
       +:+ decimal (now {| store := store w; docker := d; calls := calls w;
                             cacheSets := cacheSets w |}))
    (ID block) {| store := store w; docker := d; calls := calls w;
                  cacheSets := cacheSets w |}) as Hbuild.
  destruct (buildImageWithLogs _ _ _ _) as [[digest|err|] w']; done.
Qed.

(** [RunBlock] reports a failed build in the block state, not as an error:
    once the parent is resolved it returns [nil]. *)
Lemma runResolved_Ok blockID block opts ref digest w :
  (runResolved e blockID block opts ref digest w).1 = Ok ().
Proof.
  unfold runResolved.
  destruct (if Force opts then None else _) as [cached|]; [done|].
  pose proof (buildBlock_returns block ref
    (on_store (ClearLogs blockID)
       (on_store (SaveBlockState blockID
          {| st_ID := blockID; st_Status := StatusRunning; st_Digest := EmptyString;
             st_Hash := ComputeBlockHash block digest; st_Timestamp := now w;
             st_ExitCode := 0; st_Duration := 0; st_Error := EmptyString |}) w)))
    as Hbuild.
  destruct (buildBlock _ _ _ _) as [[d|err|] w']; done.
Qed.

(** The deferred [delete] leaves the shared [visited] map as the call found
    it, on every exit path. *)
Lemma visited_restored fuel block visited w :
  (resolveParentWithVisited fuel e block visited w).1.2 = visited.
Proof.
  revert block visited w.
  induction fuel as [|fuel IH]; intros block visited w; [done|].
  rewrite resolve_S.
  destruct (negb (is_empty (From block))).
  { by destruct (resolveImage block w). }
  destruct (negb (is_empty (FromBlock block))); [|done].
  destruct (has visited (ID block)) eqn:Hvisited; [done|].
  apply has_false in Hvisited.
  assert (Hmarked : (resolveMarked e fuel block ({[ID block]} ∪ visited) w).1.2
                    = {[ID block]} ∪ visited).
  { unfold resolveMarked.
    destruct (negb (is_empty (FromBlockVersion block))); [done|].
    destruct (loadParentState block w) as [state|err|]; [|done..].
    destruct (is_empty (st_Digest state)); [|done].
    destruct (findBlock e (FromBlock block)) as [parentBlock|]; [|done].
    specialize (IH parentBlock ({[ID block]} ∪ visited) w).
    destruct (resolveParentWithVisited fuel e parentBlock _ w) as [[r1 v1] w1].
    simpl in IH. subst v1. destruct r1 as [[ref d]|err|]; [|done..].
    destruct (RunBlock fuel e (FromBlock block) unforced w1) as [[[]|err|] w2]; [|done..].
    destruct (LoadBlockState _ _) as [state'|err|]; [|done..].
    by destruct (is_empty (st_Digest state')). }
  destruct (resolveMarked e fuel block _ w) as [[r v] w']. simpl in *. subst v.
  set_solver.
Qed.

End EngineFacts.

Section Termination.
Context {R : Type} `{!Runtime R} (e : Engine).
Implicit Types (w : @World R) (block : Block) (visited : gset string).

Lemma findBlock_Some blockID block :
  findBlock e blockID = Some block ->
  block ∈ Blocks (project e) /\ ID block = blockID.
Proof.
  unfold findBlock. intros Hfind. apply find_some in Hfind as [Hin Heq].
  split; [by apply list_elem_of_In | by apply String.eqb_eq].
Qed.

Lemma size_ids blocks : (size (ids blocks) <= length blocks)%nat.
Proof.
  induction blocks as [|b blocks IH]; [done|].
  rewrite ids_cons. simpl.
  pose proof (size_union_alt {[ID b]} (ids blocks)) as Hunion.
  assert (size (ids blocks ∖ {[ID b]}) <= size (ids blocks))%nat
    by (apply subseteq_size; set_solver).
  rewrite size_singleton in Hunion. lia.
Qed.

Lemma size_difference_mark (X visited : gset string) x :
  x ∈ X -> x ∉ visited ->
  size (X ∖ visited) = S (size (X ∖ ({[x]} ∪ visited))).
Proof.
  intros Hin Hfresh.
  assert (Hsplit : X ∖ visited = {[x]} ∪ X ∖ ({[x]} ∪ visited)).
  { apply set_eq. intros k.
    rewrite elem_of_union, !elem_of_difference, elem_of_union, elem_of_singleton.
    destruct (decide (k = x)); naive_solver. }
  rewrite Hsplit at 1. rewrite size_union, size_singleton by set_solver. done.
Qed.

(** A settled block is resolved without any nested call. *)
Lemma settled_returns block w fuel visited :
  settled block w ->
  (resolveParentWithVisited (S fuel) e block visited w).1.1 <> OutOfFuel.
Proof.
  intros Hsettled. rewrite resolve_S.
  destruct (is_empty (From block)) eqn:Hfrom; simpl.
  2: { pose proof (resolveImage_returns block w).
       by destruct (resolveImage block w). }
  destruct (is_empty (FromBlock block)) eqn:Hfb; simpl; [done|].
  destruct (has visited (ID block)); [done|].
  assert (Hmarked : (resolveMarked e fuel block ({[ID block]} ∪ visited) w).1.1
                    <> OutOfFuel).
  { unfold resolveMarked.
    destruct (is_empty (FromBlockVersion block)) eqn:Hpin; simpl;
      [|apply parentReference_returns].
    pose proof (loadParentState_returns block w) as Hload.
    destruct (loadParentState block w) as [state|err|] eqn:Hstate; [|done..].
    destruct (is_empty (st_Digest state)) eqn:Hdigest;
      [|apply parentReference_returns].
    exfalso. apply is_empty_true in Hfrom, Hpin, Hdigest. apply is_empty_false in Hfb.
    destruct Hsettled as [?|[?|[?|Hstored]]]; try done.
    by apply (Hstored state). }
  by destruct (resolveMarked e fuel block _ w) as [[r v] w'].
Qed.

(** After a successful resolution the block is settled. *)
Lemma resolve_Ok_settled fuel block visited w r visited' w' :
  resolveParentWithVisited fuel e block visited w = (Ok r, visited', w') ->
  settled block w'.
Proof.
  destruct fuel as [|fuel]; [done|]. rewrite resolve_S.
  destruct (is_empty (From block)) eqn:Hfrom; simpl.
  2: { intros _. left. by apply is_empty_false. }
  destruct (is_empty (FromBlock block)) eqn:Hfb; simpl; [done|].
  destruct (has visited (ID block)); [done|].
  destruct (resolveMarked e fuel block _ w) as [[r0 v0] w0] eqn:Hmarked.
  intros [= -> _ ->]. unfold resolveMarked in Hmarked.
  destruct (is_empty (FromBlockVersion block)) eqn:Hpin; simpl in Hmarked.
  2: { right. right. left. by apply is_empty_false. }
  right. right. right.
  destruct (loadParentState block w) as [state|err|] eqn:Hstate; [|done..].
  destruct (is_empty (st_Digest state)) eqn:Hdigest.
  - destruct (findBlock e (FromBlock block)) as [parentBlock|]; [|done].
    destruct (resolveParentWithVisited fuel e parentBlock _ w) as [[[r1|err|] v1] w1];
      [|done..].
    destruct (RunBlock fuel e (FromBlock block) unforced w1) as [[[]|err|] w2]; [|done..].
    destruct (LoadBlockState _ (store w2)) as [state'|err|] eqn:Hreload; [|done..].
    destruct (is_empty (st_Digest state')) eqn:Hdigest'; [done|].
    injection Hmarked as _ _ <-.
    intros state'' Hload. rewrite (loadParentState_loaded _ _ _ Hreload) in Hload.
    injection Hload as <-. by apply is_empty_false.
  - injection Hmarked as _ _ <-. intros state' Hload.
    rewrite Hstate in Hload. injection Hload as <-. by apply is_empty_false.
Qed.

(** The resolver and [RunBlock] call each other to a bounded depth: each
    nested resolution marks a block that was not marked, and a parent is
    executed only after it was resolved, which settles it. *)
Lemma resolve_bounded (X : gset string) m :
  ids (Blocks (project e)) ⊆ X ->
  forall fuel block visited w,
    ID block ∈ X ->
    (size (X ∖ visited) <= m)%nat -> (m + 2 <= fuel)%nat ->
    (resolveParentWithVisited fuel e block visited w).1.1 <> OutOfFuel.
Proof.
  intros Hids. induction m as [|m IH]; intros fuel block visited w Hin Hsize Hfuel.
  all: destruct fuel as [|fuel]; [lia|]; rewrite resolve_S.
  all: destruct (negb (is_empty (From block)));
         [pose proof (resolveImage_returns block w);
          by destruct (resolveImage block w)|].
  all: destruct (negb (is_empty (FromBlock block))); [|done].
  all: destruct (has visited (ID block)) eqn:Hvisited; [done|].
  all: apply has_false in Hvisited.
  all: rewrite (size_difference_mark X visited (ID block)) in Hsize by done.
  { lia. }
  assert (Hmarked : (resolveMarked e fuel block ({[ID block]} ∪ visited) w).1.1
                    <> OutOfFuel).
  { unfold resolveMarked.
    destruct (negb (is_empty (FromBlockVersion block)));
      [apply parentReference_returns|].
    pose proof (loadParentState_returns block w) as Hload.
    destruct (loadParentState block w) as [state|err|]; [|done..].
    destruct (is_empty (st_Digest state)); [|apply parentReference_returns].
    destruct (findBlock e (FromBlock block)) as [parentBlock|] eqn:Hfind; [|done].
    destruct (findBlock_Some _ _ Hfind) as [Hparent Hid].
    assert (Hin' : ID parentBlock ∈ X).
    { apply Hids, elem_of_ids. eauto. }
    specialize (IH fuel parentBlock ({[ID block]} ∪ visited) w Hin'
                  ltac:(lia) ltac:(lia)).
    destruct (resolveParentWithVisited fuel e parentBlock _ w) as [[r1 v1] w1] eqn:Hrec.
    destruct r1 as [[ref d]|err|]; [|done..].
    apply resolve_Ok_settled in Hrec.
    destruct fuel as [|[|fuel]]; [lia..|].
    rewrite RunBlock_S, Hfind.
    pose proof (settled_returns parentBlock w1 fuel ∅ Hrec) as Hnested.
    destruct (resolveParentWithVisited (S fuel) e parentBlock ∅ w1)
      as [[[[ref' d']|err|] v2] w2]; [|done..].
    pose proof (runResolved_Ok e (FromBlock block) parentBlock unforced ref' d' w2)
      as Hrun.
    destruct (runResolved _ _ _ _ _ _ _) as [r3 w3]. simpl in Hrun. subst r3.
    pose proof (LoadBlockState_returns (FromBlock block) (store w3)) as Hreload.
    destruct (LoadBlockState _ (store w3)) as [state'|err|]; [|done..].
    destruct (is_empty (st_Digest state')); [done | apply parentReference_returns]. }
  by destruct (resolveMarked e fuel block _ w) as [[r v] w'].
Qed.

(** Parent resolution returns for every block, every [visited] map and
    every world, within [enough e] nested calls. *)
Lemma resolve_terminates fuel block visited w :
  (enough e <= fuel)%nat ->
  (resolveParentWithVisited fuel e block visited w).1.1 <> OutOfFuel.
Proof.
  intros Hfuel. unfold enough in Hfuel.
  apply (resolve_bounded ({[ID block]} ∪ ids (Blocks (project e)))
           (S (length (Blocks (project e))))); [set_solver | set_solver | | lia].
  pose proof (size_ids (Blocks (project e))).
  pose proof (size_union_alt {[ID block]} (ids (Blocks (project e)))) as Hunion.
  assert (size (ids (Blocks (project e)) ∖ {[ID block]})
          <= size (ids (Blocks (project e))))%nat
    by (apply subseteq_size; set_solver).
  assert (size (({[ID block]} ∪ ids (Blocks (project e))) ∖ visited)
          <= size ({[ID block]} ∪ ids (Blocks (project e))))%nat
    by (apply subseteq_size; set_solver).
  rewrite size_singleton in Hunion. lia.
Qed.

Lemma RunBlock_terminates fuel blockID opts w :
  (enough e <= fuel)%nat -> (RunBlock fuel e blockID opts w).1 <> OutOfFuel.
Proof.
  intros Hfuel. unfold enough in Hfuel.
  destruct fuel as [|fuel]; [lia|]. rewrite RunBlock_S.
  destruct (findBlock e blockID) as [block|] eqn:Hfind; [|done].
  destruct (findBlock_Some _ _ Hfind) as [Hin Hid].
  pose proof (resolve_bounded (ids (Blocks (project e))) (length (Blocks (project e)))
                ltac:(done) fuel block ∅ w) as Hresolve.
  pose proof (size_ids (Blocks (project e))).
  assert (size (ids (Blocks (project e)) ∖ ∅) <= size (ids (Blocks (project e))))%nat
    by (apply subseteq_size; set_solver).
  specialize (Hresolve ltac:(apply elem_of_ids; eauto) ltac:(lia) ltac:(lia)).
  destruct (resolveParentWithVisited fuel e block ∅ w) as [[[[ref d]|err|] v] w1];
    [|done..].
  by rewrite runResolved_Ok.
Qed.

End Termination.

Section RuntimeCycles.
Context {R : Type} `{!Runtime R} (e : Engine).
Implicit Types (w : @World R) (block : Block) (visited : gset string).

(** When every block reachable through [from_block] is an unpinned block
    without stored digest, the resolver only descends: it changes nothing
    and ends on the block it meets twice. *)
Lemma unbuilt_chain_circular w fuel block visited :
  (forall c, rtc (parent_of e) block c -> awaits_parent e w c) ->
  (resolveParentWithVisited fuel e block visited w).2 = w
  /\ ((resolveParentWithVisited fuel e block visited w).1.1 = OutOfFuel
      \/ exists err id, (resolveParentWithVisited fuel e block visited w).1.1 = Err err
                        /\ root_cause err = ErrCircular id).
Proof.
  revert block visited.
  induction fuel as [|fuel IH]; intros block visited Hchain; [split; [done | by left]|].
  destruct (Hchain block (rtc_refl _ _))
    as (Hfrom & Hfb & Hpin & (state & Hstate & Hdigest) & parent & Hfind).
  rewrite resolve_S.
  apply is_empty_true in Hfrom, Hpin, Hdigest. apply is_empty_false in Hfb.
  rewrite Hfrom, Hfb. simpl.
  destruct (has visited (ID block)); [split; [done | right; eauto]|].
  unfold resolveMarked. rewrite Hpin, Hstate, Hdigest, Hfind. simpl.
  destruct (IH parent ({[ID block]} ∪ visited)) as [Hworld Hresult].
  { intros c Hc. apply Hchain. by eapply rtc_l. }
  destruct (resolveParentWithVisited fuel e parent _ w) as [[r1 v1] w1].
  simpl in Hworld, Hresult. subst w1.
  destruct Hresult as [->|(err & id & -> & Hroot)]; [split; [done | by left]|].
  split; [done|]. right. exists (ErrResolveDeps (FromBlock block) err), id. done.
Qed.

End RuntimeCycles.

Lemma two_cycle (project : Project) (a b : Block) :
  Blocks project = [a; b] ->
  FromBlock a = ID b -> FromBlock b = ID a ->
  FromBlock a <> EmptyString -> FromBlock b <> EmptyString ->
  cyclic project.
Proof.
  intros Hblocks Hab Hba Ha Hb. exists a.
  eapply tc_l; [|apply tc_once]; unfold from_block_edge; rewrite Hblocks.
  - split; [apply list_elem_of_here|].
    split; [apply list_elem_of_further, list_elem_of_here | done].
  - split; [apply list_elem_of_further, list_elem_of_here|].
    split; [apply list_elem_of_here | done].
Qed.

Lemma cycleProject_cyclic : cyclic cycleProject.
Proof. eapply two_cycle; [reflexivity..| |]; discriminate. Qed.

(** C5 (as stated) fails at run time: resolving a block that lies on a
    cycle succeeds, without a circular-dependency error, when the block is
    pinned to a version of its parent, or when its parent has a digest
    stored from an earlier build. *)
Lemma cycle_resolved_without_error :
  cyclic pinnedCycleProject
  /\ resolveParent 5 (engineOf pinnedCycleProject)
       (childBlock "a" "b" "sha256:v1" ["RUN echo a"%string]) (freshWorld [])
     = (Ok ("sha256:v1", "sha256:v1")%string, freshWorld [])
  /\ cyclic cycleProject
  /\ resolveParent 5 (engineOf cycleProject) cycleA (builtWorld "b" "sha256:old" [])
     = (Ok ("sha256:old", "sha256:old")%string, builtWorld "b" "sha256:old" []).
Proof.
  split; [|split; [vm_compute; reflexivity|split; [|vm_compute; reflexivity]]].
  - eapply two_cycle; [reflexivity..| |]; discriminate.
  - exact cycleProject_cyclic.
Qed.

(** C5 (amended).  Validation rejects every project whose [from_block]
    edges contain a cycle.  If validation is bypassed, parent resolution
    and [RunBlock] return for every block, project and stored state, within
    a number of nested calls bounded by the size of the project: they never
    diverge.  Resolution fails with a circular-dependency error when every
    block reachable from the resolved one through [from_block] is an
    unpinned block without [from] whose parent exists and has no stored
    digest, as on a cycle of blocks that were never built. *)
Theorem cycles_never_diverge {R : Type} `{!Runtime R} :
  (forall project keys, key_order project keys -> cyclic project ->
     exists err, Validate keys project = Err err)
  /\ (forall (e : Engine) fuel block visited blockID opts (w : @World R),
        (enough e <= fuel)%nat ->
        (resolveParentWithVisited fuel e block visited w).1.1 <> OutOfFuel
        /\ (RunBlock fuel e blockID opts w).1 <> OutOfFuel)
  /\ (forall (e : Engine) fuel block (w : @World R),
        (enough e <= fuel)%nat ->
        (forall c, rtc (parent_of e) block c -> awaits_parent e w c) ->
        exists err id, resolveParent fuel e block w = (Err err, w)
                       /\ root_cause err = ErrCircular id).
Proof.
  split; [apply Validate_rejects_cycles|]. split.
  - intros e fuel block visited blockID opts w Hfuel.
    split; [by apply resolve_terminates | by apply RunBlock_terminates].
  - intros e fuel block w Hfuel Hchain. unfold resolveParent.
    destruct (unbuilt_chain_circular e w fuel block ∅ Hchain) as [Hworld Hresult].
    pose proof (resolve_terminates e fuel block ∅ w Hfuel) as Hreturns.
    destruct (resolveParentWithVisited fuel e block ∅ w) as [[r v] w'].
    simpl in *. subst w'.
    destruct Hresult as [->|(err & id & -> & Hroot)]; [done | eauto].
Qed.

Lemma cycleProject_reach x c :
  rtc (parent_of (engineOf cycleProject)) x c ->
  x = cycleA \/ x = cycleB -> c = cycleA \/ c = cycleB.
Proof.
  induction 1 as [|x y z Hstep Hrest IH]; [done|].
  intros Hx. apply IH. unfold parent_of in Hstep.
  destruct Hx as [->| ->]; vm_compute in Hstep; injection Hstep as <-;
    [by right | by left].
Qed.

Lemma cycles_never_diverge_witness :
  (exists err, Validate ["a"; "b"]%string cycleProject = Err err)
  /\ (RunBlock 5 (engineOf cycleProject) "a" unforced (freshWorld [])).1 <> OutOfFuel
  /\ exists err id,
       resolveParent 5 (engineOf cycleProject) cycleA (freshWorld [])
       = (Err err, freshWorld [])
       /\ root_cause err = ErrCircular id.
Proof.
  destruct (@cycles_never_diverge Scripted _) as (Hvalidate & Hreturns & Hcircular).
  split; [|split].
  - apply Hvalidate; [unfold key_order; vm_compute; reflexivity|].
    exact cycleProject_cyclic.
  - apply (Hreturns (engineOf cycleProject) 5%nat cycleA ∅).
    vm_compute. lia.
  - apply Hcircular; [vm_compute; lia|].
    intros c Hc.
    destruct (cycleProject_reach cycleA c Hc ltac:(by left)) as [->| ->].
    + split; [reflexivity|]. split; [discriminate|]. split; [reflexivity|].
      split; [eexists; split; vm_compute; reflexivity|].
      eexists. vm_compute. reflexivity.
    + split; [reflexivity|]. split; [discriminate|]. split; [reflexivity|].
      split; [eexists; split; vm_compute; reflexivity|].
      eexists. vm_compute. reflexivity.
Defined.

Section ParentResolution.
Context {R : Type} `{!Runtime R} (e : Engine).
Implicit Types (w : @World R) (block : Block) (visited : gset string).

(** What the resolver does for an unpinned parent block without stored
    digest: resolve the parent's own parent, run the parent, read its
    state again. *)
Lemma resolve_unbuilt_parent fuel block visited w state parentBlock :
  From block = EmptyString -> FromBlock block <> EmptyString ->
  FromBlockVersion block = EmptyString ->
  ID block ∉ visited ->
  loadParentState block w = Ok state -> st_Digest state = EmptyString ->
  findBlock e (FromBlock block) = Some parentBlock ->
  resolveParentWithVisited (S fuel) e block visited w
  = match resolveParentWithVisited fuel e parentBlock ({[ID block]} ∪ visited) w with
    | (Ok _, _, w1) =>
        match RunBlock fuel e (FromBlock block) unforced w1 with
        | (Ok _, w2) =>
            match LoadBlockState (FromBlock block) (store w2) with
            | Ok state' =>
                if is_empty (st_Digest state') then
                  (Err (ErrStillNoDigest (FromBlock block)), visited, w2)
                else (parentReference e block (st_Digest state'), visited, w2)
            | Err err => (Err (ErrReloadParentState (FromBlock block) err), visited, w2)
            | OutOfFuel => (OutOfFuel, visited, w2)
            end
        | (Err err, w2) => (Err (ErrExecuteParent (FromBlock block) err), visited, w2)
        | (OutOfFuel, w2) => (OutOfFuel, visited, w2)
        end
    | (Err err, _, w1) => (Err (ErrResolveDeps (FromBlock block) err), visited, w1)
    | (OutOfFuel, _, w1) => (OutOfFuel, visited, w1)
    end.
Proof.
  intros Hfrom Hfb Hpin Hfresh Hstate Hdigest Hfind.
  rewrite resolve_S. unfold resolveMarked.
  apply is_empty_true in Hfrom, Hpin, Hdigest. apply is_empty_false in Hfb.
  apply has_false in Hfresh.
  rewrite Hfrom, Hfb, Hfresh, Hpin, Hstate, Hdigest, Hfind. simpl.
  pose proof (visited_restored e fuel parentBlock ({[ID block]} ∪ visited) w) as Hv.
  apply has_false in Hfresh.
  assert (Hback : ({[ID block]} ∪ visited) ∖ {[ID block]} = visited) by set_solver.
  destruct (resolveParentWithVisited fuel e parentBlock _ w) as [[r1 v1] w1].
  simpl in Hv. subst v1.
  destruct r1 as [[ref d]|err|]; [|by rewrite Hback..].
  destruct (RunBlock fuel e (FromBlock block) unforced w1) as [[[]|err|] w2];
    [|by rewrite Hback..].
  destruct (LoadBlockState _ (store w2)) as [state'|err|]; [|by rewrite Hback..].
  destruct (is_empty (st_Digest state')); by rewrite Hback.
Qed.

(** A digest the resolver returns for an unpinned parent block is the
    non-empty digest of the parent's stored state. *)
Lemma resolve_unpinned_digest fuel block visited w ref digest visited' w' :
  From block = EmptyString -> FromBlockVersion block = EmptyString ->
  resolveParentWithVisited fuel e block visited w = (Ok (ref, digest), visited', w') ->
  digest <> EmptyString
  /\ exists state, LoadBlockState (FromBlock block) (store w') = Ok state
                   /\ st_Digest state = digest.
Proof.
  intros Hfrom Hpin. destruct fuel as [|fuel]; [done|].
  rewrite resolve_S. apply is_empty_true in Hfrom, Hpin. rewrite Hfrom. simpl.
  destruct (negb (is_empty (FromBlock block))); [|done].
  destruct (has visited (ID block)); [done|].
  destruct (resolveMarked e fuel block _ w) as [[r0 v0] w0] eqn:Hmarked.
  intros [= -> _ ->]. unfold resolveMarked in Hmarked. rewrite Hpin in Hmarked.
  simpl in Hmarked.
  destruct (loadParentState block w) as [state|err|] eqn:Hstate; [|done..].
  destruct (is_empty (st_Digest state)) eqn:Hdigest.
  - destruct (findBlock e (FromBlock block)) as [parentBlock|]; [|done].
    destruct (resolveParentWithVisited fuel e parentBlock _ w) as [[[r1|err|] v1] w1];
      [|done..].
    destruct (RunBlock fuel e (FromBlock block) unforced w1) as [[[]|err|] w2]; [|done..].
    destruct (LoadBlockState _ (store w2)) as [state'|err|] eqn:Hreload; [|done..].
    destruct (is_empty (st_Digest state')) eqn:Hdigest'; [done|].
    injection Hmarked as Href _ <-.
    apply parentReference_digest in Href as ->.
    split; [by apply is_empty_false | eauto].
  - injection Hmarked as Href _ <-.
    apply parentReference_digest in Href as ->.
    split; [by apply is_empty_false|].
    unfold loadParentState in Hstate.
    destruct (LoadBlockState (FromBlock block) (store w)) as [state'|err|] eqn:Hload.
    + injection Hstate as ->. eauto.
    + destruct (IsNotExist err); [|done]. injection Hstate as <-. done.
    + done.
Qed.

End ParentResolution.

(** C7.  For a block with [from_block] and [from_block_version] set (and,
    by the invariant of blocks, no [from] and an existing parent block),
    parent resolution returns exactly the pinned digest as the hashing
    input, whatever the parent's state or history holds, and leaves the
    world as it was: no block is executed, no runtime operation invoked,
    nothing stored. *)
Theorem pinned_version_resolution {R : Type} `{!Runtime R} (e : Engine)
    (block parent : Block) (fuel : nat) (w : @World R)
    (Hfrom : From block = EmptyString)
    (Hfb : FromBlock block <> EmptyString)
    (Hpin : FromBlockVersion block <> EmptyString)
    (Hparent : findBlock e (FromBlock block) = Some parent) :
  exists ref,
    resolveParent (S fuel) e block w = (Ok (ref, FromBlockVersion block), w)
    /\ forall blockID opts, findBlock e blockID = Some block ->
         RunBlock (S (S fuel)) e blockID opts w
         = runResolved e blockID block opts ref (FromBlockVersion block) w.
Proof.
  exists (if negb (is_empty (From parent)) then From parent else FromBlockVersion block).
  assert (Hresolve : resolveParentWithVisited (S fuel) e block ∅ w
            = (Ok (if negb (is_empty (From parent)) then From parent
                   else FromBlockVersion block, FromBlockVersion block),
               ({[ID block]} ∪ ∅) ∖ {[ID block]}, w)).
  { rewrite resolve_S. unfold resolveMarked, parentReference.
    apply is_empty_true in Hfrom. apply is_empty_false in Hfb, Hpin.
    rewrite Hfrom, Hfb, Hpin, Hparent. simpl.
    assert (Hfresh : has ∅ (ID block) = false) by (apply has_false; set_solver).
    rewrite Hfresh. by destruct (negb (is_empty (From parent))). }
  split.
  - unfold resolveParent. by rewrite Hresolve.
  - intros blockID opts Hfind. by rewrite RunBlock_S, Hfind, Hresolve.
Qed.

Lemma pinned_version_resolution_witness :
  (exists state, LoadBlockState "base" (store rebuiltWorld) = Ok state
                 /\ st_Digest state = "sha256:second"%string)
  /\ (exists older newer, history (store rebuiltWorld) !! "base"%string
                          = Some [Content older; Content newer]
                          /\ rec_Digest older = FromBlockVersion pinnedApp)
  /\ exists ref, resolveParent 1 (engineOf pinnedProject) pinnedApp rebuiltWorld
                 = (Ok (ref, "sha256:first"%string), rebuiltWorld).
Proof.
  split; [eexists; split; vm_compute; reflexivity|].
  split; [eexists _, _; split; vm_compute; reflexivity|].
  destruct (pinned_version_resolution (engineOf pinnedProject) pinnedApp
              (imageBlock "base" "alpine:latest" ["RUN echo hi"%string]) 0 rebuiltWorld)
    as (ref & Hresolve & _); [reflexivity | discriminate | discriminate | reflexivity |].
  exists ref. exact Hresolve.
Defined.

(** C8.  For a block with an unpinned [from_block] parent, resolution
    returns (with [enough e] fuel); a digest it returns is never empty and
    is the digest of the parent's stored state.  When the parent's stored
    state has no digest, the resolver first resolves the parent's own
    parent, then runs the parent block, then reads its state again: if the
    digest is still empty it fails with the error "still has no digest
    after execution", otherwise it returns that digest. *)
Theorem unpinned_parent_digest {R : Type} `{!Runtime R} (e : Engine)
    (block : Block) (fuel : nat) (visited : gset string) (w : @World R)
    (Hfrom : From block = EmptyString)
    (Hfb : FromBlock block <> EmptyString)
    (Hpin : FromBlockVersion block = EmptyString)
    (Hfuel : (enough e <= fuel)%nat) :
  (resolveParentWithVisited fuel e block visited w).1.1 <> OutOfFuel
  /\ (forall ref digest,
        (resolveParentWithVisited fuel e block visited w).1.1 = Ok (ref, digest) ->
        digest <> EmptyString
        /\ exists state,
             LoadBlockState (FromBlock block)
               (store (resolveParentWithVisited fuel e block visited w).2) = Ok state
             /\ st_Digest state = digest)
  /\ (forall fuel' state parentBlock r1 v1 w1 w2,
        fuel = S fuel' -> ID block ∉ visited ->
        loadParentState block w = Ok state -> st_Digest state = EmptyString ->
        findBlock e (FromBlock block) = Some parentBlock ->
        resolveParentWithVisited fuel' e parentBlock ({[ID block]} ∪ visited) w
        = (Ok r1, v1, w1) ->
        RunBlock fuel' e (FromBlock block) unforced w1 = (Ok (), w2) ->
        forall state', LoadBlockState (FromBlock block) (store w2) = Ok state' ->
          resolveParentWithVisited fuel e block visited w
          = if is_empty (st_Digest state')
            then (Err (ErrStillNoDigest (FromBlock block)), visited, w2)
            else (parentReference e block (st_Digest state'), visited, w2)).
Proof.
  split; [by apply resolve_terminates|]. split.
  - intros ref digest Hresult.
    destruct (resolveParentWithVisited fuel e block visited w) as [[r v] w'] eqn:Hrun.
    simpl in *. subst r. by eapply resolve_unpinned_digest.
  - intros fuel' state parentBlock r1 v1 w1 w2 -> Hfresh Hstate Hdigest Hfind
      Hparent Hrun state' Hreload.
    rewrite (resolve_unbuilt_parent e fuel' block visited w state parentBlock); try done.
    rewrite Hparent, Hrun, Hreload. by destruct (is_empty (st_Digest state')).
Qed.

Lemma unpinned_parent_digest_witness :
  (resolveParentWithVisited 5 demoEngine demoApp ∅
     (freshWorld [inl "sha256:b1"%string])).1.1
  = Ok ("alpine:latest", "sha256:b1")%string
  /\ "sha256:b1"%string <> EmptyString
  /\ (resolveParentWithVisited 5 demoEngine demoApp ∅ (freshWorld [])).1.1
     = Err (ErrStillNoDigest "base").
Proof.
  assert (Hbuilt : (resolveParentWithVisited 5 demoEngine demoApp ∅
                      (freshWorld [inl "sha256:b1"%string])).1.1
                   = Ok ("alpine:latest", "sha256:b1")%string)
    by (vm_compute; reflexivity).
  destruct (unpinned_parent_digest demoEngine demoApp 5 ∅
              (freshWorld [inl "sha256:b1"%string]))
    as (_ & Hdigest & _); [reflexivity | discriminate | reflexivity | vm_compute; lia |].
  destruct (unpinned_parent_digest demoEngine demoApp 5 ∅ (freshWorld []))
    as (_ & _ & Hsteps); [reflexivity | discriminate | reflexivity | vm_compute; lia |].
  split; [exact Hbuilt|]. split; [exact (proj1 (Hdigest _ _ Hbuilt))|].
  pose (absent := {| st_ID := "base"; st_Status := StatusPending;
                     st_Digest := EmptyString; st_Hash := EmptyString;
                     st_Timestamp := 0; st_ExitCode := 0; st_Duration := 0;
                     st_Error := EmptyString |}).
  pose (parentRun := resolveParentWithVisited 4 demoEngine demoBase
                       ({[ID demoApp]} ∪ ∅) (freshWorld [])).
  pose (executed := RunBlock 4 demoEngine (FromBlock demoApp) unforced parentRun.2).
  assert (Hfresh : ID demoApp ∉ (∅ : gset string)) by apply not_elem_of_empty.
  assert (Hstate : loadParentState demoApp (freshWorld []) = Ok absent)
    by (vm_compute; reflexivity).
  assert (Hfind : findBlock demoEngine (FromBlock demoApp) = Some demoBase)
    by (vm_compute; reflexivity).
  assert (Hparent : resolveParentWithVisited 4 demoEngine demoBase
                      ({[ID demoApp]} ∪ ∅) (freshWorld [])
                    = (Ok ("alpine:latest", "sha256:alpine:latest")%string,
                       parentRun.1.2, parentRun.2))
    by (vm_compute; reflexivity).
  assert (Hrun : RunBlock 4 demoEngine (FromBlock demoApp) unforced parentRun.2
                 = (Ok (), executed.2))
    by (vm_compute; reflexivity).
  assert (Hreload : exists state',
            LoadBlockState (FromBlock demoApp) (store executed.2) = Ok state'
            /\ is_empty (st_Digest state') = true)
    by (eexists; split; vm_compute; reflexivity).
  destruct Hreload as (state' & Hreload & Hempty).
  pose proof (Hsteps 4%nat absent demoBase _ _ _ _ eq_refl Hfresh Hstate eq_refl
                Hfind Hparent Hrun state' Hreload) as Hresult.
  rewrite Hempty in Hresult.
  exact (f_equal (fun x => x.1.1) Hresult).
Defined.

Section RunFacts.
Context {R : Type} `{!Runtime R} (e : Engine).
Implicit Types (w : @World R) (block : Block) (s : Store).

Lemma LoadBlockState_saved id state s :
  LoadBlockState id (SaveBlockState id state s) = Ok state.
Proof. unfold LoadBlockState, SaveBlockState. simpl. by rewrite lookup_insert_eq. Qed.

(** Appending log chunks touches the logs only. *)
Lemma append_logs_frame id chunks s :
  let s' := fold_left (fun s chunk => AppendLogs id chunk s) chunks s in
  states s' = states s /\ successLogs s' = successLogs s /\ images s' = images s
  /\ history s' = history s /\ dockerfiles s' = dockerfiles s /\ cache s' = cache s.
Proof.
  revert s. induction chunks as [|chunk chunks IH]; intros s; simpl; [done|].
  destruct (IH (AppendLogs id chunk s)) as (-> & -> & -> & -> & -> & ->). done.
Qed.

(** A build never touches the block states, the logs of successful runs,
    the cache index or the record of cache writes; a failed build leaves
    the image digests, the history and the snapshots alone as well. *)
Lemma buildBlock_frame block ref w r w' :
  buildBlock e block ref w = (r, w') ->
  states (store w') = states (store w)
  /\ successLogs (store w') = successLogs (store w)
  /\ cache (store w') = cache (store w)
  /\ cacheSets w' = cacheSets w
  /\ (forall err, r = Err err ->
        images (store w') = images (store w)
        /\ history (store w') = history (store w)
        /\ dockerfiles (store w') = dockerfiles (store w)).
Proof.
  unfold buildBlock. destruct (rt_StageContext _ _ _ _) as [[msg|] d].
  { intros [= <- <-]. done. }
  unfold buildImageWithLogs.
  destruct (rt_ImageBuild _ _ _) as [[chunks [digest|msg]] d'] eqn:Hbuild; simpl.
  - intros [= <- <-]. simpl.
    destruct (append_logs_frame (ID block) chunks (store w))
      as (Hs & Hl & _ & _ & _ & Hc).
    unfold SaveDockerfileSnapshot. destruct (is_empty digest); simpl;
      rewrite Hs, Hl, Hc; done.
  - intros [= <- <-]. simpl.
    destruct (append_logs_frame (ID block) chunks (store w))
      as (Hs & Hl & Hi & Hh & Hd & Hc).
    rewrite Hs, Hl, Hc, Hi, Hh, Hd. done.
Qed.

(** What a run has done once the parent is resolved, read off the state
    it saved for the block. *)
Lemma runResolved_spec blockID block opts ref parentDigest w :
  let hash := ComputeBlockHash block parentDigest in
  let w' := (runResolved e blockID block opts ref parentDigest w).2 in
  exists state,
    LoadBlockState blockID (store w') = Ok state
    /\ st_Hash state = hash
    /\ match st_Status state with
       | StatusCached =>
           Force opts = false
           /\ GetCachedDigest (cache (store w)) hash = (st_Digest state, true)
           /\ w' = on_store (SaveBlockState blockID state) w
       | StatusFailed =>
           st_Digest state = EmptyString
           /\ (Force opts = false ->
               (GetCachedDigest (cache (store w)) hash).2 = false)
           /\ cache (store w') = cache (store w)
           /\ cacheSets w' = cacheSets w
           /\ successLogs (store w') = successLogs (store w)
           /\ images (store w') = images (store w)
           /\ history (store w') = history (store w)
           /\ dockerfiles (store w') = dockerfiles (store w)
       | StatusSuccess =>
           (Force opts = false ->
            (GetCachedDigest (cache (store w)) hash).2 = false)
           /\ cache (store w')
              = (SetCachedDigest (cache (store w)) hash (st_Digest state)).2
           /\ cacheSets w' = cacheSets w ++ [(hash, st_Digest state)]
       | _ => False
       end.
Proof.
  intros hash w'. subst w'. unfold runResolved. cbv zeta.
  change (ComputeBlockHash block parentDigest) with hash.
  assert (Hhit : forall cachedDigest,
            (if Force opts then None
             else match GetCachedDigest (cache (store w)) hash with
                  | (cachedDigest, true) => Some cachedDigest
                  | (_, false) => None
                  end) = Some cachedDigest ->
            Force opts = false
            /\ GetCachedDigest (cache (store w)) hash = (cachedDigest, true)).
  { intros cachedDigest. destruct (Force opts); [done|].
    destruct (GetCachedDigest _ _) as [d [|]]; [|done]. by intros [= ->]. }
  assert (Hmiss : (if Force opts then None
                   else match GetCachedDigest (cache (store w)) hash with
                        | (cachedDigest, true) => Some cachedDigest
                        | (_, false) => None
                        end) = None ->
                  Force opts = false ->
                  (GetCachedDigest (cache (store w)) hash).2 = false).
  { intros Hnone Hforce. rewrite Hforce in Hnone.
    by destruct (GetCachedDigest _ _) as [d [|]]. }
  destruct (if Force opts then None else _) as [cachedDigest|] eqn:Hlookup.
  - destruct (Hhit cachedDigest eq_refl) as [Hforce Hget].
    eexists. split; [apply LoadBlockState_saved|]. simpl. done.
  - specialize (Hmiss eq_refl).
    destruct (buildBlock _ _ _ _) as [[digest|err|] w1] eqn:Hbuild.
    + apply buildBlock_frame in Hbuild as (Hs & Hl & Hc & Hsets & _).
      simpl in Hs, Hl, Hc, Hsets.
      unfold setCached, SetCachedDigest, saveCache. simpl.
      eexists. split.
      { unfold LoadBlockState. simpl. by rewrite lookup_insert_eq. }
      split; [reflexivity|]. simpl. split; [done|].
      destruct (LoadLogs blockID (store w1)) as [l|?|]; [destruct (is_empty l)|..];
        simpl; rewrite Hc, Hsets; done.
    + apply buildBlock_frame in Hbuild as (Hs & Hl & Hc & Hsets & Hrest).
      destruct (Hrest err eq_refl) as (Hi & Hh & Hd).
      simpl in Hs, Hl, Hc, Hsets, Hi, Hh, Hd.
      eexists. split; [apply LoadBlockState_saved|]. simpl. done.
    + exfalso. eapply buildBlock_returns. by rewrite Hbuild.
Qed.

End RunFacts.

Section ResolutionEffects.
Context {R : Type} `{!Runtime R} (e : Engine).
Implicit Types (w : @World R) (block : Block) (visited : gset string).

(** Resolving an image parent pulls and inspects the image, and nothing
    else. *)
Lemma resolve_image_effects fuel block visited w r visited' w1 :
  From block <> EmptyString ->
  resolveParentWithVisited fuel e block visited w = (Ok r, visited', w1) ->
  store w1 = store w /\ cacheSets w1 = cacheSets w
  /\ calls w1 = calls w ++ [CallPull (From block); CallInspect (From block)].
Proof.
  intros Hfrom. destruct fuel as [|fuel]; [done|]. rewrite resolve_S.
  apply is_empty_false in Hfrom. rewrite Hfrom. simpl.
  unfold resolveImage, PullImage, InspectImage.
  destruct (rt_ImagePull _ _) as [[msg|] d]; simpl; [done|].
  destruct (rt_ImageInspect _ _) as [[digest|msg] d']; simpl; [|done].
  intros [= _ _ <-]. simpl. by rewrite <- app_assoc.
Qed.

(** Resolving a settled block parent (pinned, or with a stored digest)
    changes nothing at all. *)
Lemma resolve_settled_unchanged fuel block visited w r visited' w1 :
  From block = EmptyString -> settled block w ->
  resolveParentWithVisited fuel e block visited w = (r, visited', w1) ->
  w1 = w.
Proof.
  intros Hfrom Hsettled. destruct fuel as [|fuel]; [by intros [= _ _ <-]|].
  rewrite resolve_S. pose proof Hfrom as Hfrom'.
  apply is_empty_true in Hfrom. rewrite Hfrom. simpl.
  destruct (negb (is_empty (FromBlock block))) eqn:Hfb; [|by intros [= _ _ <-]].
  destruct (has visited (ID block)); [by intros [= _ _ <-]|].
  unfold resolveMarked.
  destruct (is_empty (FromBlockVersion block)) eqn:Hpin; simpl;
    [|by intros [= _ _ <-]].
  destruct (loadParentState block w) as [state|err|] eqn:Hstate;
    [|by intros [= _ _ <-]..].
  destruct (is_empty (st_Digest state)) eqn:Hdigest; [|by intros [= _ _ <-]].
  exfalso. apply is_empty_true in Hpin, Hdigest.
  apply negb_true_iff, is_empty_false in Hfb.
  destruct Hsettled as [?|[?|[?|Hstored]]]; try done. by apply (Hstored state).
Qed.

(** In both cases the store and the record of cache writes are as before. *)
Lemma resolve_settled_store fuel block visited w r visited' w1 :
  settled block w ->
  resolveParentWithVisited fuel e block visited w = (r, visited', w1) ->
  store w1 = store w /\ cacheSets w1 = cacheSets w.
Proof.
  intros Hsettled Hresolve.
  destruct (is_empty (From block)) eqn:Hfrom.
  - apply is_empty_true in Hfrom.
    by rewrite (resolve_settled_unchanged _ _ _ _ _ _ _ Hfrom Hsettled Hresolve).
  - destruct fuel as [|fuel]; [by injection Hresolve as _ _ <-|].
    rewrite resolve_S, Hfrom in Hresolve. simpl in Hresolve.
    unfold resolveImage, PullImage, InspectImage in Hresolve.
    destruct (rt_ImagePull _ _) as [[msg|] d]; simpl in Hresolve;
      [by injection Hresolve as _ _ <-|].
    destruct (rt_ImageInspect _ _) as [[digest|msg] d']; simpl in Hresolve;
      by injection Hresolve as _ _ <-.
Qed.

End ResolutionEffects.

(** C2 (as stated) fails: the parent is resolved before the cache is
    consulted, and resolving an image parent pulls and inspects the image.
    Here [base] is in the cache, the unforced run ends [cached], and it has
    invoked a pull. *)
Lemma cache_hit_pulls :
  GetCachedDigest (cache (store builtOnce))
    (ComputeBlockHash demoBase "sha256:alpine:latest")
  = ("sha256:b1"%string, true)
  /\ (RunBlock 5 demoEngine "base" unforced builtOnce).1 = Ok ()
  /\ status_of "base" (RunBlock 5 demoEngine "base" unforced builtOnce).2
     = Some StatusCached
  /\ calls (RunBlock 5 demoEngine "base" unforced builtOnce).2
     = calls builtOnce ++ [CallPull "alpine:latest"; CallInspect "alpine:latest"].
Proof. repeat split; vm_compute; reflexivity. Qed.

(** C2 (amended).  In an unforced run whose hash is in the cache index
    once the parent is resolved, [RunBlock] does nothing after the
    resolution but save the block state with status [cached], the hit
    digest and the computed hash, and returns success: no build, no
    further runtime operation.  The resolution itself pulls and inspects
    the image of an image parent (and nothing else), and invokes nothing
    for a pinned parent or a parent block that has a stored digest. *)
Theorem cache_hit_run {R : Type} `{!Runtime R} (e : Engine) (fuel : nat)
    (blockID : string) (opts : RunOptions) (w w1 : @World R) (block : Block)
    (ref parentDigest digest : string) (visited : gset string)
    (Hforce : Force opts = false)
    (Hfind : findBlock e blockID = Some block)
    (Hresolve : resolveParentWithVisited fuel e block ∅ w
                = (Ok (ref, parentDigest), visited, w1))
    (Hhit : GetCachedDigest (cache (store w1)) (ComputeBlockHash block parentDigest)
            = (digest, true)) :
  RunBlock (S fuel) e blockID opts w
  = (Ok (), on_store (SaveBlockState blockID
              (cachedState blockID (ComputeBlockHash block parentDigest) digest (now w1)))
              w1)
  /\ (From block <> EmptyString ->
      store w1 = store w
      /\ calls w1 = calls w ++ [CallPull (From block); CallInspect (From block)])
  /\ (From block = EmptyString -> settled block w -> w1 = w).
Proof.
  split; [|split].
  - rewrite RunBlock_S, Hfind, Hresolve. unfold runResolved.
    by rewrite Hforce, Hhit.
  - intros Hfrom.
    by destruct (resolve_image_effects e _ _ _ _ _ _ _ Hfrom Hresolve) as (? & _ & ?).
  - intros Hfrom Hsettled. by eapply resolve_settled_unchanged.
Qed.

Lemma cache_hit_run_witness :
  RunBlock 5 demoEngine "base" unforced builtOnce
  = (Ok (), on_store (SaveBlockState "base"
              (cachedState "base" (ComputeBlockHash demoBase "sha256:alpine:latest")
                 "sha256:b1" (now hitResolved.2)))
              hitResolved.2)
  /\ calls hitResolved.2
     = calls builtOnce ++ [CallPull "alpine:latest"; CallInspect "alpine:latest"].
Proof.
  assert (Hfind : findBlock demoEngine "base" = Some demoBase)
    by (vm_compute; reflexivity).
  assert (Hresolve : resolveParentWithVisited 4 demoEngine demoBase ∅ builtOnce
                     = (Ok ("alpine:latest", "sha256:alpine:latest")%string,
                        hitResolved.1.2, hitResolved.2))
    by (vm_compute; reflexivity).
  assert (Hhit : GetCachedDigest (cache (store hitResolved.2))
                   (ComputeBlockHash demoBase "sha256:alpine:latest")
                 = ("sha256:b1"%string, true))
    by (vm_compute; reflexivity).
  assert (Himage : From demoBase <> EmptyString) by discriminate.
  destruct (cache_hit_run demoEngine 4 "base" unforced builtOnce hitResolved.2 demoBase
              "alpine:latest" "sha256:alpine:latest" "sha256:b1" hitResolved.1.2
              eq_refl Hfind Hresolve Hhit) as (Hrun & Hpull & _).
  split; [exact Hrun | exact (proj2 (Hpull Himage))].
Defined.




(** C4 (as stated) fails: resolving an unbuilt parent block runs that
    block, and its run writes the cache on its own success.  Here the run
    of [app] builds [base] first and then fails to build [app]: it ends
    [failed], and the cache index, empty before, holds an entry
    afterwards. *)
Lemma failed_run_writes_cache :
  (RunBlock 5 demoEngine "app" unforced parentThenFailure).1 = Ok ()
  /\ status_of "app" (RunBlock 5 demoEngine "app" unforced parentThenFailure).2
     = Some StatusFailed
  /\ cacheSets parentThenFailure = []
  /\ cacheSets (RunBlock 5 demoEngine "app" unforced parentThenFailure).2
     = [(ComputeBlockHash demoBase "sha256:alpine:latest", "sha256:b1"%string)]
  /\ GetCachedDigest (cache (store parentThenFailure))
       (ComputeBlockHash demoBase "sha256:alpine:latest")
     = (EmptyString, false)
  /\ GetCachedDigest
       (cache (store (RunBlock 5 demoEngine "app" unforced parentThenFailure).2))
       (ComputeBlockHash demoBase "sha256:alpine:latest")
     = ("sha256:b1"%string, true).
Proof. repeat split; vm_compute; reflexivity. Qed.

(** C4 (amended).  The steps of an invocation of [RunBlock] that follow
    the resolution of the parent call [SetCachedDigest] exactly when the
    invocation ends with status [success], once, for its own hash and
    digest; after it that hash maps to the new digest, whatever it mapped
    to before.  An invocation that ends otherwise ([failed], [cached], or
    an error before the cache check) performs no cache write of its own
    and leaves the index as its parent resolution left it, which is as it
    found it whenever the parent needed no execution. *)
Theorem cache_set_iff_success {R : Type} `{!Runtime R} (e : Engine) (fuel : nat)
    (blockID : string) (opts : RunOptions) (w : @World R) :
  let w' := (RunBlock (S fuel) e blockID opts w).2 in
  match findBlock e blockID with
  | None => w' = w
  | Some block =>
      let resolved := resolveParentWithVisited fuel e block ∅ w in
      let w1 := resolved.2 in
      (settled block w -> cache (store w1) = cache (store w)
                          /\ cacheSets w1 = cacheSets w)
      /\ match resolved.1.1 with
         | Ok (ref, parentDigest) =>
             let hash := ComputeBlockHash block parentDigest in
             exists state,
               LoadBlockState blockID (store w') = Ok state
               /\ (st_Status state = StatusSuccess ->
                   cacheSets w' = cacheSets w1 ++ [(hash, st_Digest state)]
                   /\ cache (store w')
                      = (SetCachedDigest (cache (store w1)) hash (st_Digest state)).2
                   /\ GetCachedDigest (cache (store w')) hash = (st_Digest state, true))
               /\ (st_Status state <> StatusSuccess ->
                   cacheSets w' = cacheSets w1 /\ cache (store w') = cache (store w1))
         | _ => w' = w1
         end
  end.
Proof.
  intros w'. subst w'. rewrite RunBlock_S.
  destruct (findBlock e blockID) as [block|]; [|done].
  cbv zeta.
  destruct (resolveParentWithVisited fuel e block ∅ w) as [[r v] w1] eqn:Hresolve.
  split.
  { intros Hsettled. simpl.
    destruct (resolve_settled_store e _ _ _ _ _ _ _ Hsettled Hresolve) as [-> ->].
    done. }
  destruct r as [[ref parentDigest]|err|]; [|done..]. cbv beta iota. simpl fst. simpl snd.
  destruct (runResolved_spec e blockID block opts ref parentDigest w1)
    as (state & Hload & Hhash & Hstatus).
  exists state. split; [exact Hload|].
  destruct (st_Status state); try done.
  - destruct Hstatus as (_ & _ & ->). split; [done|]. intros _. done.
  - destruct Hstatus as (_ & Hcache & Hsets). split; [|done].
    intros _. split; [done|]. split; [done|].
    rewrite Hcache. apply SetCachedDigest_get.
  - destruct Hstatus as (_ & _ & Hcache & Hsets & _). split; [done|]. intros _. done.
Qed.

Lemma cache_set_iff_success_witness :
  GetCachedDigest (cache (store bothBuilt))
    (ComputeBlockHash demoBase "sha256:alpine:latest")
  = ("sha256:b1"%string, true)
  /\ LoadBlockState "base" (store (RunBlock 5 demoEngine "base" forced bothBuilt).2)
     = Ok baseRebuiltState
  /\ cacheSets (RunBlock 5 demoEngine "base" forced bothBuilt).2
     = cacheSets rebuildResolved.2
       ++ [(ComputeBlockHash demoBase "sha256:alpine:latest", st_Digest baseRebuiltState)]
  /\ GetCachedDigest (cache (store (RunBlock 5 demoEngine "base" forced bothBuilt).2))
       (ComputeBlockHash demoBase "sha256:alpine:latest")
     = (st_Digest baseRebuiltState, true).
Proof.
  assert (Hbefore : GetCachedDigest (cache (store bothBuilt))
                      (ComputeBlockHash demoBase "sha256:alpine:latest")
                    = ("sha256:b1"%string, true))
    by (vm_compute; reflexivity).
  assert (Hfind : findBlock demoEngine "base" = Some demoBase)
    by (vm_compute; reflexivity).
  assert (Hresolve : resolveParentWithVisited 4 demoEngine demoBase ∅ bothBuilt
                     = (Ok ("alpine:latest", "sha256:alpine:latest")%string,
                        rebuildResolved.1.2, rebuildResolved.2))
    by (vm_compute; reflexivity).
  assert (Hstate : LoadBlockState "base"
                     (store (RunBlock 5 demoEngine "base" forced bothBuilt).2)
                   = Ok baseRebuiltState)
    by (vm_compute; reflexivity).
  pose proof (cache_set_iff_success demoEngine 4 "base" forced bothBuilt) as Hrun.
  cbv zeta in Hrun. rewrite Hfind, Hresolve in Hrun. cbn [fst snd] in Hrun.
  destruct Hrun as (_ & state & Hload & Hsuccess & _).
  rewrite Hstate in Hload. injection Hload as <-.
  destruct (Hsuccess eq_refl) as (Hsets & _ & Hafter).
  split; [exact Hbefore|]. split; [exact Hstate|]. split; [exact Hsets | exact Hafter].
Defined.

(* ================================================================== *)
(** * Further properties of the store, the cache and the engine *)

(** ** State store *)

(** X1.  A saved block state is loaded back unchanged, and saving the
    state of one block leaves the state of every other block as it was. *)
Theorem BlockState_round_trip (id id' : string) (state : BlockState) (s : Store)
    (Hother : id' <> id) :
  LoadBlockState id (SaveBlockState id state s) = Ok state
  /\ LoadBlockState id' (SaveBlockState id state s) = LoadBlockState id' s.
Proof.
  split; [apply LoadBlockState_saved|].
  unfold LoadBlockState, SaveBlockState. simpl. by rewrite lookup_insert_ne.
Qed.

Lemma BlockState_round_trip_witness :
  "other"%string <> "test-block"%string
  /\ LoadBlockState "test-block" (SaveBlockState "test-block" sampleState emptyStore)
     = Ok sampleState
  /\ LoadBlockState "other" (SaveBlockState "test-block" sampleState emptyStore)
     = LoadBlockState "other" emptyStore.
Proof.
  assert (Hne : "other"%string <> "test-block"%string) by discriminate.
  split; [exact Hne|].
  exact (BlockState_round_trip "test-block" "other" sampleState emptyStore Hne).
Defined.

Lemma string_app_assoc (a b c : string) : ((a +:+ b) +:+ c = a +:+ (b +:+ c))%string.
Proof.
  induction a as [|x a IH]; [done|].
  change (String x ((a +:+ b) +:+ c) = String x (a +:+ (b +:+ c))). by f_equal.
Qed.

Lemma string_app_nil_r (a : string) : (a +:+ EmptyString)%string = a.
Proof.
  induction a as [|x a IH]; [done|].
  change (String x (a +:+ EmptyString) = String x a). by f_equal.
Qed.

Lemma AppendLogs_fold id chunks s l :
  logs s !! id = Some l ->
  logs (fold_left (fun s chunk => AppendLogs id chunk s) chunks s) !! id
  = Some (l +:+ fold_right String.append EmptyString chunks)%string.
Proof.
  revert s l. induction chunks as [|chunk chunks IH]; intros s l Hl; simpl.
  - by rewrite Hl, string_app_nil_r.
  - rewrite (IH _ (l +:+ chunk)%string).
    + by rewrite string_app_assoc.
    + unfold AppendLogs. simpl. by rewrite lookup_insert_eq, Hl.
Qed.

Lemma AppendLogs_fold_other id id' chunks s :
  id' <> id ->
  logs (fold_left (fun s chunk => AppendLogs id chunk s) chunks s) !! id'
  = logs s !! id'.
Proof.
  intros Hne. revert s. induction chunks as [|chunk chunks IH]; intros s; simpl; [done|].
  rewrite IH. unfold AppendLogs. simpl. by rewrite lookup_insert_ne.
Qed.

(** X2.  After [ClearLogs], the chunks appended one by one read back as
    their concatenation, in order; the log of another block is untouched. *)
Theorem logs_accumulate (id id' : string) (chunks : list string) (s : Store)
    (Hother : id' <> id) :
  let s' := fold_left (fun s chunk => AppendLogs id chunk s) chunks (ClearLogs id s) in
  LoadLogs id s' = Ok (fold_right String.append EmptyString chunks)
  /\ LoadLogs id' s' = LoadLogs id' s.
Proof.
  intros s'. subst s'. unfold LoadLogs. split.
  - rewrite (AppendLogs_fold _ _ _ EmptyString); [done|].
    unfold ClearLogs. simpl. apply lookup_insert_eq.
  - rewrite AppendLogs_fold_other by done.
    unfold ClearLogs. simpl. by rewrite lookup_insert_ne.
Qed.

Lemma logs_accumulate_witness :
  "app"%string <> "base"%string
  /\ LoadLogs "base"
       (fold_left (fun s chunk => AppendLogs "base" chunk s) ["Step 1/2"; " done"]%string
          (ClearLogs "base" storeWithLogs))
     = Ok "Step 1/2 done"%string.
Proof.
  assert (Hne : "app"%string <> "base"%string) by discriminate.
  split; [exact Hne|].
  exact (proj1 (logs_accumulate "base" "app" ["Step 1/2"; " done"]%string
                  storeWithLogs Hne)).
Defined.

Lemma decodeRecords_intact lines more :
  intact lines -> decodeRecords (lines ++ more) = decodeRecords lines ++ decodeRecords more.
Proof.
  induction 1 as [|[|rec] lines Hline Hlines IH]; [done..|]. simpl. by rewrite IH.
Qed.

Lemma decodeRecords_damaged lines more :
  ~ intact lines -> decodeRecords (lines ++ more) = decodeRecords lines.
Proof.
  induction lines as [|[|rec] lines IH]; intros Hdamaged.
  - destruct Hdamaged. constructor.
  - done.
  - simpl. rewrite IH; [done|]. intros Hlines. apply Hdamaged.
    by constructor.
Qed.

(** X3.  The image history of a block is append-only: [SaveImageHistory]
    adds one record at the end of the file (a missing file counts as
    empty) and leaves the history of every other block alone.  The record
    is read back after the records already there as long as every record
    of the file decodes; once the file holds a record that does not decode,
    [LoadImageHistory] stops there without an error and returns after the
    save what it returned before it. *)
Theorem history_appends (id id' : string) (rec : ImageRecord) (s : Store)
    (Hother : id' <> id) :
  history (SaveImageHistory id rec s) !! id
  = Some (default [] (history s !! id) ++ [Content rec])
  /\ (intact (default [] (history s !! id)) ->
      LoadImageHistory id (SaveImageHistory id rec s)
      = Ok (match LoadImageHistory id s with Ok recs => recs | _ => [] end ++ [rec]))
  /\ (~ intact (default [] (history s !! id)) ->
      LoadImageHistory id (SaveImageHistory id rec s) = LoadImageHistory id s)
  /\ LoadImageHistory id' (SaveImageHistory id rec s) = LoadImageHistory id' s.
Proof.
  unfold LoadImageHistory, SaveImageHistory. simpl.
  rewrite lookup_insert_eq, lookup_insert_ne by done.
  split; [done|]. split; [|split; [|done]].
  - intros Hintact. rewrite decodeRecords_intact by done.
    by destruct (history s !! id).
  - intros Hdamaged. rewrite decodeRecords_damaged by done.
    destruct (history s !! id); [done|]. destruct Hdamaged. constructor.
Qed.

Lemma history_appends_witness :
  "app"%string <> "base"%string
  /\ LoadImageHistory "base"
       (SaveImageHistory "base" (baseRecord "dockstep-base-2" "sha256:second" 2)
          storeWithLogs)
     = Ok (match LoadImageHistory "base" storeWithLogs with
           | Ok recs => recs
           | _ => []
           end ++ [baseRecord "dockstep-base-2" "sha256:second" 2])
  /\ LoadImageHistory "base"
       (SaveImageHistory "base" (baseRecord "dockstep-base-2" "sha256:second" 2)
          damagedStore)
     = LoadImageHistory "base" damagedStore
  /\ LoadImageHistory "base" damagedStore
     = Ok [baseRecord "dockstep-base-1" "sha256:first" 1].
Proof.
  assert (Hne : "app"%string <> "base"%string) by discriminate.
  assert (Hintact : intact (default [] (history storeWithLogs !! "base"%string))).
  { vm_compute. repeat constructor. discriminate. }
  assert (Hdamaged : ~ intact (default [] (history damagedStore !! "base"%string))).
  { vm_compute. intros Hall. apply Forall_cons in Hall as [_ Hall].
    apply Forall_cons in Hall as [Hline _]. by apply Hline. }
  split; [exact Hne|]. split; [|split; [|reflexivity]].
  - exact (proj1 (proj2 (history_appends "base" "app"
                           (baseRecord "dockstep-base-2" "sha256:second" 2)
                           storeWithLogs Hne)) Hintact).
  - exact (proj1 (proj2 (proj2 (history_appends "base" "app"
                                  (baseRecord "dockstep-base-2" "sha256:second" 2)
                                  damagedStore Hne))) Hdamaged).
Defined.

(** X4.  A Dockerfile snapshot saved under a non-empty digest is loaded
    back unchanged; an empty digest is refused by the save (which writes
    nothing) and by the load. *)
Theorem snapshot_round_trip (digest content : string) (s : Store) :
  (digest <> EmptyString ->
   exists s', saveSnapshot digest content s = Some s'
              /\ SaveDockerfileSnapshot digest content s = s'
              /\ LoadDockerfileSnapshot digest s' = Some content)
  /\ saveSnapshot EmptyString content s = None
  /\ SaveDockerfileSnapshot EmptyString content s = s
  /\ LoadDockerfileSnapshot EmptyString s = None.
Proof.
  split; [|done]. intros Hne. apply is_empty_false in Hne.
  unfold saveSnapshot, SaveDockerfileSnapshot, LoadDockerfileSnapshot. rewrite Hne.
  eexists. split; [done|]. split; [done|]. simpl. apply lookup_insert_eq.
Qed.

Lemma snapshot_round_trip_witness :
  exists s', saveSnapshot "sha256:abc123" "FROM alpine" emptyStore = Some s'
             /\ SaveDockerfileSnapshot "sha256:abc123" "FROM alpine" emptyStore = s'
             /\ LoadDockerfileSnapshot "sha256:abc123" s' = Some "FROM alpine"%string.
Proof.
  apply (proj1 (snapshot_round_trip "sha256:abc123" "FROM alpine" emptyStore)).
  discriminate.
Defined.

Lemma Cleanup_fold ids s :
  let s' := fold_left removeBlockFiles ids s in
  (forall x, states s' !! x = if bool_decide (x ∈ ids) then None else states s !! x)
  /\ (forall x, logs s' !! x = if bool_decide (x ∈ ids) then None else logs s !! x)
  /\ (forall x, images s' !! x = if bool_decide (x ∈ ids) then None else images s !! x)
  /\ history s' = history s /\ successLogs s' = successLogs s
  /\ dockerfiles s' = dockerfiles s /\ cache s' = cache s.
Proof.
  revert s. induction ids as [|id ids IH]; intros s; simpl; [done|].
  destruct (IH (removeBlockFiles s id)) as (Hs & Hl & Hi & Hh & Hsl & Hd & Hc).
  assert (Hcase : forall (V : Type) (m : gmap string V) x,
            (if bool_decide (x ∈ ids) then None else delete id m !! x)
            = if bool_decide (x ∈ id :: ids) then None else m !! x).
  { intros V m x. destruct (decide (x = id)) as [->|Hne].
    - rewrite lookup_delete_eq. rewrite (bool_decide_eq_true_2 (id ∈ id :: ids));
        [by case_bool_decide | left].
    - rewrite lookup_delete_ne by done.
      destruct (decide (x ∈ ids)) as [Hin|Hnin].
      + rewrite !bool_decide_eq_true_2; [done | by right | done].
      + rewrite !bool_decide_eq_false_2; [done | | done].
        intros [?|?]%elem_of_cons; done. }
  repeat split.
  - intros x. rewrite Hs. apply Hcase.
  - intros x. rewrite Hl. apply Hcase.
  - intros x. rewrite Hi. apply Hcase.
  - by rewrite Hh.
  - by rewrite Hsl.
  - by rewrite Hd.
  - by rewrite Hc.
Qed.



Lemma loadStates_spec names s acc :
  (forall id, id ∈ names -> exists state, states s !! id = Some (Content state)) ->
  exists result, loadStates names s acc = inr result
    /\ forall id, result !! id
         = if bool_decide (id ∈ names)
           then match states s !! id with Some (Content state) => Some state | _ => None end
           else acc !! id.
Proof.
  revert acc. induction names as [|name names IH]; intros acc Hall.
  - exists acc. split; [done|]. intros id. case_bool_decide as Hin; [|done].
    by apply elem_of_nil in Hin.
  - destruct (Hall name ltac:(left)) as [state Hstate].
    destruct (IH (<[name := state]> acc)) as (result & Hrun & Hlook).
    { intros id Hin. apply Hall. by right. }
    exists result. split.
    { simpl. unfold LoadBlockState at 1. by rewrite Hstate. }
    intros id. rewrite Hlook.
    destruct (decide (id = name)) as [->|Hne].
    + rewrite lookup_insert_eq, Hstate. by repeat case_bool_decide; set_solver.
    + rewrite lookup_insert_ne by done. repeat case_bool_decide; set_solver.
Qed.

Lemma loadStates_corrupt names s acc id :
  id ∈ names -> states s !! id = Some Corrupt ->
  exists id' err, loadStates names s acc = inl (id', err).
Proof.
  revert acc. induction names as [|name names IH]; intros acc Hin Hbad; simpl.
  { by apply elem_of_nil in Hin. }
  unfold LoadBlockState at 1.
  destruct (states s !! name) as [[|state]|] eqn:Hname; [eauto| |eauto].
  apply elem_of_cons in Hin as [->|Hin]; [congruence|]. by apply IH.
Qed.

(** X6.  [GetBlockStates] returns exactly the states stored, one per state
    file, when every state file decodes; a single state file that does not
    decode makes the whole call fail, whatever the other files hold. *)
Theorem GetBlockStates_all_or_nothing (names : list string) (s : Store)
    (Hlisting : state_listing s names) :
  ((forall id, states s !! id <> Some Corrupt) ->
   exists result, GetBlockStates names s = inr result
     /\ forall id, result !! id = match LoadBlockState id s with
                                  | Ok state => Some state
                                  | _ => None
                                  end)
  /\ (forall id, states s !! id = Some Corrupt ->
        exists id' err, GetBlockStates names s = inl (id', err)).
Proof.
  destruct Hlisting as [_ Hnames]. split.
  - intros Hclean. unfold GetBlockStates.
    destruct (loadStates_spec names s ∅) as (result & Hrun & Hlook).
    { intros id [file Hfile]%Hnames. destruct file as [|state]; [|eauto].
      by destruct (Hclean id). }
    exists result. split; [done|]. intros id. rewrite Hlook. unfold LoadBlockState.
    case_bool_decide as Hin.
    + by destruct (states s !! id) as [[|state]|].
    + rewrite lookup_empty. destruct (states s !! id) as [file|] eqn:Hfile; [|done].
      exfalso. apply Hin, Hnames. eauto.
  - intros id Hbad. apply (loadStates_corrupt names s ∅ id); [|done].
    apply Hnames. eauto.
Qed.

Lemma GetBlockStates_all_or_nothing_witness :
  state_listing storeWithLogs ["base"%string]
  /\ exists result, GetBlockStates ["base"%string] storeWithLogs = inr result
       /\ result !! "base"%string = Some sampleState.
Proof.
  assert (Hlisting : state_listing storeWithLogs ["base"%string]).
  { split; [apply NoDup_singleton|]. intros id. split.
    - intros ->%list_elem_of_singleton. by eexists.
    - intros [file Hfile]. apply list_elem_of_singleton.
      destruct (decide (id = "base"%string)) as [->|Hne]; [done|].
      unfold storeWithLogs in Hfile. simpl in Hfile.
      rewrite lookup_insert_ne in Hfile by done. by rewrite lookup_empty in Hfile. }
  split; [exact Hlisting|].
  destruct (proj1 (GetBlockStates_all_or_nothing ["base"%string] storeWithLogs Hlisting))
    as (result & Hrun & Hlook).
  { intros id. destruct (decide (id = "base"%string)) as [->|Hne]; [done|].
    unfold storeWithLogs. simpl. rewrite lookup_insert_ne by done.
    by rewrite lookup_empty. }
  exists result. split; [exact Hrun|]. by rewrite Hlook.
Defined.

(** ** Cache index *)

(** X7.  On an index that loads, [SetCachedDigest] adds one entry when the
    hash is new and replaces the entry otherwise: [GetCacheStats] grows by
    one for a new hash and stays the same for a known one. *)
Theorem GetCacheStats_after_Set (f : CacheFile) (entries : gmap string CacheEntry)
    (h d : string) (Hloads : loadCache f = Ok entries) :
  GetCacheStats f = Ok (size entries)
  /\ GetCacheStats (SetCachedDigest f h d).2
     = Ok (match entries !! h with
           | Some _ => size entries
           | None => S (size entries)
           end).
Proof.
  unfold GetCacheStats, SetCachedDigest, saveCache. rewrite Hloads. simpl.
  split; [done|]. f_equal. destruct (entries !! h) as [entry|] eqn:Hh.
  - by erewrite map_size_insert_Some.
  - by rewrite map_size_insert_None.
Qed.

Lemma GetCacheStats_after_Set_witness :
  GetCacheStats FileMissing = Ok 0%nat
  /\ GetCacheStats (SetCachedDigest FileMissing "hash1" "digest1").2 = Ok 1%nat.
Proof.
  exact (GetCacheStats_after_Set FileMissing ∅ "hash1" "digest1" eq_refl).
Defined.

(** X8.  Clearing a cache index that exists succeeds and leaves an empty
    cache: no hash is found and the entry count is zero. *)
Theorem ClearCache_empties (f : CacheFile) (h : string) (Hexists : f <> FileMissing) :
  (ClearCache f).1 = None
  /\ GetCachedDigest (ClearCache f).2 h = (EmptyString, false)
  /\ GetCacheStats (ClearCache f).2 = Ok 0%nat.
Proof. destruct f; done. Qed.

Lemma ClearCache_empties_witness :
  (ClearCache (SetCachedDigest FileMissing "hash1" "digest1").2).1 = None
  /\ GetCachedDigest (ClearCache (SetCachedDigest FileMissing "hash1" "digest1").2).2
       "hash1"
     = (EmptyString, false)
  /\ GetCacheStats (ClearCache (SetCachedDigest FileMissing "hash1" "digest1").2).2
     = Ok 0%nat.
Proof.
  apply (ClearCache_empties (SetCachedDigest FileMissing "hash1" "digest1").2 "hash1").
  discriminate.
Defined.

(** X9.  An index file that does not decode makes [GetCacheStats] fail and
    every lookup miss; the next [SetCachedDigest] replaces it by an index
    holding the new entry only. *)
Theorem Set_replaces_undecodable (h d h' : string) :
  GetCacheStats FileGarbage = Err (ErrDecode cachePath)
  /\ GetCachedDigest FileGarbage h' = (EmptyString, false)
  /\ (SetCachedDigest FileGarbage h d).1 = None
  /\ GetCacheStats (SetCachedDigest FileGarbage h d).2 = Ok 1%nat
  /\ GetCachedDigest (SetCachedDigest FileGarbage h d).2 h = (d, true).
Proof.
  repeat split.
  - unfold GetCacheStats, SetCachedDigest, saveCache. simpl.
    by rewrite map_size_insert_None, map_size_empty by apply lookup_empty.
  - apply SetCachedDigest_get.
Qed.

(** X10.  Successive [SetCachedDigest] calls compose as map updates: a
    second set of the same hash overrides the first, and sets of different
    hashes give the same index in either order. *)
Theorem SetCachedDigest_composes (f : CacheFile) (h1 h2 d1 d2 : string)
    (Hdistinct : h1 <> h2) :
  (SetCachedDigest (SetCachedDigest f h1 d1).2 h1 d2).2 = (SetCachedDigest f h1 d2).2
  /\ (SetCachedDigest (SetCachedDigest f h1 d1).2 h2 d2).2
     = (SetCachedDigest (SetCachedDigest f h2 d2).2 h1 d1).2.
Proof.
  unfold SetCachedDigest, saveCache. simpl. split; f_equal.
  - apply insert_insert_eq.
  - by apply insert_insert_ne.
Qed.

Lemma SetCachedDigest_composes_witness :
  "hash1"%string <> "hash2"%string
  /\ (SetCachedDigest (SetCachedDigest FileGarbage "hash1" "digest1").2
        "hash1" "digest2").2
     = (SetCachedDigest FileGarbage "hash1" "digest2").2.
Proof.
  assert (Hne : "hash1"%string <> "hash2"%string) by discriminate.
  split; [exact Hne|].
  exact (proj1 (SetCachedDigest_composes FileGarbage "hash1" "hash2"
                  "digest1" "digest2" Hne)).
Defined.

(** ** RunUp *)

Section RunUpFacts.
Context {R : Type} `{!Runtime R} (e : Engine).
Implicit Types (w : @World R) (block : Block).

Lemma runBlocks_options fuel opts opts' blocks w :
  up_Force opts = up_Force opts' -> ContinueOnError opts = ContinueOnError opts' ->
  runBlocks fuel e opts blocks w = runBlocks fuel e opts' blocks w.
Proof.
  intros Hforce Hcontinue. revert w.
  induction blocks as [|block rest IH]; intros w; simpl; [done|].
  rewrite Hforce, Hcontinue.
  destruct (RunBlock fuel e (ID block) _ w) as [[[]|err|] w1]; [apply IH| |done].
  destruct (negb (ContinueOnError opts')); [done | apply IH].
Qed.

Lemma runBlocks_continue fuel opts blocks w :
  ContinueOnError opts = true -> (enough e <= fuel)%nat ->
  (runBlocks fuel e opts blocks w).1 = UpDone.
Proof.
  intros Hcontinue Hfuel. revert w.
  induction blocks as [|block rest IH]; intros w; simpl; [done|].
  pose proof (RunBlock_terminates e fuel (ID block)
                {| Force := up_Force opts; KeepContainer := false |} w Hfuel) as Hreturns.
  destruct (RunBlock fuel e (ID block) _ w) as [[[]|err|] w1]; [apply IH| |done].
  rewrite Hcontinue. apply IH.
Qed.

(** The loop stops at the first block whose run returns an error. *)
Lemma runBlocks_failure fuel opts blocks w w' id err :
  runBlocks fuel e opts blocks w = (UpBlockFailed id err, w') ->
  ContinueOnError opts = false
  /\ exists before block after w0,
       blocks = before ++ block :: after
       /\ ID block = id
       /\ runBlocks fuel e opts before w = (UpDone, w0)
       /\ RunBlock fuel e id {| Force := up_Force opts; KeepContainer := false |} w0
          = (Err err, w').
Proof.
  revert w. induction blocks as [|block rest IH]; intros w; simpl; [done|].
  destruct (RunBlock fuel e (ID block) _ w) as [[[]|err0|] w1] eqn:Hrun.
  - intros Hrest. apply IH in Hrest
      as (Hstop & before & failing & after & w0 & -> & Hid & Hbefore & Hfailing).
    split; [done|]. exists (block :: before), failing, after, w0.
    split; [done|]. split; [done|]. split; [|done]. simpl. by rewrite Hrun.
  - destruct (ContinueOnError opts) eqn:Hcontinue; simpl.
    + intros Hrest. by apply IH in Hrest as (? & _).
    + intros [= <- <- <-]. split; [done|]. exists [], block, rest, w. done.
  - done.
Qed.

End RunUpFacts.

(** X11.  With [ContinueOnError], [RunUp] returns [nil] whatever happens to
    the blocks, for every project, start block and stored state. *)
Theorem RunUp_continue_on_error {R : Type} `{!Runtime R} (e : Engine) (fuel : nat)
    (opts : UpOptions) (w : @World R)
    (Hcontinue : ContinueOnError opts = true)
    (Hfuel : (enough e <= fuel)%nat) :
  (RunUp fuel e opts w).1 = UpDone.
Proof. unfold RunUp. by apply runBlocks_continue. Qed.

Lemma RunUp_continue_on_error_witness :
  (RunUp 5 (engineOf cycleProject) (upAll true) (freshWorld [])).1 = UpDone.
Proof.
  apply (RunUp_continue_on_error (engineOf cycleProject) 5 (upAll true) (freshWorld []));
    [reflexivity | vm_compute; lia].
Defined.

(** X12.  A start block that no block of the project is called is ignored:
    [RunUp] then runs every block, from the first, as without start block.
    A start block that exists makes the loop begin at the first block with
    that id. *)
Theorem RunUp_start {R : Type} `{!Runtime R} (e : Engine) (fuel : nat)
    (opts : UpOptions) (w : @World R) :
  ((forall block, block ∈ Blocks (project e) -> ID block <> up_FromBlock opts) ->
   RunUp fuel e opts w = runBlocks fuel e opts (Blocks (project e)) w
   /\ RunUp fuel e opts w
      = RunUp fuel e {| up_Force := up_Force opts; up_FromBlock := EmptyString;
                        ContinueOnError := ContinueOnError opts |} w)
  /\ (forall block, block ∈ Blocks (project e) -> ID block = up_FromBlock opts ->
      up_FromBlock opts <> EmptyString ->
      exists i first,
        Blocks (project e) !! i = Some first /\ ID first = up_FromBlock opts
        /\ (forall j earlier, Blocks (project e) !! j = Some earlier -> (j < i)%nat ->
              ID earlier <> up_FromBlock opts)
        /\ RunUp fuel e opts w
           = runBlocks fuel e opts (drop i (Blocks (project e))) w).
Proof.
  split.
  - intros Hunknown.
    assert (Hstart : startIndex e opts = O).
    { unfold startIndex. destruct (negb (is_empty (up_FromBlock opts))); [|done].
      destruct (list_find _ _) as [[i found]|] eqn:Hfind; [|done].
      apply list_find_Some in Hfind as (Hi & Hid & _).
      exfalso. eapply Hunknown; [|exact Hid]. apply list_elem_of_lookup. eauto. }
    unfold RunUp at 1 2. rewrite Hstart. simpl. split; [done|].
    unfold RunUp, startIndex. simpl. by apply runBlocks_options.
  - intros block Hin Hid Hset. unfold RunUp, startIndex.
    apply is_empty_false in Hset. rewrite Hset. simpl.
    destruct (list_find _ _) as [[i found]|] eqn:Hfind.
    + apply list_find_Some in Hfind as (Hi & Hfound & Hfirst).
      exists i, found. split; [done|]. split; [done|]. split; [|done].
      intros j earlier Hj Hlt. by eapply Hfirst.
    + apply list_find_None in Hfind. exfalso.
      rewrite Forall_forall in Hfind. by apply (Hfind block).
Qed.

Lemma RunUp_start_witness :
  RunUp 5 demoEngine (upFrom "nope") (freshWorld [])
  = runBlocks 5 demoEngine (upFrom "nope") (Blocks (project demoEngine)) (freshWorld []).
Proof.
  assert (Hunknown : forall block, block ∈ Blocks (project demoEngine) ->
                       ID block <> up_FromBlock (upFrom "nope")).
  { intros block Hin. repeat (apply elem_of_cons in Hin as [->|Hin]; [discriminate|]).
    by apply elem_of_nil in Hin. }
  exact (proj1 (proj1 (RunUp_start demoEngine 5 (upFrom "nope") (freshWorld [])) Hunknown)).
Defined.

(** X13.  [RunUp] stops at the first error: when it returns the error of
    a block, [ContinueOnError] is off, the error is the one [RunBlock]
    returned for that block, every block listed before it (from the start
    block on) was run and returned [nil], and no block listed after it was
    run: the world is as the failing [RunBlock] left it. *)
Theorem RunUp_stops_at_first_error {R : Type} `{!Runtime R} (e : Engine)
    (fuel : nat) (opts : UpOptions) (w w' : @World R) (id : string) (err : error)
    (Hstopped : RunUp fuel e opts w = (UpBlockFailed id err, w')) :
  ContinueOnError opts = false
  /\ exists before block after w0,
       drop (startIndex e opts) (Blocks (project e)) = before ++ block :: after
       /\ ID block = id
       /\ runBlocks fuel e opts before w = (UpDone, w0)
       /\ RunBlock fuel e id {| Force := up_Force opts; KeepContainer := false |} w0
          = (Err err, w').
Proof. unfold RunUp in Hstopped. by apply runBlocks_failure in Hstopped. Qed.

Lemma RunUp_stops_at_first_error_witness :
  ContinueOnError (upAll false) = false
  /\ exists before block after w0,
       drop (startIndex demoEngine (upAll false)) (Blocks (project demoEngine))
       = before ++ block :: after
       /\ ID block = "app"%string
       /\ runBlocks 5 demoEngine (upAll false) before (freshWorld []) = (UpDone, w0)
       /\ RunBlock 5 demoEngine "app"
            {| Force := up_Force (upAll false); KeepContainer := false |} w0
          = (Err (ErrResolveParent (ErrStillNoDigest "base")),
             (RunUp 5 demoEngine (upAll false) (freshWorld [])).2).
Proof.
  assert (Hstopped : RunUp 5 demoEngine (upAll false) (freshWorld [])
                     = (UpBlockFailed "app" (ErrResolveParent (ErrStillNoDigest "base")),
                        (RunUp 5 demoEngine (upAll false) (freshWorld [])).2))
    by (vm_compute; reflexivity).
  exact (RunUp_stops_at_first_error demoEngine 5 (upAll false) (freshWorld [])
           (RunUp 5 demoEngine (upAll false) (freshWorld [])).2 "app"
           (ErrResolveParent (ErrStillNoDigest "base")) Hstopped).
Defined.

(** ** RunBlock *)

Section RunBlockFacts.
Context {R : Type} `{!Runtime R} (e : Engine).
Implicit Types (w : @World R) (block : Block) (s : Store).

Lemma findBlock_None blockID :
  (forall block, block ∈ Blocks (project e) -> ID block <> blockID) ->
  findBlock e blockID = None.
Proof.
  intros Hunknown. destruct (findBlock e blockID) as [block|] eqn:Hfind; [|done].
  apply findBlock_Some in Hfind as [Hin Hid]. by destruct (Hunknown block Hin).
Qed.

(** A run that returns [nil] has found its block, resolved the parent and
    gone through the cache check. *)
Lemma RunBlock_Ok_inv fuel blockID opts w w' :
  RunBlock fuel e blockID opts w = (Ok (), w') ->
  exists fuel' block ref parentDigest visited w1,
    fuel = S fuel'
    /\ findBlock e blockID = Some block
    /\ resolveParentWithVisited fuel' e block ∅ w = (Ok (ref, parentDigest), visited, w1)
    /\ runResolved e blockID block opts ref parentDigest w1 = (Ok (), w').
Proof.
  destruct fuel as [|fuel]; [done|]. rewrite RunBlock_S.
  destruct (findBlock e blockID) as [block|]; [|done].
  destruct (resolveParentWithVisited fuel e block ∅ w) as [[[[ref d]|err|] v] w1] eqn:Hres;
    [|done..].
  intros Hrun. by exists fuel, block, ref, d, v, w1.
Qed.

(** What a successful build leaves in the store. *)
Lemma buildBlock_success block ref w digest w' :
  buildBlock e block ref w = (Ok digest, w') ->
  images (store w') = <[ID block := digest]> (images (store w))
  /\ (exists rec,
        history (store w')
        = <[ID block := default [] (history (store w) !! ID block) ++ [Content rec]]>
            (history (store w))
        /\ rec_Digest rec = digest
        /\ rec_Dockerfile rec = generateDockerfile block ref)
  /\ dockerfiles (store w')
     = if is_empty digest then dockerfiles (store w)
       else <[digest := generateDockerfile block ref]> (dockerfiles (store w)).
Proof.
  unfold buildBlock. destruct (rt_StageContext _ _ _ _) as [[msg|] d]; [done|].
  unfold buildImageWithLogs.
  destruct (rt_ImageBuild _ _ _) as [[chunks [dg|msg]] d'] eqn:Hbuild; simpl; [|done].
  intros [= <- <-]. simpl.
  destruct (append_logs_frame (ID block) chunks (store w)) as (_ & _ & Hi & Hh & Hd & _).
  unfold SaveDockerfileSnapshot. destruct (is_empty dg); simpl; rewrite Hi, Hh, Hd.
  - split; [done|]. split; [|done]. eexists. split; [reflexivity|]. done.
  - split; [done|]. split; [|done]. eexists. split; [reflexivity|]. done.
Qed.

(** A run that ends [success] has built the block, and what follows the
    build touches neither the image digests, nor the history, nor the
    snapshots. *)
Lemma runResolved_success blockID block opts ref parentDigest w state :
  LoadBlockState blockID (store (runResolved e blockID block opts ref parentDigest w).2)
  = Ok state ->
  st_Status state = StatusSuccess ->
  exists w0 wb,
    buildBlock e block ref w0 = (Ok (st_Digest state), wb)
    /\ images (store w0) = images (store w)
    /\ history (store w0) = history (store w)
    /\ dockerfiles (store w0) = dockerfiles (store w)
    /\ images (store (runResolved e blockID block opts ref parentDigest w).2)
       = images (store wb)
    /\ history (store (runResolved e blockID block opts ref parentDigest w).2)
       = history (store wb)
    /\ dockerfiles (store (runResolved e blockID block opts ref parentDigest w).2)
       = dockerfiles (store wb).
Proof.
  unfold runResolved. cbv zeta.
  destruct (if Force opts then None else _) as [cachedDigest|].
  { simpl. rewrite LoadBlockState_saved. intros [= <-]. discriminate. }
  destruct (buildBlock _ _ _ _) as [[digest|err|] wb] eqn:Hbuild.
  - unfold setCached, SetCachedDigest, saveCache. simpl.
    intros Hload Hsuccess.
    assert (Hdigest : st_Digest state = digest).
    { unfold LoadBlockState in Hload. simpl in Hload.
      rewrite lookup_insert_eq in Hload. by injection Hload as <-. }
    rewrite Hdigest. eexists _, wb. split; [exact Hbuild|]. simpl.
    repeat (split; [done|]).
    destruct (LoadLogs blockID (store wb)) as [l|?|]; [destruct (is_empty l)|..]; done.
  - simpl. rewrite LoadBlockState_saved. intros [= <-]. discriminate.
  - exfalso. eapply buildBlock_returns. by rewrite Hbuild.
Qed.

(** A run saves the state of its own block only. *)
Lemma runResolved_other_states blockID block opts ref parentDigest w id :
  id <> blockID ->
  states (store (runResolved e blockID block opts ref parentDigest w).2) !! id
  = states (store w) !! id.
Proof.
  intros Hne. unfold runResolved. cbv zeta.
  destruct (if Force opts then None else _) as [cachedDigest|].
  { simpl. by rewrite lookup_insert_ne. }
  destruct (buildBlock _ _ _ _) as [[digest|err|] wb] eqn:Hbuild.
  - apply buildBlock_frame in Hbuild as (Hs & _). simpl in Hs.
    unfold setCached, SetCachedDigest, saveCache. simpl.
    destruct (LoadLogs blockID (store wb)) as [l|?|]; [destruct (is_empty l)|..];
      simpl; rewrite lookup_insert_ne, Hs, lookup_insert_ne; done.
  - apply buildBlock_frame in Hbuild as (Hs & _). simpl in Hs.
    simpl. by rewrite lookup_insert_ne, Hs, lookup_insert_ne.
  - exfalso. eapply buildBlock_returns. by rewrite Hbuild.
Qed.

(** The resolution of a parent block that needs no execution reads the
    pinned version or the stored state of the parent and nothing else. *)
Lemma resolve_ready_result fuel block visited w w2 :
  From block = EmptyString -> settled block w ->
  (FromBlockVersion block <> EmptyString
   \/ LoadBlockState (FromBlock block) (store w2)
      = LoadBlockState (FromBlock block) (store w)) ->
  exists r,
    resolveParentWithVisited fuel e block visited w = (r, visited, w)
    /\ resolveParentWithVisited fuel e block visited w2 = (r, visited, w2).
Proof.
  intros Hfrom Hsettled Hsame. destruct fuel as [|fuel]; [by exists OutOfFuel|].
  rewrite !resolve_S. pose proof Hfrom as Hfrom'.
  apply is_empty_true in Hfrom. rewrite Hfrom. simpl.
  destruct (negb (is_empty (FromBlock block))) eqn:Hfb; [|by eexists].
  destruct (has visited (ID block)) eqn:Hvisited; [by eexists|].
  apply has_false in Hvisited.
  assert (Hrestored : ({[ID block]} ∪ visited) ∖ {[ID block]} = visited) by set_solver.
  unfold resolveMarked.
  destruct (is_empty (FromBlockVersion block)) eqn:Hpin; simpl;
    [|rewrite Hrestored; by eexists].
  assert (Hstate : loadParentState block w2 = loadParentState block w).
  { unfold loadParentState. apply is_empty_true in Hpin.
    destruct Hsame as [?| ->]; done. }
  rewrite Hstate.
  destruct (loadParentState block w) as [state|err|] eqn:Hload;
    [|rewrite Hrestored; by eexists..].
  destruct (is_empty (st_Digest state)) eqn:Hdigest; [|rewrite Hrestored; by eexists].
  exfalso. apply is_empty_true in Hpin, Hdigest.
  apply negb_true_iff, is_empty_false in Hfb.
  destruct Hsettled as [?|[?|[?|Hstored]]]; try done. by apply (Hstored state).
Qed.

End RunBlockFacts.

(** X14.  [RunBlock] on an id that no block of the project has returns the
    error [block ... not found] and changes nothing: no runtime operation,
    no write to the store. *)
Theorem RunBlock_unknown_block {R : Type} `{!Runtime R} (e : Engine) (fuel : nat)
    (blockID : string) (opts : RunOptions) (w : @World R)
    (Hunknown : forall block, block ∈ Blocks (project e) -> ID block <> blockID) :
  RunBlock (S fuel) e blockID opts w = (Err (ErrBlockNotFound blockID), w).
Proof. rewrite RunBlock_S. by rewrite findBlock_None. Qed.

Lemma RunBlock_unknown_block_witness :
  RunBlock 5 demoEngine "nope" unforced (freshWorld [])
  = (Err (ErrBlockNotFound "nope"), freshWorld []).
Proof.
  apply (RunBlock_unknown_block demoEngine 4 "nope" unforced (freshWorld [])).
  intros block Hin. repeat (apply elem_of_cons in Hin as [->|Hin]; [discriminate|]).
  by apply elem_of_nil in Hin.
Defined.

(** X15.  A forced run never takes a cache hit: when [RunBlock] with
    [Force] returns [nil], the state it saved for the block is [success]
    or [failed] (a build was attempted), never [cached], whatever the
    cache index holds. *)
Theorem forced_run_builds {R : Type} `{!Runtime R} (e : Engine) (fuel : nat)
    (blockID : string) (opts : RunOptions) (w w' : @World R)
    (Hforce : Force opts = true)
    (Hrun : RunBlock fuel e blockID opts w = (Ok (), w')) :
  exists state,
    LoadBlockState blockID (store w') = Ok state
    /\ (st_Status state = StatusSuccess \/ st_Status state = StatusFailed).
Proof.
  apply RunBlock_Ok_inv in Hrun
    as (fuel' & block & ref & parentDigest & visited & w1 & _ & _ & _ & Hresolved).
  destruct (runResolved_spec e blockID block opts ref parentDigest w1)
    as (state & Hload & _ & Hstatus).
  rewrite Hresolved in Hload. exists state. split; [exact Hload|].
  destruct (st_Status state); try done; [|by left|by right].
  destruct Hstatus as (Hunforced & _). congruence.
Qed.

Lemma forced_run_builds_witness :
  exists state,
    LoadBlockState "base" (store (RunBlock 5 demoEngine "base" forced builtOnce).2)
    = Ok state
    /\ (st_Status state = StatusSuccess \/ st_Status state = StatusFailed).
Proof.
  assert (Hrun : RunBlock 5 demoEngine "base" forced builtOnce
                 = (Ok (), (RunBlock 5 demoEngine "base" forced builtOnce).2))
    by (vm_compute; reflexivity).
  exact (forced_run_builds demoEngine 5 "base" forced builtOnce
           (RunBlock 5 demoEngine "base" forced builtOnce).2 eq_refl Hrun).
Defined.

(** X16.  A run that ends [success] has recorded its image: the image
    digest file of the block holds the digest of the state, the history
    file of the block has grown by exactly one record, which carries that
    digest and the Dockerfile generated from the block and the resolved
    parent reference (and is read back after the earlier records when
    these all decode), and the snapshot stored under the digest is that
    Dockerfile.  The image digests and histories of the other blocks are
    as the parent resolution left them. *)
Theorem successful_run_records {R : Type} `{!Runtime R} (e : Engine) (fuel : nat)
    (blockID : string) (opts : RunOptions) (w w1 w' : @World R) (block : Block)
    (ref parentDigest : string) (visited : gset string) (state : BlockState)
    (Hfind : findBlock e blockID = Some block)
    (Hresolve : resolveParentWithVisited fuel e block ∅ w
                = (Ok (ref, parentDigest), visited, w1))
    (Hrun : RunBlock (S fuel) e blockID opts w = (Ok (), w'))
    (Hstate : LoadBlockState blockID (store w') = Ok state)
    (Hsuccess : st_Status state = StatusSuccess) :
  LoadImageDigest blockID (store w') = Ok (st_Digest state)
  /\ (exists rec,
        history (store w') !! blockID
        = Some (default [] (history (store w1) !! blockID) ++ [Content rec])
        /\ rec_Digest rec = st_Digest state
        /\ rec_Dockerfile rec = generateDockerfile block ref
        /\ (intact (default [] (history (store w1) !! blockID)) ->
            LoadImageHistory blockID (store w')
            = Ok (decodeRecords (default [] (history (store w1) !! blockID)) ++ [rec])))
  /\ (st_Digest state <> EmptyString ->
      LoadDockerfileSnapshot (st_Digest state) (store w')
      = Some (generateDockerfile block ref))
  /\ (forall id, id <> blockID ->
        LoadImageDigest id (store w') = LoadImageDigest id (store w1)
        /\ LoadImageHistory id (store w') = LoadImageHistory id (store w1)).
Proof.
  rewrite RunBlock_S, Hfind, Hresolve in Hrun. cbv beta iota in Hrun.
  pose proof (runResolved_success e blockID block opts ref parentDigest w1 state)
    as Hbuilt.
  rewrite Hrun in Hbuilt.
  destruct (Hbuilt Hstate Hsuccess)
    as (w0 & wb & Hbuild & Hi0 & Hh0 & Hd0 & Hi & Hh & Hd).
  apply buildBlock_success in Hbuild as (Himages & (rec & Hhistory & Hrec & Hfile) & Hsnap).
  apply findBlock_Some in Hfind as [_ Hid]. rewrite Hid in Himages, Hhistory.
  simpl in Hi, Hh, Hd.
  unfold LoadImageDigest, LoadImageHistory, LoadDockerfileSnapshot.
  rewrite Hi, Hh, Hd, Himages, Hhistory, Hsnap, Hi0, Hh0, Hd0.
  split; [by rewrite lookup_insert_eq|]. split.
  { exists rec. rewrite lookup_insert_eq. split; [done|]. split; [done|].
    split; [done|]. intros Hintact. rewrite decodeRecords_intact by done. done. }
  split.
  { intros Hdigest. apply is_empty_false in Hdigest. rewrite Hdigest.
    by rewrite lookup_insert_eq. }
  intros id Hne. by rewrite !lookup_insert_ne.
Qed.

Lemma successful_run_records_witness :
  LoadImageDigest "base" (store builtOnce) = Ok (st_Digest baseBuiltState).
Proof.
  assert (Hfind : findBlock demoEngine "base" = Some demoBase)
    by (vm_compute; reflexivity).
  assert (Hresolve : resolveParentWithVisited 4 demoEngine demoBase ∅
                       (freshWorld [inl "sha256:b1"%string])
                     = (Ok ("alpine:latest", "sha256:alpine:latest")%string,
                        firstResolved.1.2, firstResolved.2))
    by (vm_compute; reflexivity).
  assert (Hrun : RunBlock 5 demoEngine "base" unforced
                   (freshWorld [inl "sha256:b1"%string])
                 = (Ok (), builtOnce))
    by (vm_compute; reflexivity).
  assert (Hstate : LoadBlockState "base" (store builtOnce) = Ok baseBuiltState)
    by (vm_compute; reflexivity).
  exact (proj1 (successful_run_records demoEngine 4 "base" unforced
                  (freshWorld [inl "sha256:b1"%string]) firstResolved.2 builtOnce
                  demoBase "alpine:latest" "sha256:alpine:latest" firstResolved.1.2
                  baseBuiltState Hfind Hresolve Hrun Hstate eq_refl)).
Defined.

(** X17.  Running a block again after a success is a cache hit.  For a
    block on a parent block that needs no execution (a pinned version, or
    another block with a stored digest): after a run that ended [success],
    an unforced run of the same block does nothing but save the state
    [cached] with the same hash and the same digest; it invokes no runtime
    operation and leaves the rest of the store alone. *)
Theorem rerun_hits_cache {R : Type} `{!Runtime R} (e : Engine) (fuel : nat)
    (blockID : string) (opts : RunOptions) (w w' : @World R) (block : Block)
    (state : BlockState)
    (Hfind : findBlock e blockID = Some block)
    (Hfrom : From block = EmptyString)
    (Hready : FromBlockVersion block <> EmptyString
              \/ (FromBlock block <> blockID
                  /\ exists parent,
                       LoadBlockState (FromBlock block) (store w) = Ok parent
                       /\ st_Digest parent <> EmptyString))
    (Hrun : RunBlock fuel e blockID opts w = (Ok (), w'))
    (Hstate : LoadBlockState blockID (store w') = Ok state)
    (Hsuccess : st_Status state = StatusSuccess) :
  RunBlock fuel e blockID unforced w'
  = (Ok (), on_store (SaveBlockState blockID
              (cachedState blockID (st_Hash state) (st_Digest state) (now w'))) w').
Proof.
  apply RunBlock_Ok_inv in Hrun
    as (fuel' & block' & ref & parentDigest & visited & w1 & -> & Hfind' & Hresolve
        & Hresolved).
  assert (block' = block) as -> by congruence.
  assert (Hsettled : settled block w).
  { destruct Hready as [Hpin|(_ & parent & Hparent & Hdigest)].
    - right. right. by left.
    - right. right. right. intros state0. unfold loadParentState.
      rewrite Hparent. by intros [= <-]. }
  destruct (resolve_ready_result e fuel' block ∅ w w Hfrom Hsettled) as (r & Hr & _);
    [by right|].
  rewrite Hr in Hresolve. injection Hresolve as -> _ <-.
  assert (Hw' : w' = (runResolved e blockID block opts ref parentDigest w).2)
    by (by rewrite Hresolved).
  destruct (resolve_ready_result e fuel' block ∅ w w' Hfrom Hsettled) as (r & Hr1 & Hr2).
  { destruct Hready as [Hpin|(Hne & _)]; [by left|]. right.
    unfold LoadBlockState. rewrite Hw'. by rewrite runResolved_other_states. }
  rewrite Hr in Hr1. injection Hr1 as <-.
  destruct (runResolved_spec e blockID block opts ref parentDigest w)
    as (state0 & Hload & Hhash & Hstatus).
  rewrite <- Hw' in Hload, Hstatus. rewrite Hstate in Hload. injection Hload as <-.
  rewrite Hsuccess in Hstatus. destruct Hstatus as (_ & Hcache & _).
  rewrite RunBlock_S, Hfind, Hr2. cbv beta iota. unfold runResolved. simpl.
  rewrite Hcache, SetCachedDigest_get, Hhash. reflexivity.
Qed.

Lemma rerun_hits_cache_witness :
  RunBlock 5 (engineOf pinnedProject) "app" unforced pinnedBuilt
  = (Ok (), on_store (SaveBlockState "app"
              (cachedState "app" (st_Hash pinnedAppState) (st_Digest pinnedAppState)
                 (now pinnedBuilt))) pinnedBuilt).
Proof.
  assert (Hfind : findBlock (engineOf pinnedProject) "app" = Some pinnedApp)
    by (vm_compute; reflexivity).
  assert (Hready : FromBlockVersion pinnedApp <> EmptyString
                   \/ (FromBlock pinnedApp <> "app"%string
                       /\ exists parent,
                            LoadBlockState (FromBlock pinnedApp)
                              (store (freshWorld [inl "sha256:app1"%string])) = Ok parent
                            /\ st_Digest parent <> EmptyString))
    by (left; discriminate).
  assert (Hrun : RunBlock 5 (engineOf pinnedProject) "app" unforced
                   (freshWorld [inl "sha256:app1"%string])
                 = (Ok (), pinnedBuilt))
    by (vm_compute; reflexivity).
  assert (Hstate : LoadBlockState "app" (store pinnedBuilt) = Ok pinnedAppState)
    by (vm_compute; reflexivity).
  exact (rerun_hits_cache (engineOf pinnedProject) 5 "app" unforced
           (freshWorld [inl "sha256:app1"%string]) pinnedBuilt pinnedApp pinnedAppState
           Hfind eq_refl Hready Hrun Hstate eq_refl).
Defined.

(** X18.  The resolver leaves the [visited] map as it found it, on every
    exit path (the error paths and the nested executions of parents
    included): the mark it sets for a block is removed when it returns, so
    the same map can serve a further resolution. *)
Theorem resolver_restores_visited {R : Type} `{!Runtime R} (e : Engine) (fuel : nat)
    (block : Block) (visited : gset string) (w : @World R) :
  (resolveParentWithVisited fuel e block visited w).1.2 = visited.
Proof. apply visited_restored. Qed.

(** ** sanitizeForDockerTag *)

Section Tags.

Local Abbreviation hyphen := "-"%char.

Lemma collapse_hyphens_cons c d rest :
  collapse_hyphens (c :: d :: rest)
  = if Ascii.eqb c hyphen && Ascii.eqb d hyphen then collapse_hyphens (d :: rest)
    else c :: collapse_hyphens (d :: rest).
Proof. reflexivity. Qed.

Lemma no_double_hyphen_cons c d rest :
  no_double_hyphen (c :: d :: rest)
  = negb (Ascii.eqb c hyphen && Ascii.eqb d hyphen) && no_double_hyphen (d :: rest).
Proof. reflexivity. Qed.

Lemma drop_hyphens_cons c rest :
  drop_hyphens (c :: rest) = if Ascii.eqb c hyphen then drop_hyphens rest else c :: rest.
Proof. reflexivity. Qed.

Lemma collapse_hyphens_Forall (P : ascii -> Prop) l :
  Forall P l -> Forall P (collapse_hyphens l).
Proof.
  induction l as [|c [|d rest] IH]; intros Hall; [done..|].
  rewrite collapse_hyphens_cons. apply Forall_cons in Hall as [Hc Hrest].
  destruct (_ && _); [by apply IH|]. apply Forall_cons. split; [done | by apply IH].
Qed.

(** The head of a collapsed list is the head of the list. *)
Lemma collapse_hyphens_head c rest :
  exists rest', collapse_hyphens (c :: rest) = c :: rest'.
Proof.
  revert c. induction rest as [|d rest IH]; intros c; [by eexists|].
  rewrite collapse_hyphens_cons.
  destruct (Ascii.eqb_spec c hyphen) as [->|]; [|by eexists].
  destruct (Ascii.eqb_spec d hyphen) as [->|]; [|by eexists]. simpl. apply IH.
Qed.

Lemma collapse_hyphens_no_double l : no_double_hyphen (collapse_hyphens l) = true.
Proof.
  induction l as [|c [|d rest] IH]; [done..|].
  rewrite collapse_hyphens_cons.
  destruct (Ascii.eqb c hyphen && Ascii.eqb d hyphen) eqn:Hboth; [exact IH|].
  destruct (collapse_hyphens_head d rest) as [rest' Hhead].
  rewrite Hhead in IH |- *. rewrite no_double_hyphen_cons, Hboth, IH. done.
Qed.

Lemma collapse_hyphens_fixed l : no_double_hyphen l = true -> collapse_hyphens l = l.
Proof.
  induction l as [|c [|d rest] IH]; [done..|].
  rewrite collapse_hyphens_cons, no_double_hyphen_cons.
  intros [Hboth Hrest]%andb_true_iff. apply negb_true_iff in Hboth.
  rewrite Hboth. f_equal. by apply IH.
Qed.

(** [drop_hyphens] removes a run of hyphens from the front. *)
Lemma drop_hyphens_split l :
  exists front, l = front ++ drop_hyphens l /\ Forall (fun c => c = hyphen) front.
Proof.
  induction l as [|c rest (front & Hsplit & Hfront)]; [by exists []|].
  rewrite drop_hyphens_cons. destruct (Ascii.eqb_spec c hyphen) as [->|].
  - exists (hyphen :: front). split; [simpl; by f_equal|]. by apply Forall_cons.
  - by exists [].
Qed.

Lemma drop_hyphens_head l c rest : drop_hyphens l = c :: rest -> c <> hyphen.
Proof.
  induction l as [|d l IH]; [done|]. rewrite drop_hyphens_cons.
  destruct (Ascii.eqb_spec d hyphen) as [->|Hne]; [done|]. by intros [= <- _].
Qed.

Lemma drop_hyphens_fixed c rest : c <> hyphen -> drop_hyphens (c :: rest) = c :: rest.
Proof.
  intros Hne. rewrite drop_hyphens_cons. by destruct (Ascii.eqb_spec c hyphen).
Qed.

Lemma no_double_hyphen_tail c l : no_double_hyphen (c :: l) = true -> no_double_hyphen l = true.
Proof.
  destruct l as [|d rest]; [done|]. rewrite no_double_hyphen_cons.
  by intros [_ ?]%andb_true_iff.
Qed.

Lemma no_double_hyphen_suffix front l :
  no_double_hyphen (front ++ l) = true -> no_double_hyphen l = true.
Proof.
  induction front as [|c front IH]; [done|]. intros Hall. apply IH.
  by apply (no_double_hyphen_tail c).
Qed.

Lemma no_double_hyphen_prefix l back :
  no_double_hyphen (l ++ back) = true -> no_double_hyphen l = true.
Proof.
  induction l as [|c [|d rest] IH]; [done..|].
  change ((c :: d :: rest) ++ back) with (c :: d :: (rest ++ back)).
  rewrite !no_double_hyphen_cons. intros [Hboth Hrest]%andb_true_iff.
  rewrite Hboth. simpl. by apply IH.
Qed.

Lemma trim_end_split l :
  exists back, l = trim_end l ++ back /\ Forall (fun c => c = hyphen) back.
Proof.
  destruct (drop_hyphens_split (rev l)) as (front & Hsplit & Hfront).
  exists (rev front). split; [|by apply Forall_rev].
  unfold trim_end. rewrite <- rev_app_distr, <- Hsplit. by rewrite rev_involutive.
Qed.

Lemma trim_end_last l : last (trim_end l) <> Some hyphen.
Proof.
  unfold trim_end. destruct (drop_hyphens (rev l)) as [|c rest] eqn:Hdrop; [done|].
  apply drop_hyphens_head in Hdrop. simpl. rewrite last_snoc. congruence.
Qed.

Lemma trim_end_fixed l : last l <> Some hyphen -> trim_end l = l.
Proof.
  unfold trim_end. destruct l as [|c l] using rev_ind; [done|].
  rewrite last_snoc. intros Hne. rewrite rev_app_distr.
  change (rev [c] ++ rev l) with (c :: rev l).
  rewrite drop_hyphens_fixed by congruence.
  simpl. by rewrite rev_involutive.
Qed.

Lemma tag_char_lower c : tag_char c = true -> lower c = c.
Proof.
  destruct c as [[] [] [] [] [] [] [] []]; vm_compute; intros Htag;
    first [reflexivity | discriminate Htag].
Qed.

Lemma alnum_tag_char c : alnum_char c = true -> tag_char c = true /\ c <> hyphen.
Proof.
  destruct c as [[] [] [] [] [] [] [] []]; vm_compute; intros Halnum;
    first [discriminate Halnum | split; [reflexivity | discriminate]].
Qed.

Lemma list_ascii_of_string_app (a b : string) :
  String.list_ascii_of_string (a +:+ b)
  = String.list_ascii_of_string a ++ String.list_ascii_of_string b.
Proof.
  induction a as [|c a IH]; [done|].
  change (String c a +:+ b)%string with (String c (a +:+ b)). simpl. by rewrite IH.
Qed.

Lemma sanitizeForDockerTag_body blockID :
  sanitizeForDockerTag blockID
  = match tag_body blockID with
    | [] => "block"%string
    | c :: _ =>
        if alnum_char c then String.string_of_list_ascii (tag_body blockID)
        else ("block-" +:+ String.string_of_list_ascii (tag_body blockID))%string
    end.
Proof. reflexivity. Qed.

Lemma tag_body_spec blockID :
  Forall (fun c => tag_char c = true) (tag_body blockID)
  /\ no_double_hyphen (tag_body blockID) = true
  /\ last (tag_body blockID) <> Some hyphen
  /\ forall c rest, tag_body blockID = c :: rest -> c <> hyphen.
Proof.
  unfold tag_body.
  set (replaced := map _ (String.list_ascii_of_string blockID)).
  assert (Hreplaced : Forall (fun c => tag_char c = true) replaced).
  { subst replaced. apply Forall_forall. intros c (c0 & -> & _)%list_elem_of_fmap.
    by destruct (tag_char (lower c0)) eqn:Htag. }
  set (collapsed := collapse_hyphens replaced).
  assert (Hcollapsed : Forall (fun c => tag_char c = true) collapsed)
    by (by apply collapse_hyphens_Forall).
  pose proof (collapse_hyphens_no_double replaced) as Hsingle. fold collapsed in Hsingle.
  destruct (drop_hyphens_split collapsed) as (front & Hfront & _).
  destruct (trim_end_split (drop_hyphens collapsed)) as (back & Hback & _).
  rewrite Hfront in Hcollapsed, Hsingle.
  apply Forall_app in Hcollapsed as [_ Hdropped].
  apply no_double_hyphen_suffix in Hsingle.
  rewrite Hback in Hdropped, Hsingle.
  apply Forall_app in Hdropped as [Htrimmed _].
  apply no_double_hyphen_prefix in Hsingle.
  split; [done|]. split; [done|]. split; [apply trim_end_last|].
  intros c rest Hbody. rewrite Hbody in Hback.
  eapply drop_hyphens_head. exact Hback.
Qed.

Lemma sanitizeForDockerTag_valid blockID : valid_tag (sanitizeForDockerTag blockID).
Proof.
  rewrite sanitizeForDockerTag_body.
  destruct (tag_body_spec blockID) as (Hchars & Hsingle & Hlast & Hhead).
  destruct (tag_body blockID) as [|c rest] eqn:Hbody.
  { unfold valid_tag. simpl. split; [by eexists _, _|].
    split; [by repeat constructor|]. done. }
  specialize (Hhead c rest eq_refl).
  destruct (alnum_char c) eqn:Halnum; unfold valid_tag; cbv zeta.
  - rewrite String.list_ascii_of_string_of_list_ascii. split; [by exists c, rest|]. done.
  - rewrite list_ascii_of_string_app, String.list_ascii_of_string_of_list_ascii.
    split; [by eexists _, _|]. split; [|split].
    + apply Forall_app. split; [by repeat constructor | done].
    + change (String.list_ascii_of_string "block-" ++ c :: rest)
        with ("b" :: "l" :: "o" :: "c" :: "k" :: hyphen :: c :: rest)%char.
      rewrite !no_double_hyphen_cons, Hsingle.
      destruct (Ascii.eqb_spec c hyphen); [done | reflexivity].
    + rewrite last_app. destruct (last (c :: rest)) as [z|] eqn:Hz; [done|].
      by apply last_None in Hz.
Qed.

Lemma replace_fixed l :
  Forall (fun c => tag_char c = true) l ->
  map (fun c => if tag_char (lower c) then lower c else hyphen) l = l.
Proof.
  induction 1 as [|a l Ha Hl IH]; [done|]. simpl.
  rewrite (tag_char_lower a Ha), Ha. by f_equal.
Qed.

Lemma sanitizeForDockerTag_fixed tag : valid_tag tag -> sanitizeForDockerTag tag = tag.
Proof.
  intros ((c & rest & Hhead & Halnum) & Hchars & Hsingle & Hlast).
  cbv zeta in Hchars, Hsingle, Hlast.
  assert (Hbody : tag_body tag = String.list_ascii_of_string tag).
  { unfold tag_body.
    rewrite (replace_fixed _ Hchars), (collapse_hyphens_fixed _ Hsingle), Hhead.
    apply alnum_tag_char in Halnum as [_ Hne].
    rewrite drop_hyphens_fixed by done. rewrite <- Hhead. by apply trim_end_fixed. }
  rewrite sanitizeForDockerTag_body, Hbody, Hhead, Halnum, <- Hhead.
  apply String.string_of_list_ascii_of_string.
Qed.

End Tags.

(** X19.  The tag [sanitizeForDockerTag] derives from an ASCII block id
    is a valid Docker tag component, whatever the id (empty, upper case,
    spaces or punctuation, hyphens only): it is not empty, starts with a
    lower-case letter or a digit, contains only characters of [a-z0-9._-],
    has no two hyphens in a row and does not end with a hyphen. *)
Theorem sanitizeForDockerTag_is_valid (blockID : string) (Hascii : ascii_only blockID) :
  valid_tag (sanitizeForDockerTag blockID).
Proof. apply sanitizeForDockerTag_valid. Qed.

Lemma sanitizeForDockerTag_is_valid_witness :
  valid_tag (sanitizeForDockerTag "--My Block!--").
Proof.
  apply (sanitizeForDockerTag_is_valid "--My Block!--").
  unfold ascii_only. simpl. repeat constructor.
Defined.

(** X20.  A block id that is a valid tag already is its own tag, and
    sanitising is idempotent: sanitising the tag of an ASCII block id
    again changes nothing. *)
Theorem sanitizeForDockerTag_idempotent (blockID : string) :
  (valid_tag blockID -> sanitizeForDockerTag blockID = blockID)
  /\ (ascii_only blockID ->
      sanitizeForDockerTag (sanitizeForDockerTag blockID) = sanitizeForDockerTag blockID).
Proof.
  split; [apply sanitizeForDockerTag_fixed|].
  intros _. apply sanitizeForDockerTag_fixed, sanitizeForDockerTag_valid.
Qed.

Lemma sanitizeForDockerTag_idempotent_witness :
  sanitizeForDockerTag (sanitizeForDockerTag "--My Block!--")
  = sanitizeForDockerTag "--My Block!--".
Proof.
  apply (proj2 (sanitizeForDockerTag_idempotent "--My Block!--")).
  unfold ascii_only. simpl. repeat constructor.
Defined.

(** ** The cycle check, on any list of blocks *)

Section CycleSearch.

Variable deps : gmap string string.

(** Set goals, without the quantified hypotheses of the context. *)
Local Ltac sets :=
  repeat match goal with H : forall _, _ |- _ => clear H end; set_solver.

Lemma no_parent_safe b : deps !! b = None -> ~ reaches_cycle deps b.
Proof.
  intros Hnone (c & Hpath & Hcycle).
  assert (Hstep : exists y, depends_on deps b y).
  { apply rtc_inv in Hpath as [<-|(y & Hstep & _)]; [|eauto].
    inversion Hcycle; eauto. }
  destruct Hstep as [y Hstep]. unfold depends_on in Hstep. congruence.
Qed.

Lemma parent_safe b p :
  deps !! b = Some p -> ~ reaches_cycle deps p -> ~ reaches_cycle deps b.
Proof.
  intros Hparent Hsafe (c & Hpath & Hcycle). apply Hsafe.
  assert (Hnext : forall y, depends_on deps b y -> y = p).
  { intros y Hstep. unfold depends_on in Hstep. congruence. }
  apply rtc_inv in Hpath as [<-|(y & Hstep & Hrest)].
  - exists b. split; [|done].
    inversion Hcycle as [? ? Hstep|? y ? Hstep Hback]; subst.
    + rewrite <- (Hnext _ Hstep). apply rtc_refl.
    + rewrite <- (Hnext _ Hstep). by apply tc_rtc.
  - exists c. rewrite <- (Hnext _ Hstep). done.
Qed.

(** The recursion stack is the path that leads to the block being
    visited, so a parent found on it closes a cycle. *)
Lemma hasCycle_found fuel b visited recStack visited' recStack' :
  (forall r, r ∈ recStack -> rtc (depends_on deps) r b) ->
  hasCycle fuel b deps visited recStack = Some (true, visited', recStack') ->
  circular deps.
Proof.
  revert b visited recStack visited' recStack'.
  induction fuel as [|fuel IH]; intros b visited recStack visited' recStack' Hstack Hcall;
    [done|].
  simpl in Hcall. destruct (deps !! b) as [parent|] eqn:Hparent; [|done].
  assert (Hstack' : forall r, r ∈ {[b]} ∪ recStack -> rtc (depends_on deps) r parent).
  { intros r [->%elem_of_singleton|Hr]%elem_of_union.
    - by apply rtc_once.
    - eapply rtc_r; [by apply Hstack | done]. }
  destruct (has ({[b]} ∪ visited) parent); simpl in Hcall.
  - destruct (has ({[b]} ∪ recStack) parent) eqn:Hon; [|done].
    apply has_true in Hon. exists parent.
    assert (Hback : rtc (depends_on deps) parent b).
    { apply elem_of_union in Hon as [->%elem_of_singleton|Hon];
        [apply rtc_refl | by apply Hstack]. }
    eapply tc_rtc_l; [exact Hback | by apply tc_once].
  - destruct (hasCycle fuel parent deps _ _) as [[[[] v] r]|] eqn:Hrec; [|done..].
    eapply IH; [exact Hstack' | exact Hrec].
Qed.

(** A call that reports no cycle has only visited blocks that do not lead
    into one, and has left the recursion stack as it found it. *)
Lemma hasCycle_clear fuel b visited recStack visited' recStack' :
  (forall x, x ∈ visited -> x ∉ recStack -> ~ reaches_cycle deps x) ->
  recStack ⊆ visited ->
  hasCycle fuel b deps visited recStack = Some (false, visited', recStack') ->
  ~ reaches_cycle deps b
  /\ b ∈ visited' /\ visited ⊆ visited' /\ recStack' ⊆ recStack
  /\ (forall x, x ∈ visited' -> x ∉ recStack -> ~ reaches_cycle deps x).
Proof.
  revert b visited recStack visited' recStack'.
  induction fuel as [|fuel IH]; intros b visited recStack visited' recStack' Hsafe Hsub
    Hcall; [done|].
  simpl in Hcall. destruct (deps !! b) as [parent|] eqn:Hparent.
  - destruct (has ({[b]} ∪ visited) parent) eqn:Hseen; simpl in Hcall.
    + destruct (has ({[b]} ∪ recStack) parent) eqn:Hon; [done|].
      injection Hcall as <- <-. apply has_true in Hseen. apply has_false in Hon.
      assert (Hb : ~ reaches_cycle deps b).
      { apply (parent_safe b parent Hparent).
        apply Hsafe; clear -Hseen Hon; set_solver. }
      split; [done|]. clear IH. split; [sets|]. split; [sets|]. split; [sets|].
      intros x [->%elem_of_singleton|Hx]%elem_of_union Hoff; [done | by apply Hsafe].
    + destruct (hasCycle fuel parent deps _ _) as [[[[] v] r]|] eqn:Hrec; [done| |done].
      injection Hcall as <- <-.
      apply IH in Hrec as (Hp & Hin & Hgrow & Hstack & Hsafe'); clear IH.
      * assert (Hb : ~ reaches_cycle deps b) by (by apply (parent_safe b parent)).
        split; [done|]. split; [sets|]. split; [sets|]. split; [sets|].
        intros x Hx Hoff. destruct (decide (x = b)) as [->|Hne]; [done|].
        apply Hsafe'; [done|]. clear -Hne Hoff. set_solver.
      * intros x Hx Hoff. apply Hsafe; clear -Hx Hoff; set_solver.
      * clear -Hsub. set_solver.
  - injection Hcall as <- <-.
    assert (Hb : ~ reaches_cycle deps b) by (by apply no_parent_safe).
    split; [done|]. clear IH. split; [sets|]. split; [sets|]. split; [sets|].
    intros x [->%elem_of_singleton|Hx]%elem_of_union Hoff; [done | by apply Hsafe].
Qed.

Lemma checkKeys_found fuel keys visited err :
  checkKeys fuel keys deps visited ∅ = Err err -> circular deps.
Proof.
  revert visited. induction keys as [|k keys IH]; intros visited; simpl; [done|].
  destruct (has visited k); simpl; [apply IH|].
  destruct (hasCycle fuel k deps visited ∅) as [[[[] v] r]|] eqn:Hcall; [| |done].
  - intros _. eapply hasCycle_found; [|exact Hcall]. set_solver.
  - assert (Hclear : forall b V S V' S',
              hasCycle fuel b deps V S = Some (false, V', S') -> S' ⊆ S).
    { clear. induction fuel as [|fuel IHf]; intros b V S V' S' Hcall; [done|].
      simpl in Hcall. destruct (deps !! b) as [parent|];
        [|injection Hcall as <- <-; set_solver].
      destruct (has ({[b]} ∪ V) parent); simpl in Hcall.
      - destruct (has ({[b]} ∪ S) parent); [done|]. injection Hcall as <- <-. set_solver.
      - destruct (hasCycle fuel parent deps _ _) as [[[[] v] r]|] eqn:Hrec; [done| |done].
        injection Hcall as <- <-. apply IHf in Hrec. set_solver. }
    apply Hclear in Hcall. assert (r = ∅) as -> by set_solver. apply IH.
Qed.

Lemma checkKeys_clear fuel keys visited :
  (forall x, x ∈ visited -> ~ reaches_cycle deps x) ->
  checkKeys fuel keys deps visited ∅ = Ok () ->
  forall k, k ∈ keys -> ~ reaches_cycle deps k.
Proof.
  revert visited. induction keys as [|k keys IH]; intros visited Hsafe; simpl.
  { intros _ k Hk. by apply elem_of_nil in Hk. }
  destruct (has visited k) eqn:Hseen; simpl.
  - apply has_true in Hseen. intros Hrest k' [->|Hk']%elem_of_cons; [by apply Hsafe|].
    by apply (IH visited).
  - destruct (hasCycle fuel k deps visited ∅) as [[[[] v] r]|] eqn:Hcall; [done| |done].
    apply hasCycle_clear in Hcall as (Hk & _ & _ & Hstack & Hsafe');
      [|intros; by apply Hsafe | set_solver].
    assert (r = ∅) as -> by set_solver.
    intros Hrest k' [->|Hk']%elem_of_cons; [done|].
    apply (IH v); [|done..]. intros x Hx. apply Hsafe'; set_solver.
Qed.

End CycleSearch.

(** X21.  [checkCircularDependencies] is a sound and complete cycle
    check on the parent map it builds, for every list of blocks (duplicate
    ids, references to blocks that do not exist and forward references
    included) and every order in which the keys of the map are visited: it
    reports an error exactly when some id is reached from itself along the
    [from_block] edges of the map, and it always returns. *)
Theorem checkCircularDependencies_correct (project : Project) (keys : list string)
    (Horder : key_order project keys) :
  (circular (buildDeps (Blocks project)) ->
   checkCircularDependencies keys (Blocks project) = Err ErrCircularRefs)
  /\ (~ circular (buildDeps (Blocks project)) ->
      checkCircularDependencies keys (Blocks project) = Ok ())
  /\ checkCircularDependencies keys (Blocks project) <> OutOfFuel.
Proof.
  unfold checkCircularDependencies. cbv zeta.
  set (deps := buildDeps (Blocks project)).
  assert (Hfuel : checkKeys (S (length (Blocks project))) keys deps ∅ ∅ <> OutOfFuel).
  { apply checkKeys_fuel. pose proof (buildDeps_size (Blocks project)). subst deps. lia. }
  destruct (checkKeys _ keys deps ∅ ∅) as [[]|err|] eqn:Hcheck; [| |done].
  - split; [|by split]. intros [c Hcycle]. exfalso.
    assert (Hkey : c ∈ keys).
    { assert (Hstep : exists y, depends_on deps c y) by (inversion Hcycle; eauto).
      destruct Hstep as [y Hstep]. by eapply key_order_elem. }
    eapply (checkKeys_clear deps _ keys ∅); [set_solver | exact Hcheck | exact Hkey |].
    exists c. split; [apply rtc_refl | done].
  - pose proof (checkKeys_errors _ _ _ _ _ _ Hcheck) as ->.
    split; [done|]. split; [|done]. intros Hacyclic. exfalso. apply Hacyclic.
    by eapply checkKeys_found.
Qed.

Lemma checkCircularDependencies_correct_witness :
  checkCircularDependencies ["a"; "b"]%string (Blocks cycleProject) = Err ErrCircularRefs.
Proof.
  assert (Horder : key_order cycleProject ["a"; "b"]%string)
    by (unfold key_order; vm_compute; reflexivity).
  apply (proj1 (checkCircularDependencies_correct cycleProject ["a"; "b"]%string Horder)).
  exists "a"%string.
  apply (tc_l _ "a"%string "b"%string); [reflexivity|]. apply tc_once. reflexivity.
Defined.

(** X22.  A project [Validate] accepts lists every parent block strictly
    before the blocks built on it, so that running the blocks in the order
    of the list meets each parent before its children; and each of its
    blocks has a known network mode (or none), [KEY=VALUE] environment
    entries and mounts with source and target. *)
Theorem Validate_accepted_order (project : Project) (keys : list string)
    (Horder : key_order project keys)
    (Haccepted : Validate keys project = Ok ()) :
  (forall i b, Blocks project !! i = Some b -> FromBlock b <> EmptyString ->
     exists j p, (j < i)%nat /\ Blocks project !! j = Some p /\ ID p = FromBlock b)
  /\ (forall b, b ∈ Blocks project -> runtime_fields_valid b).
Proof.
  pose proof Haccepted as Hok. unfold Validate in Hok.
  destruct (is_empty (Version project)); [done|].
  destruct (is_empty (Name project)); [done|].
  case_bool_decide; [done|].
  destruct (validateBlocks (Blocks project) ∅) as [err|] eqn:Hloop; [done|].
  split.
  - intros i b Hi Hfb.
    destruct (validateBlocks_parents_first _ Hloop i b Hi Hfb) as (j & p & Hle & Hj & Hid).
    destruct (decide (j = i)) as [->|Hne]; [|exists j, p; split; [lia | done]].
    exfalso. assert (p = b) as -> by congruence.
    assert (Hin : b ∈ Blocks project) by (apply list_elem_of_lookup; eauto).
    destruct (Validate_rejects_cycles project keys Horder) as [err Herr]; [|congruence].
    exists b. apply tc_once. done.
  - intros b [i Hi]%list_elem_of_lookup.
    destruct (proj1 (validateBlocks_None _ _) Hloop i b Hi) as (_ & _ & Hblock).
    by apply validateBlock_None in Hblock as (_ & _ & Hfields).
Qed.

Lemma Validate_accepted_order_witness :
  exists j p,
    (j < 1)%nat /\ Blocks demoProject !! j = Some p /\ ID p = FromBlock demoApp.
Proof.
  assert (Horder : key_order demoProject ["app"%string])
    by (unfold key_order; vm_compute; reflexivity).
  assert (Haccepted : Validate ["app"%string] demoProject = Ok ())
    by (vm_compute; reflexivity).
  assert (Hchild : FromBlock demoApp <> EmptyString) by discriminate.
  exact (proj1 (Validate_accepted_order demoProject ["app"%string] Horder Haccepted)
           1%nat demoApp eq_refl Hchild).
Defined.

(** ** The cache hash, continued *)

Section HashShape.

Lemma round_length st kw : length st = 8%nat -> length (SHA256.round st kw) = 8%nat.
Proof.
  destruct st as [|a [|b [|c [|d [|e [|f [|g [|h [|i st]]]]]]]]]; done.
Qed.

Lemma rounds_length l st :
  length st = 8%nat -> length (fold_left SHA256.round l st) = 8%nat.
Proof.
  revert st. induction l as [|kw l IH]; intros st Hst; [done|].
  simpl. by apply IH, round_length.
Qed.

Lemma compress_length h block :
  length h = 8%nat -> length (SHA256.compress h block) = 8%nat.
Proof.
  intros Hh. unfold SHA256.compress.
  rewrite length_map, length_combine, rounds_length by done. lia.
Qed.

Lemma compress_all_length l h :
  length h = 8%nat -> length (fold_left SHA256.compress l h) = 8%nat.
Proof.
  revert h. induction l as [|block l IH]; intros h Hh; [done|].
  simpl. by apply IH, compress_length.
Qed.

Lemma word_bytes_concat_length l :
  length (concat (map SHA256.word_bytes l)) = (4 * length l)%nat.
Proof.
  induction l as [|w l IH]; [done|].
  change (concat (map SHA256.word_bytes (w :: l)))
    with (SHA256.word_bytes w ++ concat (map SHA256.word_bytes l)).
  rewrite length_app, IH. simpl. lia.
Qed.

Lemma sum256_length msg : length (SHA256.sum256 msg) = 32%nat.
Proof.
  unfold SHA256.sum256. cbv zeta.
  rewrite word_bytes_concat_length, compress_all_length; done.
Qed.

Lemma hex_length bs : String.length (hex bs) = (2 * length bs)%nat.
Proof. induction bs as [|b bs IH]; [done|]. simpl. rewrite IH. lia. Qed.

Lemma hex_digit_char d : 0 <= d < 16 -> hex_digit d ∈ hex_chars.
Proof.
  intros Hd.
  assert (Hcases : d = 0 \/ d = 1 \/ d = 2 \/ d = 3 \/ d = 4 \/ d = 5 \/ d = 6 \/ d = 7 \/
            d = 8 \/ d = 9 \/ d = 10 \/ d = 11 \/ d = 12 \/ d = 13 \/ d = 14 \/ d = 15)
    by lia.
  destruct Hcases as [->|[->|[->|[->|[->|[->|[->|[->|[->|[->|[->|[->|[->|[->|[->| ->]]]]]]]]]]]]]]];
    apply list_elem_of_In; vm_compute; tauto.
Qed.

Lemma hex_chars_only bs :
  Forall (fun b => 0 <= b < 256) bs ->
  Forall (fun c => c ∈ hex_chars) (String.list_ascii_of_string (hex bs)).
Proof.
  induction 1 as [|b bs Hb Hbs IH]; [constructor|]. simpl.
  destruct (byte_nibbles b Hb) as (Hhi & Hlo & _).
  repeat (apply Forall_cons; split); [by apply hex_digit_char.. | done].
Qed.

End HashShape.

(** X23.  A new parent digest invalidates the cache key of the children:
    for one and the same block, two different parent digests feed
    different bytes to SHA-256, so the two hashes can only agree on a
    SHA-256 collision. *)
Theorem ComputeBlockHash_parent_digest (block : Block) (D1 D2 : string)
    (Hchanged : D1 <> D2) :
  hash_input block D1 <> hash_input block D2
  /\ (ComputeBlockHash block D1 = ComputeBlockHash block D2 ->
      SHA256.sum256 (hash_input block D1) = SHA256.sum256 (hash_input block D2)).
Proof.
  split.
  - rewrite !hash_input_concat. intros Heq. apply app_inv_tail in Heq.
    by apply bytes_of_string_inj in Heq.
  - unfold ComputeBlockHash, hash_Sum. intros Heq.
    apply hex_inj in Heq; [done | apply sum256_is_bytes..].
Qed.

Lemma ComputeBlockHash_parent_digest_witness :
  hash_input demoApp "sha256:b1" <> hash_input demoApp "sha256:b2".
Proof.
  apply (proj1 (ComputeBlockHash_parent_digest demoApp "sha256:b1" "sha256:b2"
                  ltac:(discriminate))).
Defined.

(** X24.  The cache key is always 64 lower-case hexadecimal characters
    (the 32 bytes of the SHA-256 sum, two digits each), whatever the block
    and the parent digest. *)
Theorem ComputeBlockHash_shape (block : Block) (parentDigest : string) :
  String.length (ComputeBlockHash block parentDigest) = 64%nat
  /\ Forall (fun c => c ∈ hex_chars)
       (String.list_ascii_of_string (ComputeBlockHash block parentDigest)).
Proof.
  unfold ComputeBlockHash, hash_Sum. split.
  - by rewrite hex_length, sum256_length.
  - apply hex_chars_only, sum256_is_bytes.
Qed.

(** ** Image export *)

Section ExportFacts.
Context {R : Type} `{!Runtime R} {G : Type} `{!Registry G} (e : Engine).
Implicit Types (w : @World R) (g : G).

(** The image digest file after a run that ended [success]. *)
Lemma success_image_digest fuel blockID opts w w' state :
  RunBlock fuel e blockID opts w = (Ok (), w') ->
  LoadBlockState blockID (store w') = Ok state ->
  st_Status state = StatusSuccess ->
  images (store w') !! blockID = Some (st_Digest state).
Proof.
  intros Hrun Hstate Hsuccess.
  apply RunBlock_Ok_inv in Hrun
    as (fuel' & block & ref & parentDigest & visited & w1 & _ & Hfind & _ & Hresolved).
  pose proof (runResolved_success e blockID block opts ref parentDigest w1 state)
    as Hbuilt.
  rewrite Hresolved in Hbuilt.
  destruct (Hbuilt Hstate Hsuccess) as (w0 & wb & Hbuild & _ & _ & _ & Hi & _).
  apply buildBlock_success in Hbuild as (Himages & _).
  apply findBlock_Some in Hfind as [_ Hid]. rewrite Hid in Himages.
  simpl in Hi. rewrite Hi, Himages. apply lookup_insert_eq.
Qed.


Lemma TagImage_digest (s : Store) blockID digest xopts g :
  images s !! blockID = Some digest -> digest <> EmptyString ->
  (TagImage s blockID xopts g).2
  = CallTag digest (exp_Tag xopts)
      :: match (rt_ImageTag digest (exp_Tag xopts) g).1 with
         | None => if exp_Push xopts then [CallPush (exp_Tag xopts)] else []
         | Some _ => []
         end
  /\ ((TagImage s blockID xopts g).1.1 = None ->
      (rt_ImageTag digest (exp_Tag xopts) g).1 = None).
Proof.
  intros Himage Hdigest. unfold TagImage, LoadImageDigest. rewrite Himage.
  apply is_empty_false in Hdigest. rewrite Hdigest.
  destruct (rt_ImageTag _ _ _) as [[msg|] g1]; [done|]. simpl.
  destruct (exp_Push xopts); [|done].
  by destruct (rt_ImagePush _ _) as [[msg|] g2].
Qed.

End ExportFacts.

(** X25.  [TagImage] exports the image of the last successful build: after
    a run of a block that ended [success] with a digest, the first
    operation of [TagImage] for that block tags exactly the digest of the
    block state with the requested name; the push follows if and only if it
    was requested and the tag succeeded, and nothing else is invoked. *)
Theorem TagImage_exports_built_image {R : Type} `{!Runtime R} {G : Type} `{!Registry G}
    (e : Engine) (fuel : nat) (blockID : string) (opts : RunOptions) (w w' : @World R)
    (state : BlockState) (xopts : ImageExportOptions) (g : G)
    (Hrun : RunBlock fuel e blockID opts w = (Ok (), w'))
    (Hstate : LoadBlockState blockID (store w') = Ok state)
    (Hsuccess : st_Status state = StatusSuccess)
    (Hdigest : st_Digest state <> EmptyString) :
  (TagImage (store w') blockID xopts g).2
  = CallTag (st_Digest state) (exp_Tag xopts)
      :: match (rt_ImageTag (st_Digest state) (exp_Tag xopts) g).1 with
         | None => if exp_Push xopts then [CallPush (exp_Tag xopts)] else []
         | Some _ => []
         end.
Proof.
  apply TagImage_digest; [|done]. by eapply success_image_digest.
Qed.

Lemma TagImage_exports_built_image_witness :
  (TagImage (store builtOnce) "base" releaseOptions emptyHub).2
  = CallTag (st_Digest baseBuiltState) (exp_Tag releaseOptions)
      :: match (rt_ImageTag (st_Digest baseBuiltState) (exp_Tag releaseOptions)
                  emptyHub).1 with
         | None => if exp_Push releaseOptions then [CallPush (exp_Tag releaseOptions)]
                   else []
         | Some _ => []
         end.
Proof.
  assert (Hrun : RunBlock 5 demoEngine "base" unforced
                   (freshWorld [inl "sha256:b1"%string])
                 = (Ok (), builtOnce))
    by (vm_compute; reflexivity).
  assert (Hstate : LoadBlockState "base" (store builtOnce) = Ok baseBuiltState)
    by (vm_compute; reflexivity).
  assert (Hdigest : st_Digest baseBuiltState <> EmptyString) by discriminate.
  exact (TagImage_exports_built_image demoEngine 5 "base" unforced
           (freshWorld [inl "sha256:b1"%string]) builtOnce baseBuiltState
           releaseOptions emptyHub Hrun Hstate eq_refl Hdigest).
Defined.

(** X26.  Without an image there is nothing to export: when the block
    has no image digest file, or an empty one, [TagImage] returns an error
    and invokes neither tag nor push.  This is the case for every block
    that [Cleanup] has been called on. *)
Theorem TagImage_without_image {G : Type} `{!Registry G} (s : Store)
    (blockID : string) (xopts : ImageExportOptions) (g : G) :
  (images s !! blockID = None \/ images s !! blockID = Some EmptyString ->
   exists err, TagImage s blockID xopts g = (Some err, g, []))
  /\ (forall root descendants,
        blockID ∈ root :: descendants ->
        exists err, TagImage (Cleanup root descendants s) blockID xopts g
                    = (Some err, g, [])).
Proof.
  assert (Hnone : forall s', images s' !! blockID = None ->
            exists err, TagImage s' blockID xopts g = (Some err, g, [])).
  { intros s' Hmissing. unfold TagImage, LoadImageDigest. rewrite Hmissing. eauto. }
  split.
  - intros [Hmissing|Hempty]; [by apply Hnone|].
    unfold TagImage, LoadImageDigest. rewrite Hempty. simpl. eauto.
  - intros root descendants Hin. apply Hnone.
    unfold Cleanup. change ([root] ++ descendants) with (root :: descendants).
    destruct (Cleanup_fold (root :: descendants) s) as (_ & _ & Himages & _).
    rewrite Himages. by rewrite bool_decide_eq_true_2.
Qed.

Lemma TagImage_without_image_witness :
  exists err, TagImage (Cleanup "base" [] storeWithLogs) "base" releaseOptions emptyHub
              = (Some err, emptyHub, []).
Proof.
  apply (proj2 (TagImage_without_image storeWithLogs "base" releaseOptions emptyHub)
           "base" []).
  apply list_elem_of_singleton. reflexivity.
Defined.



(** ** Parents that do not exist *)

(** X28.  A block whose [from_block] names no block of the project cannot
    be run, pinned or not, whatever the store holds for that name:
    [RunBlock] returns the error of the parent resolution ([parent block
    ... not found], or the error of loading the state file of that name
    when it cannot be decoded), invokes no runtime operation and writes
    nothing. *)
Theorem RunBlock_missing_parent {R : Type} `{!Runtime R} (e : Engine) (fuel : nat)
    (blockID : string) (opts : RunOptions) (w : @World R) (block : Block)
    (Hfind : findBlock e blockID = Some block)
    (Hfrom : From block = EmptyString)
    (Hparent : FromBlock block <> EmptyString)
    (Hmissing : forall b, b ∈ Blocks (project e) -> ID b <> FromBlock block) :
  exists err,
    RunBlock (S (S fuel)) e blockID opts w = (Err (ErrResolveParent err), w)
    /\ (err = ErrParentNotFound (FromBlock block)
        \/ exists cause, err = ErrLoadParentState (FromBlock block) cause).
Proof.
  rewrite RunBlock_S, Hfind, resolve_S.
  apply is_empty_true in Hfrom. apply is_empty_false in Hparent.
  rewrite Hfrom, Hparent. simpl.
  assert (Hfresh : has (∅ : gset string) (ID block) = false)
    by (apply has_false; set_solver).
  rewrite Hfresh. unfold resolveMarked, parentReference.
  rewrite (findBlock_None e (FromBlock block) Hmissing).
  destruct (negb (is_empty (FromBlockVersion block))); [eauto|].
  destruct (loadParentState block w) as [state|err|] eqn:Hload.
  - destruct (is_empty (st_Digest state)); eauto.
  - exists err. split; [done|]. right. unfold loadParentState in Hload.
    destruct (LoadBlockState (FromBlock block) (store w)) as [?|cause|]; [done| |done].
    destruct (IsNotExist cause); [done|]. injection Hload as <-. eauto.
  - by apply loadParentState_returns in Hload.
Qed.

Lemma RunBlock_missing_parent_witness :
  exists err,
    RunBlock 5 (engineOf orphanProject) "app" unforced (freshWorld [])
    = (Err (ErrResolveParent err), freshWorld [])
    /\ (err = ErrParentNotFound (FromBlock orphanBlock)
        \/ exists cause, err = ErrLoadParentState (FromBlock orphanBlock) cause).
Proof.
  apply (RunBlock_missing_parent (engineOf orphanProject) 3 "app" unforced
           (freshWorld []) orphanBlock); [reflexivity | reflexivity | discriminate |].
  intros b Hin. repeat (apply elem_of_cons in Hin as [->|Hin]; [discriminate|]).
  by apply elem_of_nil in Hin.
Defined.
